(** * Availability aggregation and timeline sweep (lib/availability.ts)

    A shallow embedding of [aggregateSlots] and [buildTimeline], of the
    form code that produces and consumes their data, and the properties
    stated about them.

    Modelling conventions.
    - A string is a sequence of code units below 256.
    - A JavaScript number is a [num]: [Some z] is the integer [z], [None]
      is NaN.  Comparisons involving NaN are false, arithmetic on NaN is
      NaN, as in the language.  The embedding is exact for integers below
      2^53, where double arithmetic does not round.
    - [Number] strips white space and converts an optional sign followed
      by decimal digits; the empty string converts to 0; every other
      string converts to NaN here.  The language also converts fractions,
      exponents, hexadecimal, octal and binary literals and [Infinity],
      whose values are outside [num] or are not written as integers:
      every statement that depends on a conversion says which clock times
      it covers ([integer_times], [digit_times]).
    - [localeCompare] is the root collation of the Unicode collation
      algorithm on ASCII: control characters are ignored, white space
      precedes punctuation, punctuation precedes digits, digits precede
      letters; letters differ by case only at the third level.  Strings
      that differ only in ignored characters compare equal.  Code units
      from 128 on are placed after the letters in the order of their
      codes, which is not their place in the collation: the statements
      about the order are made for dates and clock times of ASCII digits
      and separators.  On strings of one shape, such as ISO dates or
      clock times [HH:mm], the collation is the order by code unit
      ([localeCompare_same_shape]).
    - A [Map] is an association list in insertion order with at most one
      binding per key ([JsMap]); a [Set] is a duplicate-free list in
      insertion order.
    - The plain object [buildTimeline] returns is the list of its own
      properties in the order [Object.entries] lists them: array indices
      in ascending order first, then the other keys in the order of their
      creation.  Assigning to the key [__proto__] creates no property.
    - [Array.prototype.sort] is the sort of V8 on arrays of fewer than 64
      elements: the run at the head of the array is found, then the other
      elements are inserted by binary search.  For a consistent comparator
      this is the stable sort the language prescribes, at any length; for
      an inconsistent one (a comparator that returns NaN) the language
      leaves the result to the implementation, and the model follows V8.

    Input conditions, all on the form of the strings of the input:
    [integer_times], the hours and the minutes of every clock time are
    written as an optional sign and decimal digits; [digit_times], they are
    written with decimal digits only; [plain_times], no clock time contains
    the underscore that separates the parts of a map key; [padded_input],
    dates have the form dddd-dd-dd and clock times the form dd:dd;
    [iso_dates], dates have the form dddd-dd-dd. *)

From Stdlib Require Import ZArith List Bool Lia String Ascii.
From Stdlib Require Import Permutation Sorted OrderedTypeEx DecimalString.
Import ListNotations.

Local Open Scope string_scope.
Local Open Scope list_scope.
Local Open Scope Z_scope.

(** * Definitions *)

(** ** JavaScript numbers *)

Definition num : Type := option Z.
Definition NaN : num := None.

Definition js_add (a b : num) : num :=
  match a, b with Some x, Some y => Some (x + y) | _, _ => NaN end.
Definition js_sub (a b : num) : num :=
  match a, b with Some x, Some y => Some (x - y) | _, _ => NaN end.
Definition js_mul (a b : num) : num :=
  match a, b with Some x, Some y => Some (x * y) | _, _ => NaN end.
Definition js_le (a b : num) : bool :=
  match a, b with Some x, Some y => x <=? y | _, _ => false end.
Definition js_ge (a b : num) : bool :=
  match a, b with Some x, Some y => y <=? x | _, _ => false end.
Definition js_gt (a b : num) : bool :=
  match a, b with Some x, Some y => y <? x | _, _ => false end.
Definition js_eq (a b : num) : bool :=
  match a, b with Some x, Some y => x =? y | _, _ => false end.
Definition Math_min (a b : num) : num :=
  match a, b with Some x, Some y => Some (Z.min x y) | _, _ => NaN end.
Definition Math_max (a b : num) : num :=
  match a, b with Some x, Some y => Some (Z.max x y) | _, _ => NaN end.

(** ** Strings: [split] and [Number] *)

Fixpoint split (sep : ascii) (s : string) : list string :=
  match s with
  | EmptyString => [EmptyString]
  | String c rest =>
      if Ascii.eqb c sep then EmptyString :: split sep rest
      else match split sep rest with
           | [] => [String c EmptyString]
           | h :: t => String c h :: t
           end
  end.

Definition digit_value (c : ascii) : option Z :=
  let n := Z.of_N (N_of_ascii c) in
  if (48 <=? n) && (n <=? 57) then Some (n - 48) else None.

Fixpoint digits_value (acc : Z) (s : string) : num :=
  match s with
  | EmptyString => Some acc
  | String c rest =>
      match digit_value c with
      | Some d => digits_value (10 * acc + d) rest
      | None => NaN
      end
  end.

(** TAB, LF, VT, FF, CR, space and no-break space. *)
Definition is_white_space (c : ascii) : bool :=
  let n := Z.of_N (N_of_ascii c) in
  ((9 <=? n) && (n <=? 13)) || (n =? 32) || (n =? 160).

Fixpoint trim_start (s : string) : string :=
  match s with
  | EmptyString => EmptyString
  | String c rest => if is_white_space c then trim_start rest else s
  end.

Fixpoint trim_end (s : string) : string :=
  match s with
  | EmptyString => EmptyString
  | String c rest =>
      match trim_end rest with
      | EmptyString => if is_white_space c then EmptyString
                       else String c EmptyString
      | rest' => String c rest'
      end
  end.

(** One or more decimal digits. *)
Definition unsigned_value (s : string) : num :=
  match s with
  | EmptyString => NaN
  | String _ _ => digits_value 0 s
  end.

Definition js_neg (a : num) : num :=
  match a with Some x => Some (- x) | None => NaN end.

Definition Number (s : string) : num :=
  match trim_end (trim_start s) with
  | EmptyString => Some 0
  | String "+" rest => unsigned_value rest
  | String "-" rest => js_neg (unsigned_value rest)
  | t => unsigned_value t
  end.

(** ** [localeCompare] *)

(** The ASCII characters that carry a weight, in the order of the root
    collation up to the digits: white space, punctuation, symbols, the
    dollar sign, digits. *)
Definition collation_order : list Z :=
  [ 9; 10; 11; 12; 13; 32;
    95; 45; 44; 59; 58; 33; 63; 46; 39; 34; 40; 41; 91; 93; 123; 125;
    64; 42; 47; 92; 38; 35; 37;
    96; 94; 43; 60; 61; 62; 124; 126;
    36;
    48; 49; 50; 51; 52; 53; 54; 55; 56; 57 ].

Fixpoint index_of (n : Z) (l : list Z) (i : Z) : option Z :=
  match l with
  | [] => None
  | m :: l' => if n =? m then Some i else index_of n l' (i + 1)
  end.

(** The first-level and third-level weight of a character; [None] for a
    character the collation ignores. *)
Definition collation_element (c : ascii) : option (Z * Z) :=
  let n := Z.of_N (N_of_ascii c) in
  if (97 <=? n) && (n <=? 122) then Some (100 + (n - 97), 0)
  else if (65 <=? n) && (n <=? 90) then Some (100 + (n - 65), 1)
  else if 128 <=? n then Some (1000 + n, 0)
  else match index_of n collation_order 0 with
       | Some i => Some (i, 0)
       | None => None
       end.

Fixpoint collation_elements (s : string) : list (Z * Z) :=
  match s with
  | EmptyString => []
  | String c rest =>
      match collation_element c with
      | Some e => e :: collation_elements rest
      | None => collation_elements rest
      end
  end.

Fixpoint compare_weights (w : Z * Z -> Z) (a b : list (Z * Z))
    : comparison :=
  match a, b with
  | [], [] => Eq
  | [], _ :: _ => Lt
  | _ :: _, [] => Gt
  | x :: a', y :: b' =>
      match Z.compare (w x) (w y) with
      | Eq => compare_weights w a' b'
      | c => c
      end
  end.

Definition comparison_num (c : comparison) : num :=
  match c with
  | Lt => Some (-1)
  | Eq => Some 0
  | Gt => Some 1
  end.

Definition localeCompare (a b : string) : num :=
  let ka := collation_elements a in
  let kb := collation_elements b in
  match compare_weights fst ka kb with
  | Eq => comparison_num (compare_weights snd ka kb)
  | c => comparison_num c
  end.

(** ** [Map], [Set] and plain objects *)

Section JsMap.
Context {V : Type}.

Definition JsMap : Type := list (string * V).

Fixpoint map_get (k : string) (m : JsMap) : option V :=
  match m with
  | [] => None
  | (k', v) :: m' => if String.eqb k' k then Some v else map_get k m'
  end.

Fixpoint map_set (k : string) (v : V) (m : JsMap) : JsMap :=
  match m with
  | [] => [(k, v)]
  | (k', v') :: m' =>
      if String.eqb k' k then (k', v) :: m' else (k', v') :: map_set k v m'
  end.

Definition map_values (m : JsMap) : list V := map snd m.
Definition map_keys (m : JsMap) : list string := map fst m.

(** An array index: the canonical decimal form of an integer from 0 to
    2^32 - 2. *)
Definition array_index (k : string) : option Z :=
  match k with
  | EmptyString => None
  | String "0" EmptyString => Some 0
  | String "0" (String _ _) => None
  | String _ _ =>
      match digits_value 0 k with
      | Some n => if n <=? 4294967294 then Some n else None
      | None => None
      end
  end.

(** A new array index goes before the first greater array index and
    before every other key. *)
Fixpoint insert_index (n : Z) (k : string) (v : V) (o : JsMap) : JsMap :=
  match o with
  | [] => [(k, v)]
  | (k', v') :: o' =>
      match array_index k' with
      | Some n' => if n <? n' then (k, v) :: o
                   else (k', v') :: insert_index n k v o'
      | None => (k, v) :: o
      end
  end.

(** [o[k] = v] on a plain object: the setter [__proto__] of
    [Object.prototype] creates no property. *)
Definition obj_set (k : string) (v : V) (o : JsMap) : JsMap :=
  if String.eqb k "__proto__" then o
  else match map_get k o with
       | Some _ => map_set k v o
       | None =>
           match array_index k with
           | Some n => insert_index n k v o
           | None => o ++ [(k, v)]
           end
       end.
End JsMap.
Arguments JsMap V : clear implicits.

Definition set_has (x : string) (s : list string) : bool :=
  existsb (String.eqb x) s.
Definition set_add (x : string) (s : list string) : list string :=
  if set_has x s then s else s ++ [x].
Definition set_delete (x : string) (s : list string) : list string :=
  filter (fun y => negb (String.eqb x y)) s.

(** ** [Array.prototype.sort] *)

Section ArraySort.
Context {A : Type}.
Variable cmp : A -> A -> num.

(** SortCompare: a NaN comparator result counts as +0. *)
Definition cmp_value (a b : A) : Z :=
  match cmp a b with Some v => v | None => 0 end.

(** The run continues while each element compares with the one before it
    as the first two did: not below it in an ascending run, below it in a
    descending run. *)
Fixpoint run_rest (descending : bool) (previous : A) (l : list A)
    : list A * list A :=
  match l with
  | [] => ([], [])
  | current :: l' =>
      let order := cmp_value current previous in
      if (if descending then 0 <=? order else order <? 0) then ([], l)
      else let (run, rest) := run_rest descending current l' in
           (current :: run, rest)
  end.

(** The run at the head of the array, reversed when it descends, and the
    elements after it. *)
Definition count_and_make_run (l : list A) : list A * list A :=
  match l with
  | first :: second :: l' =>
      let descending := cmp_value second first <? 0 in
      let (run, rest) := run_rest descending second l' in
      let whole := first :: second :: run in
      (if descending then rev whole else whole, rest)
  | _ => (l, [])
  end.

(** Where [pivot] belongs in [work] between [left] and [right]. *)
Fixpoint binary_search (fuel : nat) (pivot : A) (work : list A)
    (left right : nat) : nat :=
  match fuel with
  | O => left
  | S fuel' =>
      if (left <? right)%nat then
        let mid := (left + Nat.div2 (right - left))%nat in
        match nth_error work mid with
        | Some x =>
            if cmp_value pivot x <? 0
            then binary_search fuel' pivot work left mid
            else binary_search fuel' pivot work (S mid) right
        | None => left
        end
      else left
  end.

Definition binary_insert (work : list A) (pivot : A) : list A :=
  let left :=
    binary_search (S (List.length work)) pivot work 0 (List.length work) in
  firstn left work ++ pivot :: skipn left work.

Definition array_sort (l : list A) : list A :=
  let (run, rest) := count_and_make_run l in
  fold_left binary_insert rest run.

(** [a] may stand before [b]: the comparator result is not positive. *)
Definition cmp_le (a b : A) : Prop := cmp_value a b <= 0.

(** The relation between an element of a run and the elements after it,
    before the run is reversed. *)
Definition run_rel (descending : bool) (a b : A) : Prop :=
  if descending then cmp_le b a else cmp_le a b.
End ArraySort.

(** ** Data model *)

Record AvailabilitySlot := {
  date : string;
  startTime : string;
  endTime : string
}.

Record ParticipantAvailability := {
  id : string;
  slots : list AvailabilitySlot
}.

Record AggregatedSlot := {
  agg_slot : AvailabilitySlot;
  agg_participantIds : list string
}.

Record TimelineSegment := {
  startMinutes : Z;
  endMinutes : Z;
  participantIds : list string
}.

Definition TimelineByDate : Type := JsMap (list TimelineSegment).

Definition minutesInDay : num := Some (24 * 60).

Definition toMinutes (time : string) : num :=
  let parts := map Number (split ":" time) in
  let hours := nth 0 parts NaN in
  let minutes := nth 1 parts NaN in
  js_add (js_mul hours (Some 60)) minutes.

(** ** aggregateSlots *)

Definition slot_key (slot : AvailabilitySlot) : string :=
  (date slot ++ "_" ++ startTime slot ++ "_" ++ endTime slot)%string.

Definition aggregate_slot (response_id : string)
    (slotMap : JsMap AggregatedSlot) (slot : AvailabilitySlot)
    : JsMap AggregatedSlot :=
  let key := slot_key slot in
  match map_get key slotMap with
  | Some existing =>
      map_set key
        {| agg_slot := agg_slot existing;
           agg_participantIds := agg_participantIds existing ++ [response_id] |}
        slotMap
  | None =>
      map_set key
        {| agg_slot := slot; agg_participantIds := [response_id] |}
        slotMap
  end.

Definition aggregate_response (slotMap : JsMap AggregatedSlot)
    (response : ParticipantAvailability) : JsMap AggregatedSlot :=
  fold_left (aggregate_slot (id response)) (slots response) slotMap.

Definition compareAggregated (a b : AggregatedSlot) : num :=
  if String.eqb (date (agg_slot a)) (date (agg_slot b))
  then localeCompare (startTime (agg_slot a)) (startTime (agg_slot b))
  else localeCompare (date (agg_slot a)) (date (agg_slot b)).

Definition aggregateSlots (responses : list ParticipantAvailability)
    : list AggregatedSlot :=
  let slotMap := fold_left aggregate_response responses [] in
  array_sort compareAggregated (map_values slotMap).

(** ** buildTimeline *)

Inductive EventType := EvStart | EvEnd.

Record Event := {
  minutes : num;
  type : EventType;
  participantId : string
}.

Definition EventType_eqb (a b : EventType) : bool :=
  match a, b with
  | EvStart, EvStart | EvEnd, EvEnd => true
  | _, _ => false
  end.

Definition collect_slot (response_id : string)
    (eventsByDate : JsMap (list Event)) (slot : AvailabilitySlot)
    : JsMap (list Event) :=
  let start := toMinutes (startTime slot) in
  let end_ := toMinutes (endTime slot) in
  if js_le end_ start || js_ge start minutesInDay then eventsByDate
  else
    let safeEnd := Math_min end_ minutesInDay in
    let events :=
      match map_get (date slot) eventsByDate with
      | Some events => events
      | None => []
      end in
    let events :=
      events ++
        [ {| minutes := Math_max (Some 0) start; type := EvStart;
             participantId := response_id |};
          {| minutes := safeEnd; type := EvEnd;
             participantId := response_id |} ] in
    map_set (date slot) events eventsByDate.

Definition collect_response (eventsByDate : JsMap (list Event))
    (response : ParticipantAvailability) : JsMap (list Event) :=
  fold_left (collect_slot (id response)) (slots response) eventsByDate.

Definition compareEvents (a b : Event) : num :=
  if js_eq (minutes a) (minutes b) then
    if EventType_eqb (type a) (type b) then Some 0
    else match type a with EvEnd => Some (-1) | EvStart => Some 1 end
  else js_sub (minutes a) (minutes b).

Record SweepState := {
  active : list string;
  segments : list TimelineSegment;
  prevMinute : num
}.

(** The guard [active.size > 0 && event.minutes > prevMinute] only holds
    when both numbers are not NaN, so a pushed segment always carries two
    integers; the last branch of the [match] is never taken. *)
Definition sweep_event (st : SweepState) (event : Event) : SweepState :=
  let segments' :=
    if (0 <? Z.of_nat (List.length (active st)))
       && js_gt (minutes event) (prevMinute st)
    then
      match prevMinute st, minutes event with
      | Some p, Some m =>
          segments st ++
            [ {| startMinutes := p; endMinutes := m;
                 participantIds := active st |} ]
      | _, _ => segments st
      end
    else segments st in
  let active' :=
    match type event with
    | EvStart => set_add (participantId event) (active st)
    | EvEnd => set_delete (participantId event) (active st)
    end in
  {| active := active'; segments := segments'; prevMinute := minutes event |}.

Definition sweep_init (sorted : list Event) : SweepState :=
  {| active := [];
     segments := [];
     prevMinute := match sorted with
                   | e :: _ => minutes e
                   | [] => Some 0
                   end |}.

Definition date_segments (events : list Event) : list TimelineSegment :=
  let sorted := array_sort compareEvents events in
  segments (fold_left sweep_event sorted (sweep_init sorted)).

Definition buildTimeline (responses : list ParticipantAvailability)
    : TimelineByDate :=
  let eventsByDate := fold_left collect_response responses [] in
  fold_left
    (fun (timeline : TimelineByDate) (entry : string * list Event) =>
       obj_set (fst entry) (date_segments (snd entry)) timeline)
    eventsByDate [].

(** ** Scenario inputs *)

Definition mkSlot (d s e : string) : AvailabilitySlot :=
  {| date := d; startTime := s; endTime := e |}.
Definition mkResp (i : string) (ss : list AvailabilitySlot)
    : ParticipantAvailability :=
  {| id := i; slots := ss |}.
Definition mkSeg (a b : Z) (ps : list string) : TimelineSegment :=
  {| startMinutes := a; endMinutes := b; participantIds := ps |}.

(** ** The two nested [forEach] loops visit the (participant, slot) pairs
    in order *)

Definition entries (responses : list ParticipantAvailability)
    : list (string * AvailabilitySlot) :=
  flat_map (fun r => map (pair (id r)) (slots r)) responses.

(** ** Events collected for one date *)

(** The events one slot pushes: none when the guard returns early. *)
Definition slot_events (response_id : string) (slot : AvailabilitySlot)
    : list Event :=
  let start := toMinutes (startTime slot) in
  let end_ := toMinutes (endTime slot) in
  if js_le end_ start || js_ge start minutesInDay then []
  else [ {| minutes := Math_max (Some 0) start; type := EvStart;
            participantId := response_id |};
         {| minutes := Math_min end_ minutesInDay; type := EvEnd;
            participantId := response_id |} ].

Definition events_on (d : string) (es : list (string * AvailabilitySlot))
    : list Event :=
  flat_map (fun e => if String.eqb (date (snd e)) d
                     then slot_events (fst e) (snd e) else []) es.

Definition get_events (d : string) (m : JsMap (list Event)) : list Event :=
  match map_get d m with Some l => l | None => [] end.

Definition collect_entries (es : list (string * AvailabilitySlot))
    (m : JsMap (list Event)) : JsMap (list Event) :=
  fold_left (fun acc e => collect_slot (fst e) acc (snd e)) es m.

(** ** The sweep, one event at a time *)

(** What a single event appends to [segments]. *)
Definition emit (st : SweepState) (event : Event) : list TimelineSegment :=
  if (0 <? Z.of_nat (List.length (active st)))
     && js_gt (minutes event) (prevMinute st)
  then
    match prevMinute st, minutes event with
    | Some p, Some m =>
        [ {| startMinutes := p; endMinutes := m;
             participantIds := active st |} ]
    | _, _ => []
    end
  else [].

Fixpoint emitted (st : SweepState) (l : list Event) : list TimelineSegment :=
  match l with
  | [] => []
  | e :: l' => emit st e ++ emitted (sweep_event st e) l'
  end.

Definition segment_ok (seg : TimelineSegment) : Prop :=
  startMinutes seg < endMinutes seg /\ participantIds seg <> [].

(** ** Order of events *)

Definition finite_event (e : Event) : Prop := minutes e <> NaN.

(** Minutes ascending; on equal minutes an end event is not after a start
    event. *)
Definition ev_le (a b : Event) : Prop :=
  match minutes a, minutes b with
  | Some x, Some y => x < y \/ (x = y /\ (type a = EvEnd \/ type b = EvStart))
  | _, _ => False
  end.

Definition sortEvents (events : list Event) : list Event :=
  array_sort compareEvents events.

(** ** The active set *)

(** [last_event_of p l x]: [x] is the last event of participant [p] in [l]. *)
Definition last_event_of (p : string) (l : list Event) (x : Event) : Prop :=
  exists l1 l2, l = l1 ++ x :: l2 /\ participantId x = p /\
                forall y, In y l2 -> participantId y <> p.

(** ** Intervals and what the sweep computes from them *)

Record Interval := {
  iv_start : Z;
  iv_end : Z;
  iv_pid : string
}.

Definition start_event (iv : Interval) : Event :=
  {| minutes := Some (iv_start iv); type := EvStart;
     participantId := iv_pid iv |}.
Definition end_event (iv : Interval) : Event :=
  {| minutes := Some (iv_end iv); type := EvEnd;
     participantId := iv_pid iv |}.
Definition interval_events (ivs : list Interval) : list Event :=
  flat_map (fun iv => [start_event iv; end_event iv]) ivs.

(** [iv] covers minute [t]. *)
Definition covers (iv : Interval) (t : Z) : Prop :=
  iv_start iv <= t < iv_end iv.

(** Two intervals of one participant are the same range or disjoint. *)
Definition compatible (ivs : list Interval) : Prop :=
  forall a b, In a ivs -> In b ivs -> iv_pid a = iv_pid b ->
    (iv_start a = iv_start b /\ iv_end a = iv_end b) \/
    iv_end a <= iv_start b \/ iv_end b <= iv_start a.

(** Two intervals of one participant are the same range, or apart by at
    least one minute. *)
Definition separated (ivs : list Interval) : Prop :=
  forall a b, In a ivs -> In b ivs -> iv_pid a = iv_pid b ->
    (iv_start a = iv_start b /\ iv_end a = iv_end b) \/
    iv_end a < iv_start b \/ iv_end b < iv_start a.

(** A cut of the sorted events at minute [t]: everything up to [t] has
    been processed, everything after [t] is still to come. *)
Definition cut_at (ivs : list Interval) (t : Z) (done todo : list Event)
    : Prop :=
  sortEvents (interval_events ivs) = done ++ todo /\
  (forall x, In x done -> exists mx, minutes x = Some mx /\ mx <= t) /\
  (forall y, In y todo -> exists my, minutes y = Some my /\ t < my).

(** ** Segments come out in order *)


(** ** From slots to intervals *)

(** The minute range of a valid slot: start before end, start before the
    end of the day, end clamped to the end of the day.  The start is taken
    as it is: the ranges are read where no start is negative, so that
    [Math.max(0, start)] leaves it unchanged. *)
Definition slot_range (slot : AvailabilitySlot) : option (Z * Z) :=
  match toMinutes (startTime slot), toMinutes (endTime slot) with
  | Some s, Some e =>
      if (s <? e) && (s <? 1440) then Some (s, Z.min e 1440) else None
  | _, _ => None
  end.

Definition slot_intervals (p : string) (slot : AvailabilitySlot)
    : list Interval :=
  match slot_range slot with
  | Some (s, e) => [ {| iv_start := s; iv_end := e; iv_pid := p |} ]
  | None => []
  end.

Definition intervals_on (d : string) (es : list (string * AvailabilitySlot))
    : list Interval :=
  flat_map (fun e => if String.eqb (date (snd e)) d
                     then slot_intervals (fst e) (snd e) else []) es.

Definition numeric_slot (slot : AvailabilitySlot) : Prop :=
  toMinutes (startTime slot) <> NaN /\ toMinutes (endTime slot) <> NaN.

(** Every clock time of the input converts to a number. *)
Definition numeric_times (responses : list ParticipantAvailability) : Prop :=
  forall r slot, In r responses -> In slot (slots r) -> numeric_slot slot.

(** ** Reading the timeline *)

Definition timeline_segments (responses : list ParticipantAvailability)
    (d : string) : list TimelineSegment :=
  match map_get d (buildTimeline responses) with
  | Some segs => segs
  | None => []
  end.

(** ** Input conditions and their checkers *)

Definition is_number (v : num) : bool :=
  match v with Some _ => true | None => false end.

Definition numeric_timesb (responses : list ParticipantAvailability) : bool :=
  forallb (fun r =>
    forallb (fun slot => is_number (toMinutes (startTime slot)) &&
                         is_number (toMinutes (endTime slot)))
            (slots r)) responses.

(** [available responses d p t]: participant [p] has a valid slot on date
    [d] whose range contains minute [t]. *)
Definition available (responses : list ParticipantAvailability)
    (d p : string) (t : Z) : Prop :=
  exists r slot s e,
    In r responses /\ id r = p /\ In slot (slots r) /\ date slot = d /\
    slot_range slot = Some (s, e) /\ s <= t < e.

Definition slot_covered (responses : list ParticipantAvailability)
    (d : string) (t : Z) : Prop :=
  exists p, available responses d p t.

Definition in_segment (seg : TimelineSegment) (t : Z) : Prop :=
  startMinutes seg <= t < endMinutes seg.

Definition segment_covered (responses : list ParticipantAvailability)
    (d : string) (t : Z) : Prop :=
  exists seg, In seg (timeline_segments responses d) /\ in_segment seg t.

(** No participant has, on date [d], two valid slots that overlap without
    being the same range. *)
Definition no_self_overlap (responses : list ParticipantAvailability)
    (d : string) : Prop :=
  forall r1 r2 slot1 slot2 s1 e1 s2 e2,
    In r1 responses -> In r2 responses -> id r1 = id r2 ->
    In slot1 (slots r1) -> In slot2 (slots r2) ->
    date slot1 = d -> date slot2 = d ->
    slot_range slot1 = Some (s1, e1) -> slot_range slot2 = Some (s2, e2) ->
    (s1 = s2 /\ e1 = e2) \/ e1 <= s2 \/ e2 <= s1.

(** As [no_self_overlap], and two different ranges of one participant do
    not touch either. *)
Definition no_self_touch (responses : list ParticipantAvailability)
    (d : string) : Prop :=
  forall r1 r2 slot1 slot2 s1 e1 s2 e2,
    In r1 responses -> In r2 responses -> id r1 = id r2 ->
    In slot1 (slots r1) -> In slot2 (slots r2) ->
    date slot1 = d -> date slot2 = d ->
    slot_range slot1 = Some (s1, e1) -> slot_range slot2 = Some (s2, e2) ->
    (s1 = s2 /\ e1 = e2) \/ e1 < s2 \/ e2 < s1.

Definition has_valid_slot (responses : list ParticipantAvailability)
    (d : string) : Prop :=
  exists r slot, In r responses /\ In slot (slots r) /\ date slot = d /\
                 slot_range slot <> None.

Definition pair_ok (strict : bool) (a b : Interval) : bool :=
  negb (String.eqb (iv_pid a) (iv_pid b))
  || ((iv_start a =? iv_start b) && (iv_end a =? iv_end b))
  || (if strict then iv_end a <? iv_start b else iv_end a <=? iv_start b)
  || (if strict then iv_end b <? iv_start a else iv_end b <=? iv_start a).

Definition pairwise_ok (strict : bool) (ivs : list Interval) : bool :=
  forallb (fun a => forallb (pair_ok strict a) ivs) ivs.

Definition no_self_overlapb (responses : list ParticipantAvailability)
    (d : string) : bool :=
  pairwise_ok false (intervals_on d (entries responses)).

Definition no_self_touchb (responses : list ParticipantAvailability)
    (d : string) : bool :=
  pairwise_ok true (intervals_on d (entries responses)).

(** ** Partition into runs *)






Definition overlapping_one_participant : list ParticipantAvailability :=
  [ mkResp "P1" [ mkSlot "2024-03-10" "09:00" "10:00";
                  mkSlot "2024-03-10" "09:30" "10:30" ] ].

Definition scenario_A_input : list ParticipantAvailability :=
  [ mkResp "P1" [mkSlot "2024-03-10" "09:00" "10:00"];
    mkResp "P2" [mkSlot "2024-03-10" "09:30" "10:30"] ].

Definition scenario_B_input : list ParticipantAvailability :=
  [ mkResp "P1" [mkSlot "2024-03-10" "09:00" "10:00"];
    mkResp "P2" [mkSlot "2024-03-10" "10:00" "11:00"] ].


(** Times with a sign: the first slot starts an hour before midnight, the
    second lies wholly before it. *)
Definition signed_times_input : list ParticipantAvailability :=
  [ mkResp "P1" [ mkSlot "2024-03-10" "-1:00" "01:00";
                  mkSlot "2024-03-10" "-2:00" "-1:30" ];
    mkResp "P2" [ mkSlot "2024-03-10" "00:30" "+2:00" ] ].

(** ** Reordering events of equal minute and type *)



(** ** The sweep does not depend on the order of tied events *)



(** ** Reordering the input *)


Definition same_slot_P1_P2 : list ParticipantAvailability :=
  [ mkResp "P1" [mkSlot "2024-03-11" "14:00" "15:00"];
    mkResp "P2" [mkSlot "2024-03-11" "14:00" "15:00"] ].

Definition same_slot_P2_P1 : list ParticipantAvailability :=
  [ mkResp "P2" [mkSlot "2024-03-11" "14:00" "15:00"];
    mkResp "P1" [mkSlot "2024-03-11" "14:00" "15:00"] ].



(** ** Order of the aggregated slots *)

(** Start times that are not padded to two digits. *)
Definition unpadded_times_input : list ParticipantAvailability :=
  [ mkResp "P1" [ mkSlot "2024-03-10" "10:00" "11:00";
                  mkSlot "2024-03-10" "1:00" "2:00" ] ].

(** Lexicographic order on strings, by character code. *)
Definition str_lt (a b : string) : Prop := String_as_OT.lt a b.
Definition str_le (a b : string) : Prop := a = b \/ str_lt a b.

(** By date; on the same date by start time. *)
Definition agg_le (a b : AggregatedSlot) : Prop :=
  str_lt (date (agg_slot a)) (date (agg_slot b)) \/
  (date (agg_slot a) = date (agg_slot b) /\
   str_le (startTime (agg_slot a)) (startTime (agg_slot b))).

(** ** Keys of the slot map *)

Fixpoint underscore_free (s : string) : bool :=
  match s with
  | EmptyString => true
  | String c rest => negb (Ascii.eqb c "_") && underscore_free rest
  end.

(** The clock times of the input contain no underscore, the separator of
    the map key. *)
Definition plain_times (responses : list ParticipantAvailability) : Prop :=
  forall r slot, In r responses -> In slot (slots r) ->
    underscore_free (startTime slot) = true /\
    underscore_free (endTime slot) = true.

Definition plain_timesb (responses : list ParticipantAvailability) : bool :=
  forallb (fun r =>
    forallb (fun slot => underscore_free (startTime slot) &&
                         underscore_free (endTime slot))
            (slots r)) responses.

(** Two triples with the same key. *)
Definition colliding_keys_input : list ParticipantAvailability :=
  [ mkResp "P1" [ mkSlot "2024-03-10" "09:00_10:00" "11:00" ];
    mkResp "P2" [ mkSlot "2024-03-10_09:00" "10:00" "11:00" ] ].

Definition colliding_repeats_input : list ParticipantAvailability :=
  [ mkResp "P1" [ mkSlot "2024-03-10" "09:00_10:00" "11:00";
                  mkSlot "2024-03-10" "09:00_10:00" "11:00";
                  mkSlot "2024-03-10_09:00" "10:00" "11:00" ] ].

(** ** Contents of the slot map *)

Definition aggregate_entries (es : list (string * AvailabilitySlot))
    (m : JsMap AggregatedSlot) : JsMap AggregatedSlot :=
  fold_left (fun acc e => aggregate_slot (fst e) acc (snd e)) es m.

(** The (participant, slot) pairs whose slot has key [k], in input order. *)
Definition matching (k : string) (es : list (string * AvailabilitySlot))
    : list (string * AvailabilitySlot) :=
  filter (fun e => String.eqb (slot_key (snd e)) k) es.

Definition extend (a : AggregatedSlot) (ps : list string) : AggregatedSlot :=
  {| agg_slot := agg_slot a;
     agg_participantIds := agg_participantIds a ++ ps |}.

(** ** One aggregated slot per triple *)

Definition slot_eq_dec (a b : AvailabilitySlot) : {a = b} + {a <> b}.
Proof. decide equality; apply string_dec. Defined.

(** ** Repeated slots of one participant *)

(** Number of (participant, slot) pairs of participant [p] with key [k]. *)
Definition key_count (p k : string) (es : list (string * AvailabilitySlot))
    : nat :=
  List.length
    (filter (fun e => String.eqb (fst e) p &&
                      String.eqb (slot_key (snd e)) k) es).

Definition twice_the_same_slot : list ParticipantAvailability :=
  [ mkResp "P1" [ mkSlot "2024-03-11" "14:00" "15:00";
                  mkSlot "2024-03-11" "14:00" "15:00" ];
    mkResp "P2" [ mkSlot "2024-03-11" "14:00" "15:00" ] ].

(** ** Zero-length slots *)

Definition zero_length_only : list ParticipantAvailability :=
  [ mkResp "P1" [ mkSlot "2024-03-10" "09:00" "09:00" ] ].

(** ** Clock times [HH:mm] satisfy the input conditions *)

Definition is_digit (c : ascii) : bool := is_number (digit_value c).

(** Two digits, a colon, two digits. *)
Definition is_clock_time (s : string) : bool :=
  match s with
  | String h1 (String h2 (String sep (String m1 (String m2 EmptyString)))) =>
      is_digit h1 && is_digit h2 && Ascii.eqb sep ":" &&
      is_digit m1 && is_digit m2
  | _ => false
  end.

Definition clock_timesb (responses : list ParticipantAvailability) : bool :=
  forallb (fun r =>
    forallb (fun slot => is_clock_time (startTime slot) &&
                         is_clock_time (endTime slot))
            (slots r)) responses.

(** ** Clock times written as integers *)

Fixpoint all_digits (s : string) : bool :=
  match s with
  | EmptyString => true
  | String c rest => is_digit c && all_digits rest
  end.

(** One or more decimal digits. *)
Definition digit_literal (s : string) : bool :=
  match s with
  | EmptyString => false
  | String _ _ => all_digits s
  end.


(** The hours and the minutes of a clock time, the two parts [toMinutes]
    reads, both have the form [literal]. *)
Definition time_parts (literal : string -> bool) (time : string) : bool :=
  match split ":" time with
  | hours :: minutes :: _ => literal hours && literal minutes
  | _ => false
  end.

Definition digit_time (time : string) : bool := time_parts digit_literal time.

(** The hours and the minutes of every clock time are written with
    decimal digits only. *)
Definition digit_times (responses : list ParticipantAvailability) : Prop :=
  forall r slot, In r responses -> In slot (slots r) ->
    digit_time (startTime slot) = true /\ digit_time (endTime slot) = true.


Definition digit_timesb (responses : list ParticipantAvailability) : bool :=
  forallb (fun r =>
    forallb (fun slot => digit_time (startTime slot) &&
                         digit_time (endTime slot))
            (slots r)) responses.


(** ** Dates and times of one shape *)

(** Four digits, a hyphen, two digits, a hyphen, two digits. *)
Definition is_iso_date (s : string) : bool :=
  match s with
  | String y1 (String y2 (String y3 (String y4 (String s1
      (String m1 (String m2 (String s2
        (String d1 (String d2 EmptyString))))))))) =>
      is_digit y1 && is_digit y2 && is_digit y3 && is_digit y4 &&
      Ascii.eqb s1 "-" && is_digit m1 && is_digit m2 &&
      Ascii.eqb s2 "-" && is_digit d1 && is_digit d2
  | _ => false
  end.

Definition padded_slot (slot : AvailabilitySlot) : bool :=
  is_iso_date (date slot) && is_clock_time (startTime slot) &&
  is_clock_time (endTime slot).

(** Dates of the form dddd-dd-dd and clock times of the form dd:dd. *)
Definition padded_input (responses : list ParticipantAvailability) : Prop :=
  forall r slot, In r responses -> In slot (slots r) ->
    padded_slot slot = true.

Definition padded_inputb (responses : list ParticipantAvailability) : bool :=
  forallb (fun r => forallb padded_slot (slots r)) responses.

(** Two strings of the same length that hold, at each position, two
    digits or the same colon or hyphen. *)
Fixpoint same_shape (a b : string) : bool :=
  match a, b with
  | EmptyString, EmptyString => true
  | String x a', String y b' =>
      ((is_digit x && is_digit y) ||
       (Ascii.eqb x y && (Ascii.eqb x ":" || Ascii.eqb x "-")))
      && same_shape a' b'
  | _, _ => false
  end.

(** The order of strings by code unit, as a comparator. *)
Definition lexicographic (a b : string) : num :=
  comparison_num (String.compare a b).


(** ** One date at a time *)

(** The participant with only the slots of date [d]. *)
Definition restrict_to_date (d : string) (r : ParticipantAvailability)
    : ParticipantAvailability :=
  {| id := id r;
     slots := filter (fun slot => String.eqb (date slot) d) (slots r) |}.

(** Some slot of date [d] passes the guard of [buildTimeline], whatever its
    clock times convert to. *)
Definition pushes_events (responses : list ParticipantAvailability)
    (d : string) : Prop :=
  exists r slot, In r responses /\ In slot (slots r) /\ date slot = d /\
                 slot_events (id r) slot <> [].


(** A slot that runs past the end of the day. *)
Definition late_slot_input : list ParticipantAvailability :=
  [ mkResp "P1" [ mkSlot "2024-03-10" "23:00" "25:30" ] ].

(** ** Counting participant entries *)

(** Total number of participant ids listed over a list of aggregated
    slots. *)
Definition listed_ids (l : list AggregatedSlot) : nat :=
  List.length (flat_map agg_participantIds l).

Definition slot_count (responses : list ParticipantAvailability) : nat :=
  list_sum (map (fun r => List.length (slots r)) responses).

(** ** Minutes to clock time (TimeRangeSelector.tsx, AvailabilitySummary.tsx)

    [minutesToTime] is defined three times in the sources with the same
    body (once under the name [toTime]); [timeToMinutes] has the body of
    [toMinutes].  Numbers are integers or NaN as before: [Math.floor (a /
    b)] and [a % b] are modelled for an integer [a] and a positive integer
    [b], where they are the floor quotient and the remainder with the sign
    of [a]. *)

(** [Number.prototype.toString] on an integer or NaN. *)
Definition Number_toString (v : num) : string :=
  match v with
  | Some z => NilZero.string_of_int (Z.to_int z)
  | None => "NaN"
  end.

Fixpoint repeat_char (c : ascii) (n : nat) : string :=
  match n with
  | O => EmptyString
  | S n' => String c (repeat_char c n')
  end.

(** [String.prototype.padStart] with a one-character filler. *)
Definition padStart (targetLength : nat) (fill : ascii) (s : string)
    : string :=
  (repeat_char fill (targetLength - String.length s) ++ s)%string.

Definition Math_floor_div (a : num) (b : Z) : num :=
  match a with Some x => Some (x / b) | None => NaN end.

Definition js_rem (a : num) (b : Z) : num :=
  match a with Some x => Some (Z.rem x b) | None => NaN end.

Definition minutesToTime (minutes : num) : string :=
  let clamped := Math_max (Some 0) (Math_min minutes (Some (24 * 60))) in
  let hours := padStart 2 "0" (Number_toString (Math_floor_div clamped 60)) in
  let mins := padStart 2 "0" (Number_toString (js_rem clamped 60)) in
  (hours ++ ":" ++ mins)%string.

Definition timeToMinutes (time : string) : num :=
  let parts := map Number (split ":" time) in
  let hours := nth 0 parts NaN in
  let minutes := nth 1 parts NaN in
  js_add (js_mul hours (Some 60)) minutes.

(** The slot built from a segment when it is selected in the summary or in
    the preview. *)
Definition segment_to_slot (d : string) (seg : TimelineSegment)
    : AvailabilitySlot :=
  {| date := d;
     startTime := minutesToTime (Some (startMinutes seg));
     endTime := minutesToTime (Some (endMinutes seg)) |}.

Definition clamp_day (z : Z) : Z := Z.max 0 (Z.min z 1440).

(** The minutes part below 60 and the whole time at most 24:00: the clock
    times [minutesToTime] can produce. *)
Definition canonical_clock (s : string) : bool :=
  is_clock_time s &&
  match timeToMinutes s, Number (substring 3 2 s) with
  | Some v, Some m => (v <=? 1440) && (m <? 60)
  | _, _ => false
  end.

Definition digit_char (d : Z) : ascii := ascii_of_N (Z.to_N (48 + d)).

Definition clock_of_digits (d1 d2 d3 d4 : Z) : string :=
  String (digit_char d1) (String (digit_char d2) (String ":"
    (String (digit_char d3) (String (digit_char d4) EmptyString)))).

Definition num_eqb (a b : num) : bool :=
  match a, b with
  | Some x, Some y => x =? y
  | None, None => true
  | _, _ => false
  end.

Definition Z_range (n : nat) : list Z := map Z.of_nat (seq 0 n).

(** JavaScript [<] and [>=] on strings: order by code unit. *)
Definition js_str_lt (a b : string) : bool :=
  match String.compare a b with Lt => true | _ => false end.
Definition js_str_ge (a b : string) : bool := negb (js_str_lt a b).

(** ** The availability form (TimeRangeSelector.tsx)

    State updates are modelled as the pure functions passed to the state
    setter; a handler that reports an error and returns early is a function
    into a sum. *)

Definition js_lt (a b : num) : bool :=
  match a, b with Some x, Some y => x <? y | _, _ => false end.

(** [sortSlots]: by date, then start time, then end time. *)
Definition sortSlots (a b : AvailabilitySlot) : num :=
  if String.eqb (date a) (date b) then
    if String.eqb (startTime a) (startTime b)
    then localeCompare (endTime a) (endTime b)
    else localeCompare (startTime a) (startTime b)
  else localeCompare (date a) (date b).

Record AllowedDates := {
  allowed_start : option string;
  allowed_end : option string
}.

Record AllowedTimes := {
  allowed_startMinutes : num;
  allowed_endMinutes : num
}.

(** [bound && test bound]: a missing or empty bound is falsy. *)
Definition with_bound (bound : option string) (test : string -> bool)
    : bool :=
  match bound with
  | Some b => negb (String.eqb b EmptyString) && test b
  | None => false
  end.

Definition isSlotWithinRange (slot : AvailabilitySlot)
    (dates : AllowedDates) (times : AllowedTimes) : bool :=
  if with_bound (allowed_start dates) (fun b => js_str_lt (date slot) b)
  then false
  else if with_bound (allowed_end dates) (fun b => js_str_lt b (date slot))
  then false
  else
    let start := timeToMinutes (startTime slot) in
    let end_ := timeToMinutes (endTime slot) in
    if js_lt start (allowed_startMinutes times) then false
    else if js_gt end_ (allowed_endMinutes times) then false
    else true.

Definition same_triple (existing slot : AvailabilitySlot) : bool :=
  String.eqb (date existing) (date slot) &&
  String.eqb (startTime existing) (startTime slot) &&
  String.eqb (endTime existing) (endTime slot).

(** One round of the [forEach] of [appendSlots]: the state is the array
    [merged] and the flag [added]. *)
Definition append_candidate (dates : AllowedDates) (times : AllowedTimes)
    (st : list AvailabilitySlot * bool) (slot : AvailabilitySlot)
    : list AvailabilitySlot * bool :=
  if negb (isSlotWithinRange slot dates times) then st
  else if existsb (fun existing => same_triple existing slot) (fst st)
  then st
  else (fst st ++ [slot], true).

(** The function [appendSlots] passes to [setSlots]. *)
Definition appendSlots (dates : AllowedDates) (times : AllowedTimes)
    (candidates prev : list AvailabilitySlot) : list AvailabilitySlot :=
  let st := fold_left (append_candidate dates times) candidates
                      (prev, false) in
  if snd st then array_sort sortSlots (fst st) else prev.

(** Order of [sortSlots]. *)
Definition slot_le (a b : AvailabilitySlot) : Prop :=
  str_lt (date a) (date b) \/
  (date a = date b /\
   (str_lt (startTime a) (startTime b) \/
    (startTime a = startTime b /\ str_le (endTime a) (endTime b)))).

Definition slot_lt (a b : AvailabilitySlot) : Prop :=
  slot_le a b /\ a <> b.

Record Draft := {
  draft_startTime : string;
  draft_endTime : string
}.

Inductive AddSlotError :=
| NoDateSelected
| EndNotAfterStart (iso : string)
| OutsideAllowedTimes (iso : string)
| NoValidRange.

(** The [for] loop of [handleAddSlot] over the selected dates. *)
Fixpoint collect_new_slots (dateTimeDrafts : JsMap Draft)
    (allowedTimes : AllowedTimes) (isoDates : list string)
    (newSlots : list AvailabilitySlot)
    : AddSlotError + list AvailabilitySlot :=
  match isoDates with
  | [] => inr newSlots
  | iso :: rest =>
      match map_get iso dateTimeDrafts with
      | None => collect_new_slots dateTimeDrafts allowedTimes rest newSlots
      | Some draft =>
          if js_str_ge (draft_startTime draft) (draft_endTime draft)
          then inl (EndNotAfterStart iso)
          else
            let startMinutes := timeToMinutes (draft_startTime draft) in
            let endMinutes := timeToMinutes (draft_endTime draft) in
            if js_lt startMinutes (allowed_startMinutes allowedTimes)
               || js_gt endMinutes (allowed_endMinutes allowedTimes)
            then inl (OutsideAllowedTimes iso)
            else collect_new_slots dateTimeDrafts allowedTimes rest
                   (newSlots ++
                      [ {| date := iso;
                           startTime := draft_startTime draft;
                           endTime := draft_endTime draft |} ])
      end
  end.

(** [handleAddSlot] up to the call of [appendSlots]: the error it reports,
    or the slots it hands over. *)
Definition handleAddSlot (isoDates : list string)
    (dateTimeDrafts : JsMap Draft) (allowedTimes : AllowedTimes)
    : AddSlotError + list AvailabilitySlot :=
  match isoDates with
  | [] => inl NoDateSelected
  | _ =>
      match collect_new_slots dateTimeDrafts allowedTimes isoDates [] with
      | inl err => inl err
      | inr [] => inl NoValidRange
      | inr newSlots => inr newSlots
      end
  end.

(** ** The range slider (TimeRangeSelector.tsx) *)

Definition clampRange (value : num * num) (bounds_min bounds_max : num)
    : num * num :=
  let start := fst value in
  let end_ := snd value in
  let safeStart := Math_max bounds_min (Math_min start bounds_max) in
  let safeEnd := Math_max bounds_min (Math_min end_ bounds_max) in
  ( Math_min safeStart (js_sub safeEnd (Some 15)),
    Math_max (Math_max bounds_min (js_add safeStart (Some 15))) safeEnd ).

(** A project open in March 2024 from 08:00 to 18:00. *)
Definition form_dates : AllowedDates :=
  {| allowed_start := Some "2024-03-01"; allowed_end := Some "2024-03-31" |}.
Definition form_times : AllowedTimes :=
  {| allowed_startMinutes := Some 480; allowed_endMinutes := Some 1080 |}.

(** What [handleAddSlot] has checked about a slot it hands over. *)
Definition accepted (dateTimeDrafts : JsMap Draft)
    (allowedTimes : AllowedTimes) (slot : AvailabilitySlot) : Prop :=
  map_get (date slot) dateTimeDrafts
    = Some {| draft_startTime := startTime slot;
              draft_endTime := endTime slot |} /\
  js_str_lt (startTime slot) (endTime slot) = true /\
  js_lt (timeToMinutes (startTime slot))
        (allowed_startMinutes allowedTimes) = false /\
  js_gt (timeToMinutes (endTime slot))
        (allowed_endMinutes allowedTimes) = false.

Definition has_draft (dateTimeDrafts : JsMap Draft) (iso : string) : bool :=
  match map_get iso dateTimeDrafts with Some _ => true | None => false end.

Definition no_date_bounds : AllowedDates :=
  {| allowed_start := None; allowed_end := None |}.

Definition canonical_drafts (dateTimeDrafts : JsMap Draft) : Prop :=
  forall iso draft, map_get iso dateTimeDrafts = Some draft ->
    canonical_clock (draft_startTime draft) = true /\
    canonical_clock (draft_endTime draft) = true.

Definition form_drafts : JsMap Draft :=
  [ ("2024-03-10",
     {| draft_startTime := "09:00"; draft_endTime := "10:00" |});
    ("2024-03-12",
     {| draft_startTime := "13:15"; draft_endTime := "17:45" |}) ].

(** ** The timeline display (TimelineVisualizer.tsx) *)

Definition compareEntries (a b : string * list TimelineSegment) : num :=
  localeCompare (fst a) (fst b).

(** [Object.entries(timeline).sort(...)]: the dates in ascending order. *)
Definition display_entries (timeline : TimelineByDate)
    : list (string * list TimelineSegment) :=
  array_sort compareEntries timeline.

Definition entry_before (a b : string * list TimelineSegment) : Prop :=
  str_lt (fst a) (fst b).


Definition two_dates_input : list ParticipantAvailability :=
  [ mkResp "P1" [ mkSlot "2024-03-12" "09:00" "10:00";
                  mkSlot "2024-03-10" "14:00" "15:00" ];
    mkResp "P2" [ mkSlot "2024-03-10" "14:30" "16:00" ] ].


(** ** The form's preview (TimeRangeSelector.tsx) *)

(** [previewResponses]: the participant's current slots as the only
    response, or no response when there is no slot. *)
Definition previewResponses (participant_id : string)
    (own : list AvailabilitySlot) : list ParticipantAvailability :=
  match own with
  | [] => []
  | _ :: _ => [ {| id := participant_id; slots := own |} ]
  end.

Definition previewTimeline (participant_id : string)
    (own : list AvailabilitySlot) : TimelineByDate :=
  buildTimeline (previewResponses participant_id own).

(** The updater of [onSegmentChange]: the slot shown by [original] takes
    the times of [segment], then the list is sorted again. *)
Definition onSegmentChange (segment : TimelineSegment) (d : string)
    (original : TimelineSegment) (prev : list AvailabilitySlot)
    : list AvailabilitySlot :=
  let newStart := minutesToTime (Some (startMinutes segment)) in
  let newEnd := minutesToTime (Some (endMinutes segment)) in
  let originalStart := minutesToTime (Some (startMinutes original)) in
  let originalEnd := minutesToTime (Some (endMinutes original)) in
  array_sort sortSlots
    (map (fun slot =>
            if String.eqb (date slot) d &&
               String.eqb (startTime slot) originalStart &&
               String.eqb (endTime slot) originalEnd
            then {| date := date slot; startTime := newStart;
                    endTime := newEnd |}
            else slot) prev).

Definition canonical_slots (l : list AvailabilitySlot) : Prop :=
  forall slot, In slot l ->
    canonical_clock (startTime slot) = true /\
    canonical_clock (endTime slot) = true.

Definition canonical_slotsb (l : list AvailabilitySlot) : bool :=
  forallb (fun slot => canonical_clock (startTime slot) &&
                       canonical_clock (endTime slot)) l.

Definition own_slots : list AvailabilitySlot :=
  [ mkSlot "2024-03-10" "09:00" "10:00";
    mkSlot "2024-03-10" "14:00" "15:30";
    mkSlot "2024-03-11" "09:30" "11:00" ].


(** Every date of the input has the form dddd-dd-dd. *)
Definition iso_dates (responses : list ParticipantAvailability) : Prop :=
  forall r slot, In r responses -> In slot (slots r) ->
    is_iso_date (date slot) = true.

Definition iso_datesb (responses : list ParticipantAvailability) : bool :=
  forallb (fun r => forallb (fun slot => is_iso_date (date slot)) (slots r))
          responses.
(** * Properties *)

(** ** Scenario inputs *)

Example toMinutes_0930 : toMinutes "09:30" = Some 570.
Proof. reflexivity. Qed.

Example toMinutes_no_colon : toMinutes "0930" = NaN.
Proof. reflexivity. Qed.

Example scenario_A :
  buildTimeline
    [ mkResp "P1" [mkSlot "2024-03-10" "09:00" "10:00"];
      mkResp "P2" [mkSlot "2024-03-10" "09:30" "10:30"] ]
  = [ ("2024-03-10",
       [ mkSeg 540 570 ["P1"]; mkSeg 570 600 ["P1"; "P2"];
         mkSeg 600 630 ["P2"] ]) ].
Proof. vm_compute. reflexivity. Qed.

Example scenario_C : aggregateSlots [] = [] /\ buildTimeline [] = [].
Proof. split; reflexivity. Qed.

Example scenario_D :
  let s := mkSlot "2024-03-11" "14:00" "15:00" in
  aggregateSlots [mkResp "P1" [s]; mkResp "P2" [s]]
    = [ {| agg_slot := s; agg_participantIds := ["P1"; "P2"] |} ]
  /\ buildTimeline [mkResp "P1" [s]; mkResp "P2" [s]]
    = [ ("2024-03-11", [ mkSeg 840 900 ["P1"; "P2"] ]) ].
Proof. split; vm_compute; reflexivity. Qed.

(** ** [Array.prototype.sort] *)

Lemma StronglySorted_app_inv {A} (R : A -> A -> Prop) (l1 l2 : list A) :
  StronglySorted R (l1 ++ l2) ->
  StronglySorted R l1 /\ StronglySorted R l2 /\
  (forall x y, In x l1 -> In y l2 -> R x y).
Proof.
  induction l1 as [|a l1 IH]; simpl; intros H.
  - repeat split; [constructor | exact H | intros ? ? []].
  - apply StronglySorted_inv in H as [H Ha].
    destruct (IH H) as (H1 & H2 & H12).
    rewrite Forall_app in Ha. destruct Ha as [Ha1 Ha2].
    repeat split; auto.
    + now constructor.
    + intros x y [<-|Hx] Hy; [|now apply H12].
      rewrite Forall_forall in Ha2. now apply Ha2.
Qed.

Lemma StronglySorted_app_intro {A} (R : A -> A -> Prop) (l1 l2 : list A) :
  StronglySorted R l1 -> StronglySorted R l2 ->
  (forall x y, In x l1 -> In y l2 -> R x y) ->
  StronglySorted R (l1 ++ l2).
Proof.
  intros H1 H2 H12. induction H1 as [|a l1 H1 IH Ha]; simpl; [exact H2|].
  constructor.
  - apply IH. intros x y Hx. apply H12. now right.
  - apply Forall_app. split; [exact Ha|].
    apply Forall_forall. intros y Hy. apply H12; [now left|exact Hy].
Qed.

Lemma StronglySorted_rev {A} (R : A -> A -> Prop) (l : list A) :
  StronglySorted (fun a b => R b a) l -> StronglySorted R (rev l).
Proof.
  induction 1 as [|a l H IH Ha]; simpl; [constructor|].
  apply StronglySorted_app_intro; [exact IH|repeat constructor|].
  intros x y Hx [<-|[]]. rewrite Forall_forall in Ha.
  apply Ha. now apply in_rev.
Qed.

Lemma StronglySorted_nth {A} (R : A -> A -> Prop) (l : list A) :
  StronglySorted R l ->
  forall i j a b, (i < j)%nat ->
    nth_error l i = Some a -> nth_error l j = Some b -> R a b.
Proof.
  induction 1 as [|x l H IH Hx]; intros i j a b Hij Ha Hb.
  - now destruct i.
  - destruct j as [|j]; [lia|]. simpl in Hb. destruct i as [|i]; simpl in Ha.
    + injection Ha as <-. rewrite Forall_forall in Hx.
      apply Hx. eapply nth_error_In, Hb.
    + apply (IH i j); auto. lia.
Qed.

Section ArraySortFacts.
Context {A : Type}.
Variable cmp : A -> A -> num.

Lemma run_rest_app descending previous (l : list A) :
  fst (run_rest cmp descending previous l)
    ++ snd (run_rest cmp descending previous l) = l.
Proof.
  revert previous. induction l as [|current l IH]; intros previous; simpl.
  - reflexivity.
  - destruct (if descending then _ else _); [reflexivity|].
    specialize (IH current).
    destruct (run_rest cmp descending current l) as [run rest].
    simpl in *. now rewrite IH.
Qed.

Lemma count_and_make_run_perm (l : list A) :
  Permutation (fst (count_and_make_run cmp l)
                 ++ snd (count_and_make_run cmp l)) l.
Proof.
  destruct l as [|e0 [|e1 l]]; simpl;
    [apply Permutation_refl|apply Permutation_refl|].
  pose proof (run_rest_app (cmp_value cmp e1 e0 <? 0) e1 l) as E.
  destruct (run_rest cmp _ e1 l) as [run rest]. simpl in E.
  rewrite <- E.
  change (e0 :: e1 :: run ++ rest)
    with ((e0 :: e1 :: run) ++ rest).
  destruct (cmp_value cmp e1 e0 <? 0); simpl fst; simpl snd.
  - apply Permutation_app_tail, Permutation_sym, Permutation_rev.
  - apply Permutation_refl.
Qed.

Lemma binary_insert_perm (work : list A) (pivot : A) :
  Permutation (binary_insert cmp work pivot) (pivot :: work).
Proof.
  unfold binary_insert.
  set (k := binary_search cmp _ pivot work 0 _).
  apply Permutation_sym.
  rewrite <- (firstn_skipn k work) at 1. apply Permutation_middle.
Qed.

Lemma fold_binary_insert_perm (rest run : list A) :
  Permutation (fold_left (binary_insert cmp) rest run) (run ++ rest).
Proof.
  revert run. induction rest as [|x rest IH]; intros run; simpl.
  - rewrite app_nil_r. apply Permutation_refl.
  - eapply perm_trans; [apply IH|].
    eapply perm_trans;
      [apply Permutation_app_tail, binary_insert_perm|].
    simpl. apply Permutation_middle.
Qed.

Lemma array_sort_perm (l : list A) : Permutation (array_sort cmp l) l.
Proof.
  unfold array_sort. pose proof (count_and_make_run_perm l) as H.
  destruct (count_and_make_run cmp l) as [run rest]. simpl in H.
  eapply perm_trans; [apply fold_binary_insert_perm|exact H].
Qed.

Lemma array_sort_In (l : list A) (x : A) :
  In x (array_sort cmp l) <-> In x l.
Proof.
  split; apply Permutation_in;
    [apply array_sort_perm | apply Permutation_sym, array_sort_perm].
Qed.

(** On a domain [dom] where the comparator is consistent, that is where a
    result that is not negative means that the arguments may stand in the
    other order, and where it is transitive, the result is sorted. *)
Variable dom : A -> Prop.
Hypothesis cmp_flip :
  forall a b, dom a -> dom b -> 0 <= cmp_value cmp a b -> cmp_le cmp b a.
Hypothesis cmp_trans :
  forall a b c, dom a -> dom b -> dom c ->
    cmp_le cmp a b -> cmp_le cmp b c -> cmp_le cmp a c.

Lemma run_rel_trans descending a b c :
  dom a -> dom b -> dom c ->
  run_rel cmp descending a b -> run_rel cmp descending b c ->
  run_rel cmp descending a c.
Proof.
  unfold run_rel. destruct descending; intros Ha Hb Hc H1 H2.
  - now apply (cmp_trans c b a).
  - now apply (cmp_trans a b c).
Qed.

Lemma run_rel_cons descending a b (l : list A) :
  dom a -> dom b -> Forall dom l ->
  run_rel cmp descending a b ->
  StronglySorted (run_rel cmp descending) (b :: l) ->
  StronglySorted (run_rel cmp descending) (a :: b :: l).
Proof.
  intros Ha Hb Hl Hab Hs. constructor; [exact Hs|].
  constructor; [exact Hab|].
  apply StronglySorted_inv in Hs as [_ Hbl].
  rewrite Forall_forall in *. intros x Hx.
  apply (run_rel_trans descending a b x); auto.
Qed.

Lemma run_rest_dom descending previous (l : list A) :
  Forall dom l -> Forall dom (fst (run_rest cmp descending previous l)).
Proof.
  intros H. pose proof (run_rest_app descending previous l) as E.
  rewrite <- E in H. now apply Forall_app in H as [H _].
Qed.

Lemma run_rest_sorted descending (l : list A) : forall previous,
  dom previous -> Forall dom l ->
  StronglySorted (run_rel cmp descending)
    (previous :: fst (run_rest cmp descending previous l)).
Proof.
  induction l as [|current l IH]; intros previous Hp Hl; simpl.
  - repeat constructor.
  - apply Forall_cons_iff in Hl as [Hc Hl].
    destruct (if descending then _ else _) eqn:E; simpl.
    + repeat constructor.
    + specialize (IH current Hc Hl).
      pose proof (run_rest_dom descending current l Hl) as Hd.
      destruct (run_rest cmp descending current l) as [run rest].
      simpl in *. apply run_rel_cons; auto.
      unfold run_rel. destruct descending.
      * apply Z.leb_gt in E. unfold cmp_le. lia.
      * apply Z.ltb_ge in E. now apply cmp_flip.
Qed.

Lemma count_and_make_run_sorted (l : list A) :
  Forall dom l ->
  StronglySorted (cmp_le cmp) (fst (count_and_make_run cmp l)).
Proof.
  intros Hl. destruct l as [|e0 [|e1 l]];
    [simpl; constructor|simpl; repeat constructor|].
  unfold count_and_make_run.
  apply Forall_cons_iff in Hl as [H1 Hl].
  apply Forall_cons_iff in Hl as [H2 Hl].
  pose proof (run_rest_sorted (cmp_value cmp e1 e0 <? 0) l e1 H2 Hl)
    as Hs.
  pose proof (run_rest_dom (cmp_value cmp e1 e0 <? 0) e1 l Hl)
    as Hd.
  destruct (run_rest cmp _ e1 l) as [run rest]. cbn [fst] in *.
  destruct (cmp_value cmp e1 e0 <? 0) eqn:E; cbn [fst].
  - apply StronglySorted_rev.
    apply (run_rel_cons true e0 e1 run); auto.
    apply Z.ltb_lt in E. unfold run_rel, cmp_le. lia.
  - apply (run_rel_cons false e0 e1 run); auto.
    apply Z.ltb_ge in E. unfold run_rel. now apply cmp_flip.
Qed.

Lemma binary_search_spec (pivot : A) (work : list A) :
  dom pivot -> Forall dom work -> StronglySorted (cmp_le cmp) work ->
  forall fuel left right,
    (left <= right <= List.length work)%nat -> (right - left < fuel)%nat ->
    (forall i x, (i < left)%nat -> nth_error work i = Some x ->
                 cmp_le cmp x pivot) ->
    (forall i x, (right <= i)%nat -> nth_error work i = Some x ->
                 cmp_le cmp pivot x) ->
    let k := binary_search cmp fuel pivot work left right in
    (forall i x, (i < k)%nat -> nth_error work i = Some x ->
                 cmp_le cmp x pivot) /\
    (forall i x, (k <= i)%nat -> nth_error work i = Some x ->
                 cmp_le cmp pivot x).
Proof.
  intros Hp Hw Hs. rewrite Forall_forall in Hw.
  induction fuel as [|fuel IH]; intros left right Hb Hf Hl Hr; [lia|].
  simpl. destruct (Nat.ltb_spec left right) as [Hlt|Hge].
  - set (mid := (left + Nat.div2 (right - left))%nat).
    assert (Hmid : (left <= mid < right)%nat).
    { unfold mid.
      assert (H : (Nat.div2 (right - left) < right - left)%nat)
        by (apply Nat.lt_div2; lia).
      revert H. generalize (Nat.div2 (right - left)). intros d H. lia. }
    destruct (nth_error work mid) as [x|] eqn:Ex.
    2:{ apply nth_error_None in Ex. lia. }
    assert (Hdx : dom x) by (eapply Hw, nth_error_In, Ex).
    destruct (Z.ltb_spec (cmp_value cmp pivot x) 0) as [Hneg|Hpos].
    + apply IH; [lia|lia|exact Hl|].
      intros i y Hi Hy.
      destruct (Nat.eq_dec i mid) as [->|Hne].
      * assert (y = x) by congruence. subst y. unfold cmp_le. lia.
      * apply (cmp_trans pivot x y); auto.
        -- eapply Hw, nth_error_In, Hy.
        -- unfold cmp_le. lia.
        -- apply (StronglySorted_nth _ _ Hs mid i); auto. lia.
    + apply IH; [lia|lia| |exact Hr].
      intros i y Hi Hy.
      assert (Hxp : cmp_le cmp x pivot) by now apply cmp_flip.
      destruct (Nat.eq_dec i mid) as [->|Hne].
      * assert (y = x) by congruence. now subst y.
      * apply (cmp_trans y x pivot); auto.
        -- eapply Hw, nth_error_In, Hy.
        -- apply (StronglySorted_nth _ _ Hs i mid); auto. lia.
  - assert (left = right) by lia. subst right. split; [exact Hl|exact Hr].
Qed.

Lemma binary_insert_sorted (work : list A) (pivot : A) :
  dom pivot -> Forall dom work -> StronglySorted (cmp_le cmp) work ->
  StronglySorted (cmp_le cmp) (binary_insert cmp work pivot).
Proof.
  intros Hp Hw Hs. unfold binary_insert.
  destruct (binary_search_spec pivot work Hp Hw Hs
              (S (List.length work)) 0 (List.length work))
    as [Hlow Hhigh]; [lia|lia|intros; lia| |].
  { intros i x Hi Hx.
    assert (i < List.length work)%nat by (apply nth_error_Some; congruence).
    lia. }
  set (k := binary_search cmp _ pivot work 0 _) in *.
  pose proof Hs as Hs'. rewrite <- (firstn_skipn k work) in Hs'.
  apply StronglySorted_app_inv in Hs' as (H1 & H2 & H12).
  assert (Hfirst : forall x, In x (firstn k work) -> cmp_le cmp x pivot).
  { intros x Hx. apply In_nth_error in Hx as [i Hi].
    rewrite nth_error_firstn in Hi.
    destruct (Nat.ltb_spec i k); [|discriminate]. now apply (Hlow i). }
  assert (Hlast : forall x, In x (skipn k work) -> cmp_le cmp pivot x).
  { intros x Hx. apply In_nth_error in Hx as [i Hi].
    rewrite nth_error_skipn in Hi. apply (Hhigh (k + i)%nat); [lia|exact Hi]. }
  apply StronglySorted_app_intro; [exact H1| |].
  - constructor; [exact H2|]. now apply Forall_forall.
  - intros x y Hx [<-|Hy]; [now apply Hfirst|now apply H12].
Qed.

Lemma fold_binary_insert_sorted (rest : list A) : forall run,
  Forall dom run -> Forall dom rest -> StronglySorted (cmp_le cmp) run ->
  StronglySorted (cmp_le cmp) (fold_left (binary_insert cmp) rest run).
Proof.
  induction rest as [|x rest IH]; intros run Hrun Hrest Hs; simpl.
  - exact Hs.
  - apply Forall_cons_iff in Hrest as [Hx Hrest].
    apply IH; [|exact Hrest|now apply binary_insert_sorted].
    eapply Permutation_Forall;
      [apply Permutation_sym, binary_insert_perm|].
    now constructor.
Qed.

Lemma array_sort_sorted (l : list A) :
  Forall dom l -> StronglySorted (cmp_le cmp) (array_sort cmp l).
Proof.
  intros Hl. unfold array_sort.
  pose proof (count_and_make_run_perm l) as Hperm.
  pose proof (count_and_make_run_sorted l Hl) as Hs.
  destruct (count_and_make_run cmp l) as [run rest]. simpl in *.
  assert (Hd : Forall dom (run ++ rest)).
  { eapply Permutation_Forall; [apply Permutation_sym, Hperm|exact Hl]. }
  apply Forall_app in Hd as [Hrun Hrest].
  now apply fold_binary_insert_sorted.
Qed.
End ArraySortFacts.

Lemma StronglySorted_impl {A} (R S : A -> A -> Prop) (l : list A) :
  (forall x y, In x l -> In y l -> R x y -> S x y) ->
  StronglySorted R l -> StronglySorted S l.
Proof.
  intros HRS H. induction H as [|a l H IH Ha]; constructor.
  - apply IH. intros x y Hx Hy. apply HRS; now right.
  - rewrite Forall_forall in *. intros y Hy.
    apply HRS; [now left | now right | now apply Ha].
Qed.

(** ** Maps in insertion order *)

Section JsMapFacts.
Context {V : Type}.
Implicit Types (m : JsMap V) (k : string) (v : V).

Lemma map_get_set_eq k v m : map_get k (map_set k v m) = Some v.
Proof.
  induction m as [|[k' v'] m IH]; simpl.
  - now rewrite String.eqb_refl.
  - destruct (String.eqb k' k) eqn:E; simpl; rewrite E; auto.
Qed.

Lemma map_get_set_neq k k' v m :
  k <> k' -> map_get k' (map_set k v m) = map_get k' m.
Proof.
  intros Hne. induction m as [|[k0 v0] m IH]; simpl.
  - apply String.eqb_neq in Hne. now rewrite Hne.
  - destruct (String.eqb k0 k) eqn:E; simpl.
    + apply String.eqb_eq in E. subst k0.
      apply String.eqb_neq in Hne. now rewrite Hne.
    + destruct (String.eqb k0 k'); auto.
Qed.

Lemma map_get_None_keys k m : map_get k m = None <-> ~ In k (map_keys m).
Proof.
  induction m as [|[k' v'] m IH]; simpl.
  - tauto.
  - destruct (String.eqb_spec k' k) as [->|Hne].
    + split; [discriminate | intros H; exfalso; apply H; now left].
    + rewrite IH. tauto.
Qed.

Lemma map_get_In k v m : map_get k m = Some v -> In (k, v) m.
Proof.
  induction m as [|[k' v'] m IH]; simpl; [discriminate|].
  destruct (String.eqb_spec k' k) as [->|Hne].
  - intros [= ->]. now left.
  - intros H. right. now apply IH.
Qed.

Lemma In_map_get k v m :
  NoDup (map_keys m) -> In (k, v) m -> map_get k m = Some v.
Proof.
  induction m as [|[k' v'] m IH]; simpl; [intros _ []|].
  intros Hnd [H|H].
  - injection H as -> ->. now rewrite String.eqb_refl.
  - apply NoDup_cons_iff in Hnd as [Hk' Hnd].
    destruct (String.eqb_spec k' k) as [->|Hne]; [|now apply IH].
    exfalso. apply Hk'. change k with (fst (k, v)). now apply in_map.
Qed.

Lemma map_set_fresh k v m :
  map_get k m = None -> map_set k v m = m ++ [(k, v)].
Proof.
  induction m as [|[k' v'] m IH]; simpl; [reflexivity|].
  destruct (String.eqb k' k); [discriminate|].
  intros H. now rewrite IH.
Qed.

Lemma map_keys_set_present k v v0 m :
  map_get k m = Some v0 -> map_keys (map_set k v m) = map_keys m.
Proof.
  induction m as [|[k' v'] m IH]; simpl; [discriminate|].
  destruct (String.eqb k' k) eqn:E; simpl; [reflexivity|].
  intros H. now rewrite IH.
Qed.

Lemma map_set_NoDup k v m :
  NoDup (map_keys m) -> NoDup (map_keys (map_set k v m)).
Proof.
  intros Hnd. destruct (map_get k m) as [v0|] eqn:E.
  - now rewrite (map_keys_set_present k v v0 m E).
  - rewrite map_set_fresh by exact E.
    unfold map_keys. rewrite map_app. simpl.
    apply NoDup_app; [exact Hnd | repeat constructor; intros [] |].
    intros x Hx [<-|[]]. now apply map_get_None_keys in E.
Qed.
Lemma insert_index_get n k v m k' :
  map_get k m = None ->
  map_get k' (insert_index n k v m)
  = if String.eqb k k' then Some v else map_get k' m.
Proof.
  induction m as [|[k0 v0] m IH]; simpl; intros Hk; [reflexivity|].
  destruct (String.eqb_spec k0 k) as [->|Hne]; [discriminate|].
  destruct (array_index k0) as [n'|]; [destruct (n <? n')|]; simpl;
    try reflexivity.
  rewrite (IH Hk).
  destruct (String.eqb_spec k0 k') as [->|Hne']; [|reflexivity].
  apply String.eqb_neq in Hne. rewrite String.eqb_sym in Hne.
  now rewrite Hne.
Qed.

Lemma insert_index_keys n k v m :
  Permutation (map_keys (insert_index n k v m)) (k :: map_keys m).
Proof.
  induction m as [|[k0 v0] m IH]; simpl; [apply Permutation_refl|].
  destruct (array_index k0) as [n'|]; [destruct (n <? n')|]; simpl;
    try apply Permutation_refl.
  eapply perm_trans; [apply perm_skip, IH|apply perm_swap].
Qed.

Lemma obj_set_proto v m : obj_set "__proto__" v m = m.
Proof. reflexivity. Qed.

Lemma obj_set_get_eq k v m :
  k <> "__proto__" -> map_get k (obj_set k v m) = Some v.
Proof.
  intros Hk. unfold obj_set. apply String.eqb_neq in Hk. rewrite Hk.
  destruct (map_get k m) eqn:E; [apply map_get_set_eq|].
  destruct (array_index k).
  - rewrite insert_index_get by exact E. now rewrite String.eqb_refl.
  - rewrite <- (map_set_fresh k v m E). apply map_get_set_eq.
Qed.

Lemma obj_set_get_neq k k' v m :
  k <> k' -> map_get k' (obj_set k v m) = map_get k' m.
Proof.
  intros Hne. unfold obj_set.
  destruct (String.eqb k "__proto__"); [reflexivity|].
  destruct (map_get k m) eqn:E; [now apply map_get_set_neq|].
  destruct (array_index k).
  - rewrite insert_index_get by exact E.
    apply String.eqb_neq in Hne. now rewrite Hne.
  - rewrite <- (map_set_fresh k v m E). now apply map_get_set_neq.
Qed.

Lemma obj_set_get_proto k v m :
  map_get "__proto__" (obj_set k v m) = map_get "__proto__" m.
Proof.
  destruct (String.eqb_spec k "__proto__") as [->|Hne]; [reflexivity|].
  now apply obj_set_get_neq.
Qed.

Lemma obj_set_NoDup k v m :
  NoDup (map_keys m) -> NoDup (map_keys (obj_set k v m)).
Proof.
  intros Hnd. unfold obj_set.
  destruct (String.eqb k "__proto__"); [exact Hnd|].
  destruct (map_get k m) as [v0|] eqn:E.
  - now rewrite (map_keys_set_present k v v0 m E).
  - destruct (array_index k).
    + eapply Permutation_NoDup;
        [apply Permutation_sym, insert_index_keys|].
      constructor; [|exact Hnd]. now apply map_get_None_keys.
    + rewrite <- (map_set_fresh k v m E). now apply map_set_NoDup.
Qed.
End JsMapFacts.

(** ** The two nested [forEach] loops visit the (participant, slot) pairs
    in order *)

Lemma fold_left_entries {S : Type}
    (step : string -> S -> AvailabilitySlot -> S)
    (responses : list ParticipantAvailability) (s : S) :
  fold_left (fun acc r => fold_left (step (id r)) (slots r) acc) responses s
  = fold_left (fun acc e => step (fst e) acc (snd e)) (entries responses) s.
Proof.
  revert s. induction responses as [|r rs IH]; intros s; simpl.
  - reflexivity.
  - rewrite fold_left_app, IH. f_equal.
    generalize (slots r). intros l. revert s.
    induction l as [|x l IHl]; intros s; simpl; auto.
Qed.

Lemma in_entries (responses : list ParticipantAvailability) p slot :
  In (p, slot) (entries responses) <->
  exists r, In r responses /\ id r = p /\ In slot (slots r).
Proof.
  unfold entries. rewrite in_flat_map. split.
  - intros (r & Hr & H). apply in_map_iff in H as (s & [= <- <-] & Hs).
    now exists r.
  - intros (r & Hr & <- & Hs). exists r. split; auto.
    apply in_map_iff. now exists slot.
Qed.

(** ** Events collected for one date *)

Lemma collect_slot_unfold p m slot :
  collect_slot p m slot =
  match slot_events p slot with
  | [] => m
  | evs => map_set (date slot) (get_events (date slot) m ++ evs) m
  end.
Proof.
  unfold collect_slot, slot_events, get_events.
  destruct (js_le _ _ || js_ge _ _); reflexivity.
Qed.

Lemma collect_slot_get d p m slot :
  get_events d (collect_slot p m slot) =
  get_events d m ++
    (if String.eqb (date slot) d then slot_events p slot else []).
Proof.
  rewrite collect_slot_unfold.
  destruct (slot_events p slot) as [|e evs] eqn:E.
  - destruct (String.eqb (date slot) d); now rewrite app_nil_r.
  - unfold get_events at 1.
    destruct (String.eqb_spec (date slot) d) as [<-|Hne].
    + now rewrite map_get_set_eq.
    + rewrite map_get_set_neq by exact Hne.
      fold (get_events d m). now rewrite app_nil_r.
Qed.

Lemma collect_slot_None d p m slot :
  map_get d (collect_slot p m slot) = None <->
  map_get d m = None /\
  (if String.eqb (date slot) d then slot_events p slot else []) = [].
Proof.
  rewrite collect_slot_unfold.
  destruct (slot_events p slot) as [|e evs] eqn:E.
  - destruct (String.eqb (date slot) d); tauto.
  - destruct (String.eqb_spec (date slot) d) as [<-|Hne].
    + rewrite map_get_set_eq.
      split; [discriminate | intros [_ H]; discriminate].
    + rewrite map_get_set_neq by exact Hne. tauto.
Qed.

Lemma collect_slot_NoDup p m slot :
  NoDup (map_keys m) -> NoDup (map_keys (collect_slot p m slot)).
Proof.
  rewrite collect_slot_unfold. destruct (slot_events p slot); auto.
  apply map_set_NoDup.
Qed.

Lemma collect_entries_get d es m :
  get_events d (collect_entries es m) = get_events d m ++ events_on d es.
Proof.
  revert m. induction es as [|[p slot] es IH]; intros m; simpl.
  - now rewrite app_nil_r.
  - unfold collect_entries in *. simpl. rewrite IH, collect_slot_get.
    simpl. now rewrite app_assoc.
Qed.

Lemma collect_entries_None d es m :
  map_get d (collect_entries es m) = None <->
  map_get d m = None /\ events_on d es = [].
Proof.
  revert m. induction es as [|[p slot] es IH]; intros m; simpl.
  - tauto.
  - unfold collect_entries in *. simpl. rewrite IH, collect_slot_None.
    simpl. split.
    + intros [[H1 H2] H3]. rewrite H2, H3. auto.
    + intros [H1 H2]. apply app_eq_nil in H2. tauto.
Qed.

Lemma collect_entries_NoDup es m :
  NoDup (map_keys m) -> NoDup (map_keys (collect_entries es m)).
Proof.
  revert m. induction es as [|[p slot] es IH]; intros m H; simpl; auto.
  apply IH. now apply collect_slot_NoDup.
Qed.

(** ** The result object *)

Lemma timeline_fold_get (f : list Event -> list TimelineSegment)
    (m : JsMap (list Event)) (d : string) : forall acc : TimelineByDate,
  NoDup (map_keys m) ->
  map_get d
    (fold_left (fun (timeline : TimelineByDate) (entry : string * list Event) =>
                  obj_set (fst entry) (f (snd entry)) timeline) m acc)
  = if String.eqb d "__proto__" then map_get d acc
    else match map_get d m with
         | Some evs => Some (f evs)
         | None => map_get d acc
         end.
Proof.
  induction m as [|[k evs] m IH]; intros acc Hnd; simpl.
  - now destruct (String.eqb d "__proto__").
  - simpl in Hnd. apply NoDup_cons_iff in Hnd as [Hfresh Hnd].
    rewrite (IH _ Hnd).
    destruct (String.eqb_spec d "__proto__") as [Ed|Hd].
    + rewrite Ed. apply obj_set_get_proto.
    + destruct (String.eqb_spec k d) as [->|Hne].
      * apply map_get_None_keys in Hfresh. rewrite Hfresh.
        now apply obj_set_get_eq.
      * destruct (map_get d m); [reflexivity|].
        now apply obj_set_get_neq.
Qed.

Lemma timeline_fold_NoDup (f : list Event -> list TimelineSegment)
    (m : JsMap (list Event)) : forall acc : TimelineByDate,
  NoDup (map_keys acc) ->
  NoDup (map_keys
    (fold_left (fun (timeline : TimelineByDate) (entry : string * list Event) =>
                  obj_set (fst entry) (f (snd entry)) timeline) m acc)).
Proof.
  induction m as [|[k evs] m IH]; intros acc Hnd; simpl; [exact Hnd|].
  apply IH. now apply obj_set_NoDup.
Qed.

Lemma buildTimeline_entries responses :
  buildTimeline responses =
  fold_left
    (fun (timeline : TimelineByDate) (entry : string * list Event) =>
       obj_set (fst entry) (date_segments (snd entry)) timeline)
    (collect_entries (entries responses) []) [].
Proof.
  unfold buildTimeline, collect_response.
  now rewrite (fold_left_entries collect_slot).
Qed.

(** Reading one date of the result: a date other than [__proto__] is
    present exactly when some slot on it passed the guard, and its
    segments are the sweep over the events of that date in input order. *)
Lemma buildTimeline_get (responses : list ParticipantAvailability) d :
  map_get d (buildTimeline responses) =
  if String.eqb d "__proto__" then None
  else match events_on d (entries responses) with
       | [] => None
       | evs => Some (date_segments evs)
       end.
Proof.
  rewrite buildTimeline_entries.
  set (es := entries responses).
  assert (Hnd : NoDup (map_keys
                 (collect_entries es (@nil (string * list Event))))).
  { apply collect_entries_NoDup. constructor. }
  rewrite timeline_fold_get by exact Hnd. simpl.
  destruct (String.eqb d "__proto__"); [reflexivity|].
  pose proof (collect_entries_get d es []) as Hg.
  pose proof (collect_entries_None d es []) as Hn.
  unfold get_events in Hg. simpl in Hg, Hn.
  destruct (map_get d (collect_entries es [])) as [l|]; simpl.
  - subst l. destruct (events_on d es) eqn:E; [|reflexivity].
    exfalso. assert (H : Some (@nil Event) = None) by (apply Hn; auto).
    discriminate.
  - destruct Hn as [Hn _]. destruct (Hn eq_refl) as [_ ->]. reflexivity.
Qed.

Lemma buildTimeline_NoDup responses :
  NoDup (map_keys (buildTimeline responses)).
Proof.
  rewrite buildTimeline_entries. apply timeline_fold_NoDup. constructor.
Qed.

(** ** The sweep, one event at a time *)

Lemma sweep_event_segments st e :
  segments (sweep_event st e) = segments st ++ emit st e.
Proof.
  unfold sweep_event, emit. simpl.
  destruct (_ && _); [|now rewrite app_nil_r].
  destruct (prevMinute st), (minutes e); try now rewrite app_nil_r.
  reflexivity.
Qed.


Lemma sweep_segments l st :
  segments (fold_left sweep_event l st) = segments st ++ emitted st l.
Proof.
  revert st. induction l as [|e l IH]; intros st; simpl.
  - now rewrite app_nil_r.
  - now rewrite IH, sweep_event_segments, app_assoc.
Qed.

Lemma date_segments_emitted evs :
  date_segments evs =
  emitted (sweep_init (array_sort compareEvents evs))
          (array_sort compareEvents evs).
Proof. unfold date_segments. now rewrite sweep_segments. Qed.

Lemma emit_inv st e seg :
  In seg (emit st e) ->
  exists p m, prevMinute st = Some p /\ minutes e = Some m /\ p < m /\
              active st <> [] /\
              seg = {| startMinutes := p; endMinutes := m;
                       participantIds := active st |}.
Proof.
  unfold emit. destruct (0 <? _) eqn:Ha; simpl; [|intros []].
  destruct (prevMinute st) as [p|], (minutes e) as [m|]; simpl;
    try (intros []).
  destruct (p <? m) eqn:Hp; simpl; [|intros []].
  intros [<-|[]]. exists p, m. apply Z.ltb_lt in Hp.
  repeat split; auto.
  intros E. rewrite E in Ha. discriminate.
Qed.

Lemma emit_intro st e p m :
  prevMinute st = Some p -> minutes e = Some m -> p < m ->
  active st <> [] ->
  emit st e = [ {| startMinutes := p; endMinutes := m;
                   participantIds := active st |} ].
Proof.
  intros Hp Hm Hlt Ha. unfold emit. rewrite Hp, Hm. simpl.
  apply Z.ltb_lt in Hlt. rewrite Hlt.
  destruct (active st); [contradiction|]. reflexivity.
Qed.

(** A segment of the result was emitted at some position of the sorted
    list, in the state reached after the events before it. *)
Lemma in_emitted st l seg :
  In seg (emitted st l) <->
  exists done e todo, l = done ++ e :: todo /\
                      In seg (emit (fold_left sweep_event done st) e).
Proof.
  revert st. induction l as [|x l IH]; intros st; simpl.
  - split; [intros [] | intros (done & e & todo & H & _)].
    now destruct done.
  - rewrite in_app_iff, IH. split.
    + intros [H|(done & e & todo & -> & H)].
      * now exists [], x, l.
      * now exists (x :: done), e, todo.
    + intros ([|y done] & e & todo & Heq & H); simpl in *.
      * injection Heq as <- <-. now left.
      * injection Heq as <- ->. right. now exists done, e, todo.
Qed.

Lemma emitted_ok st l : Forall segment_ok (emitted st l).
Proof.
  apply Forall_forall. intros seg H.
  apply in_emitted in H as (done & e & todo & _ & H).
  apply emit_inv in H as (p & m & _ & _ & Hlt & Ha & ->).
  split; simpl; auto.
Qed.

(** ** Order of events *)

Lemma compareEvents_le a b :
  finite_event a -> finite_event b ->
  (cmp_le compareEvents a b <-> ev_le a b).
Proof.
  unfold finite_event, cmp_le, cmp_value, compareEvents, ev_le, NaN.
  destruct (minutes a) as [x|], (minutes b) as [y|]; try congruence.
  intros _ _. simpl. destruct (Z.eqb_spec x y) as [->|Hne].
  - destruct (type a), (type b); simpl; split; intros H;
      try lia; try (right; split; auto; fail);
      destruct H as [H|[_ [H|H]]]; try lia; discriminate.
  - split; intros H; [left; lia | destruct H as [H|[H _]]; lia].
Qed.

Lemma ev_le_total a b :
  finite_event a -> finite_event b -> ev_le a b \/ ev_le b a.
Proof.
  unfold finite_event, ev_le, NaN.
  destruct (minutes a) as [x|], (minutes b) as [y|]; try congruence.
  intros _ _. destruct (Z.lt_total x y) as [H|[H|H]]; auto.
  subst y. destruct (type a), (type b); auto 6.
Qed.

Lemma ev_le_trans a b c : ev_le a b -> ev_le b c -> ev_le a c.
Proof.
  unfold ev_le.
  destruct (minutes a) as [x|], (minutes b) as [y|], (minutes c) as [z|];
    try tauto.
  intros [H1|[-> H1]] [H2|[-> H2]]; try (left; lia).
  right. split; auto.
  destruct H1 as [H1|H1], H2 as [H2|H2]; auto; congruence.
Qed.

Lemma ev_le_minutes a b x y :
  ev_le a b -> minutes a = Some x -> minutes b = Some y -> x <= y.
Proof.
  unfold ev_le. intros H Ha Hb. rewrite Ha, Hb in H.
  destruct H as [H|[H _]]; lia.
Qed.

Lemma ev_le_start_end a b x y :
  ev_le a b -> minutes a = Some x -> minutes b = Some y ->
  type a = EvStart -> type b = EvEnd -> x < y.
Proof.
  unfold ev_le. intros H Hx Hy Ha Hb. rewrite Hx, Hy in H.
  destruct H as [H|[_ [H|H]]]; [exact H | congruence | congruence].
Qed.

(** A comparison that yields 0 yields 0 in the other order too. *)
Lemma compareEvents_tie a b :
  cmp_le compareEvents a b -> 0 <= cmp_value compareEvents a b ->
  cmp_le compareEvents b a.
Proof.
  unfold cmp_le, cmp_value, compareEvents.
  destruct (minutes a) as [x|], (minutes b) as [y|]; simpl; try lia.
  rewrite (Z.eqb_sym y x).
  destruct (Z.eqb_spec x y) as [->|Hne]; [|lia].
  destruct (type a), (type b); simpl; lia.
Qed.

Lemma sortEvents_perm events : Permutation (sortEvents events) events.
Proof. apply array_sort_perm. Qed.

Lemma sortEvents_finite events :
  Forall finite_event events -> Forall finite_event (sortEvents events).
Proof.
  intros H. eapply Permutation_Forall; [|exact H].
  apply Permutation_sym, sortEvents_perm.
Qed.

Lemma sortEvents_sorted events :
  Forall finite_event events -> StronglySorted ev_le (sortEvents events).
Proof.
  intros Hfin.
  pose proof (sortEvents_finite events Hfin) as Hfin'.
  rewrite Forall_forall in Hfin'.
  apply StronglySorted_impl with (R := cmp_le compareEvents).
  - intros x y Hx Hy. apply compareEvents_le; auto.
  - apply array_sort_sorted with (dom := finite_event); auto.
    + intros a b Ha Hb Hpos.
      destruct (ev_le_total a b Ha Hb) as [H|H];
        [|now apply compareEvents_le].
      apply compareEvents_le in H; auto.
      now apply compareEvents_tie.
    + intros a b c Ha Hb Hc H1 H2.
      apply compareEvents_le; auto.
      apply compareEvents_le in H1, H2; auto.
      eapply ev_le_trans; eauto.
Qed.

(** ** The active set *)

Lemma set_has_In x s : set_has x s = true <-> In x s.
Proof.
  unfold set_has. rewrite existsb_exists. split.
  - intros (y & Hy & E). apply String.eqb_eq in E. now subst.
  - intros H. exists x. split; auto. apply String.eqb_refl.
Qed.

Lemma In_set_add p x s : In p (set_add x s) <-> p = x \/ In p s.
Proof.
  unfold set_add. destruct (set_has x s) eqn:E.
  - apply set_has_In in E. split; auto. intros [->|H]; auto.
  - rewrite in_app_iff. simpl. intuition.
Qed.

Lemma In_set_delete p x s : In p (set_delete x s) <-> p <> x /\ In p s.
Proof.
  unfold set_delete. rewrite filter_In, negb_true_iff, String.eqb_neq.
  intuition.
Qed.

Lemma In_active_step st e p :
  In p (active (sweep_event st e)) <->
  (participantId e = p /\ type e = EvStart) \/
  (participantId e <> p /\ In p (active st)).
Proof.
  unfold sweep_event; simpl. destruct (type e).
  - rewrite In_set_add.
    destruct (string_dec (participantId e) p) as [E|E]; intuition congruence.
  - rewrite In_set_delete. intuition congruence.
Qed.

Lemma last_event_exists p l :
  (exists y, In y l /\ participantId y = p) -> exists x, last_event_of p l x.
Proof.
  induction l as [|a l IH] using rev_ind; intros (y & Hy & Hp).
  - destruct Hy.
  - destruct (string_dec (participantId a) p) as [E|E].
    + exists a, l, []. repeat split; auto; intros ? [].
    + apply in_app_iff in Hy as [Hy|[->|[]]]; [|contradiction].
      destruct IH as (x & l1 & l2 & -> & Hx & Hl2); [now exists y|].
      exists x, l1, (l2 ++ [a]). rewrite <- app_assoc. simpl.
      repeat split; auto.
      intros z Hz. apply in_app_iff in Hz as [Hz|[<-|[]]]; auto.
Qed.

Lemma last_event_snoc p l a x :
  last_event_of p (l ++ [a]) x <->
  (participantId a = p /\ x = a) \/
  (participantId a <> p /\ last_event_of p l x).
Proof.
  split.
  - intros (l1 & l2 & Heq & Hx & Hl2).
    destruct l2 as [|b l2 _] using rev_ind.
    + apply app_inj_tail in Heq as [-> ->]. now left.
    + rewrite app_comm_cons, app_assoc in Heq.
      apply app_inj_tail in Heq as [-> ->]. right. split.
      * apply Hl2, in_app_iff. right. now left.
      * exists l1, l2. repeat split; auto.
        intros y Hy. apply Hl2, in_app_iff. now left.
  - intros [[Ha ->]|[Ha (l1 & l2 & -> & Hx & Hl2)]].
    + exists l, []. repeat split; auto; intros ? [].
    + exists l1, (l2 ++ [a]). rewrite <- app_assoc. simpl.
      repeat split; auto.
      intros y Hy. apply in_app_iff in Hy as [Hy|[<-|[]]]; auto.
Qed.

(** A participant is in the active set exactly when the last event seen
    for that participant is a start event: starts and ends are idempotent
    on a set. *)
Lemma active_last_event done st p :
  active st = [] ->
  (In p (active (fold_left sweep_event done st)) <->
   exists x, last_event_of p done x /\ type x = EvStart).
Proof.
  intros Hst. induction done as [|a done IH] using rev_ind.
  - simpl. rewrite Hst. split; [intros [] | intros (x & (l1 & l2 & H & _) & _)].
    now destruct l1.
  - rewrite fold_left_app. cbn [fold_left]. rewrite In_active_step, IH. split.
    + intros [[Ha Ht]|[Ha (x & Hx & Ht)]].
      * exists a. split; auto. apply last_event_snoc. now left.
      * exists x. split; auto. apply last_event_snoc. now right.
    + intros (x & Hx & Ht). apply last_event_snoc in Hx as [[Ha ->]|[Ha Hx]].
      * now left.
      * right. split; auto. now exists x.
Qed.

Lemma set_add_NoDup x s : NoDup s -> NoDup (set_add x s).
Proof.
  intros H. unfold set_add. destruct (set_has x s) eqn:E; [exact H|].
  apply NoDup_app; [exact H | repeat constructor; intros [] |].
  intros y Hy [<-|[]]. apply set_has_In in Hy. congruence.
Qed.

Lemma set_delete_NoDup x s : NoDup s -> NoDup (set_delete x s).
Proof. apply NoDup_filter. Qed.

Lemma active_NoDup l : forall st,
  NoDup (active st) -> NoDup (active (fold_left sweep_event l st)).
Proof.
  induction l as [|e l IH]; intros st H; simpl; [exact H|].
  apply IH. unfold sweep_event; simpl.
  destruct (type e); [now apply set_add_NoDup | now apply set_delete_NoDup].
Qed.

Lemma prevMinute_after done a st :
  prevMinute (fold_left sweep_event (done ++ [a]) st) = minutes a.
Proof. rewrite fold_left_app. reflexivity. Qed.

(** ** Intervals and what the sweep computes from them *)

Lemma separated_compatible ivs : separated ivs -> compatible ivs.
Proof.
  intros H a b Ha Hb Hp. destruct (H a b Ha Hb Hp) as [?|[?|?]]; auto.
  - right. left. lia.
  - right. right. lia.
Qed.

Lemma interval_events_finite ivs : Forall finite_event (interval_events ivs).
Proof.
  apply Forall_forall. intros x Hx.
  apply in_flat_map in Hx as (iv & _ & [<-|[<-|[]]]); discriminate.
Qed.

Section SweepSemantics.
Variable ivs : list Interval.
Hypothesis ivs_valid : forall iv, In iv ivs -> iv_start iv < iv_end iv.

Local Abbreviation sorted := (sortEvents (interval_events ivs)).
Local Abbreviation init := (sweep_init (sortEvents (interval_events ivs))).

Lemma in_sorted x :
  In x sorted <->
  exists iv, In iv ivs /\ (x = start_event iv \/ x = end_event iv).
Proof.
  unfold sortEvents. rewrite array_sort_In.
  unfold interval_events. rewrite in_flat_map. simpl.
  split; intros (iv & Hiv & H); exists iv; intuition.
Qed.

Lemma sorted_strongly : StronglySorted ev_le sorted.
Proof. apply sortEvents_sorted, interval_events_finite. Qed.

Lemma start_before_end done1 x done2 todo iv :
  sorted = (done1 ++ x :: done2) ++ todo ->
  In iv ivs -> x = start_event iv ->
  (forall y, In y done2 -> participantId y <> iv_pid iv) ->
  In (end_event iv) todo.
Proof.
  intros Hs Hiv -> Hd2.
  assert (Hin : In (end_event iv) sorted).
  { apply in_sorted. exists iv. auto. }
  pose proof sorted_strongly as Hss. rewrite Hs in Hin, Hss.
  apply in_app_iff in Hin as [Hin|Hin]; [exfalso|exact Hin].
  apply StronglySorted_app_inv in Hss as (Hss & _ & _).
  apply StronglySorted_app_inv in Hss as (_ & _ & Hss).
  apply in_app_iff in Hin as [Hin|[Hin|Hin]].
  - specialize (Hss _ _ Hin (or_introl eq_refl)).
    pose proof (ev_le_minutes _ _ _ _ Hss eq_refl eq_refl) as Hle.
    specialize (ivs_valid iv Hiv). lia.
  - discriminate.
  - now apply (Hd2 _ Hin).
Qed.

(** At a cut the active set is included in the participants with an
    interval covering [t]. *)
Lemma active_at_cut_sound t done todo p :
  cut_at ivs t done todo ->
  In p (active (fold_left sweep_event done init)) ->
  exists iv, In iv ivs /\ iv_pid iv = p /\ covers iv t.
Proof.
  intros (Hs & Hdone & Htodo) Hp.
  apply active_last_event in Hp as (x & (l1 & l2 & Hd & Hxp & Hl2) & Hxt);
    [|reflexivity].
  assert (Hx : In x sorted).
  { rewrite Hs, Hd. apply in_app_iff. left. apply in_app_iff. right. now left. }
  apply in_sorted in Hx as (iv & Hiv & [Hx|Hx]);
    [|rewrite Hx in Hxt; discriminate].
  assert (Hpid : iv_pid iv = p) by (rewrite Hx in Hxp; exact Hxp).
  exists iv. repeat split; auto.
  - destruct (Hdone x) as (mx & Hmx & Hle).
    { rewrite Hd. apply in_app_iff. right. now left. }
    rewrite Hx in Hmx. injection Hmx as <-. exact Hle.
  - rewrite Hd in Hs.
    pose proof (start_before_end l1 x l2 todo iv Hs Hiv Hx) as He.
    destruct (Htodo (end_event iv)) as (my & Hmy & Hlt).
    { apply He. intros y Hy. rewrite Hpid. now apply Hl2. }
    injection Hmy as <-. exact Hlt.
Qed.

(** With compatible intervals the active set at a cut is exactly the set
    of participants with an interval covering [t]. *)
Lemma active_at_cut_complete t done todo iv :
  compatible ivs ->
  cut_at ivs t done todo ->
  In iv ivs -> covers iv t ->
  In (iv_pid iv) (active (fold_left sweep_event done init)).
Proof.
  intros Hcompat (Hs & Hdone & Htodo) Hiv [Hlo Hhi].
  assert (Hst : In (start_event iv) done).
  { assert (H : In (start_event iv) sorted) by (apply in_sorted; eauto).
    rewrite Hs in H. apply in_app_iff in H as [H|H]; [exact H|].
    destruct (Htodo _ H) as (my & Hmy & Hlt). injection Hmy as <-. lia. }
  destruct (last_event_exists (iv_pid iv) done) as (x & Hx).
  { now exists (start_event iv). }
  apply active_last_event; [reflexivity|].
  exists x. split; [exact Hx|].
  destruct (type x) eqn:Hxt; [reflexivity|exfalso].
  destruct Hx as (l1 & l2 & Hd & Hxp & Hl2).
  assert (Hxs : In x sorted).
  { rewrite Hs, Hd. apply in_app_iff. left. apply in_app_iff. right. now left. }
  apply in_sorted in Hxs as (iv' & Hiv' & [Hx|Hx]);
    [rewrite Hx in Hxt; discriminate|].
  assert (Hpid : iv_pid iv' = iv_pid iv) by (rewrite Hx in Hxp; exact Hxp).
  destruct (Hdone x) as (mx & Hmx & Hle).
  { rewrite Hd. apply in_app_iff. right. now left. }
  rewrite Hx in Hmx. injection Hmx as <-.
  assert (Hlt : iv_start iv < iv_end iv').
  { rewrite Hd in Hst. apply in_app_iff in Hst as [Hst|[Hst|Hst]].
    - pose proof sorted_strongly as Hss. rewrite Hs, Hd in Hss.
      apply StronglySorted_app_inv in Hss as (Hss & _ & _).
      apply StronglySorted_app_inv in Hss as (_ & _ & Hss).
      specialize (Hss _ _ Hst (or_introl eq_refl)).
      rewrite Hx in Hss.
      apply (ev_le_start_end _ _ _ _ Hss eq_refl eq_refl eq_refl eq_refl).
    - rewrite Hx in Hst. discriminate.
    - exfalso. now apply (Hl2 _ Hst). }
  pose proof (ivs_valid iv' Hiv').
  destruct (Hcompat iv iv' Hiv Hiv' (eq_sym Hpid)) as [[? ?]|[?|?]]; lia.
Qed.
End SweepSemantics.

(** ** Segments come out in order *)

Lemma ev_le_inv a b :
  ev_le a b ->
  exists x y, minutes a = Some x /\ minutes b = Some y /\ x <= y.
Proof.
  unfold ev_le. destruct (minutes a) as [x|], (minutes b) as [y|]; try tauto.
  intros H. exists x, y. repeat split; auto. destruct H as [H|[H _]]; lia.
Qed.




Lemma date_segments_ok evs : Forall segment_ok (date_segments evs).
Proof. rewrite date_segments_emitted. apply emitted_ok. Qed.

(** No participant is listed twice on a segment. *)
Lemma date_segments_NoDup evs :
  Forall (fun seg => NoDup (participantIds seg)) (date_segments evs).
Proof.
  rewrite date_segments_emitted. apply Forall_forall. intros seg H.
  apply in_emitted in H as (done & e & todo & _ & H).
  apply emit_inv in H as (p & m & _ & _ & _ & _ & ->). simpl.
  apply active_NoDup. constructor.
Qed.

(** ** Segments against intervals *)

Lemma adjacent_pair (t : Z) (l2 : list Event) :
  Forall finite_event l2 ->
  forall l1 a ma,
    minutes a = Some ma -> ma <= t ->
    (exists b mb, In b l2 /\ minutes b = Some mb /\ t < mb) ->
    exists d z e todo mz me,
      l1 ++ a :: l2 = (d ++ [z]) ++ e :: todo /\
      minutes z = Some mz /\ mz <= t /\ minutes e = Some me /\ t < me.
Proof.
  induction 1 as [|c l2 Hc Hl2 IH];
    intros l1 a ma Ha Hle (b & mb & Hb & Hmb & Hlt).
  - destruct Hb.
  - unfold finite_event, NaN in Hc.
    destruct (minutes c) as [mc|] eqn:Hmc; [|congruence].
    destruct (Z_lt_le_dec t mc) as [Hgt|Hle'].
    + exists l1, a, c, l2, ma, mc. repeat split; auto.
      now rewrite <- app_assoc.
    + destruct (IH (l1 ++ [a]) c mc Hmc Hle')
        as (d & z & e & todo & mz & me & Heq & H').
      { exists b, mb. repeat split; auto.
        destruct Hb as [<-|Hb]; [|exact Hb].
        rewrite Hmc in Hmb. injection Hmb as <-. lia. }
      exists d, z, e, todo, mz, me. split; [|exact H'].
      rewrite <- Heq, <- app_assoc. reflexivity.
Qed.

Section SegmentSemantics.
Variable ivs : list Interval.
Hypothesis ivs_valid : forall iv, In iv ivs -> iv_start iv < iv_end iv.

Local Abbreviation sorted := (sortEvents (interval_events ivs)).
Local Abbreviation init := (sweep_init (sortEvents (interval_events ivs))).
Local Abbreviation segs := (date_segments (interval_events ivs)).

Lemma cut_of_split d z e todo mz me t :
  sorted = (d ++ [z]) ++ e :: todo ->
  minutes z = Some mz -> minutes e = Some me -> mz <= t < me ->
  cut_at ivs t (d ++ [z]) (e :: todo).
Proof.
  intros Hs Hz He Ht.
  pose proof (sorted_strongly ivs) as Hss. rewrite Hs in Hss.
  apply StronglySorted_app_inv in Hss as (Hd & Htodo & _).
  apply StronglySorted_app_inv in Hd as (_ & _ & Hd).
  apply StronglySorted_inv in Htodo as [_ Htodo].
  rewrite Forall_forall in Htodo.
  split; [exact Hs|split].
  - intros x Hx. apply in_app_iff in Hx as [Hx|[<-|[]]].
    + specialize (Hd x z Hx (or_introl eq_refl)).
      apply ev_le_inv in Hd as (mx & my & Hmx & Hmy & Hle).
      exists mx. split; auto. assert (my = mz) by congruence. lia.
    + exists mz. split; auto. lia.
  - intros y [<-|Hy].
    + exists me. split; auto. lia.
    + apply Htodo, ev_le_inv in Hy as (mx & my & Hmx & Hmy & Hle).
      exists my. split; auto. assert (mx = me) by congruence. lia.
Qed.

(** Every segment of the result was emitted at a cut. *)
Lemma segment_cut seg :
  In seg segs ->
  exists done e todo,
    In e sorted /\ minutes e = Some (endMinutes seg) /\
    participantIds seg = active (fold_left sweep_event done init) /\
    forall t, startMinutes seg <= t < endMinutes seg ->
              cut_at ivs t done (e :: todo).
Proof.
  rewrite date_segments_emitted. intros H.
  apply in_emitted in H as (done & e & todo & Hs & H).
  apply emit_inv in H as (p & m & Hp & Hm & Hlt & Ha & ->).
  destruct done as [|z d _] using rev_ind; [now elim Ha|].
  rewrite prevMinute_after in Hp.
  exists (d ++ [z]), e, todo. simpl.
  split; [|split; [exact Hm|split; [reflexivity|]]].
  - unfold sortEvents. rewrite Hs. apply in_app_iff. right. now left.
  - intros t Ht. now apply (cut_of_split d z e todo p m).
Qed.

(** A participant listed on a segment has an interval covering every
    minute of the segment. *)
Lemma segment_sound seg p t :
  In seg segs -> In p (participantIds seg) ->
  startMinutes seg <= t < endMinutes seg ->
  exists iv, In iv ivs /\ iv_pid iv = p /\ covers iv t.
Proof.
  intros Hseg Hp Ht.
  destruct (segment_cut seg Hseg) as (done & e & todo & _ & _ & Ha & Hcut).
  rewrite Ha in Hp.
  eapply active_at_cut_sound; eauto.
Qed.


(** No covered minute is lost when intervals are compatible. *)
Lemma segments_cover iv t :
  compatible ivs -> In iv ivs -> covers iv t ->
  exists seg, In seg segs /\ startMinutes seg <= t < endMinutes seg.
Proof.
  intros Hc Hiv Hcov.
  assert (Hst : In (start_event iv) sorted) by (apply in_sorted; eauto).
  apply in_split in Hst as (l1 & l2 & Hs).
  assert (Hend : In (end_event iv) l2).
  { apply (start_before_end ivs ivs_valid l1 (start_event iv) [] l2 iv);
      [ rewrite Hs, <- app_assoc; reflexivity | exact Hiv | reflexivity
      | intros y [] ]. }
  assert (Hfin : Forall finite_event l2).
  { pose proof (sortEvents_finite _ (interval_events_finite ivs)) as H.
    rewrite Hs in H. apply Forall_app in H as [_ H].
    now apply Forall_cons_iff in H as [_ H]. }
  destruct (adjacent_pair t l2 Hfin l1 (start_event iv) (iv_start iv))
    as (d & z & e & todo & mz & me & Heq & Hz & Hle & He & Hlt).
  { reflexivity. }
  { apply Hcov. }
  { exists (end_event iv), (iv_end iv). repeat split; auto. apply Hcov. }
  rewrite <- Hs in Heq.
  assert (Hcut : cut_at ivs t (d ++ [z]) (e :: todo)).
  { apply (cut_of_split d z e todo mz me); auto. }
  pose proof (active_at_cut_complete ivs ivs_valid t _ _ iv Hc Hcut Hiv Hcov)
    as Hact.
  exists {| startMinutes := mz; endMinutes := me;
            participantIds := active (fold_left sweep_event (d ++ [z]) init) |}.
  split; [|simpl; lia].
  rewrite date_segments_emitted. apply in_emitted.
  exists (d ++ [z]), e, todo. split; [exact Heq|].
  rewrite (emit_intro _ e mz me);
    [ now left | now rewrite prevMinute_after | exact He | lia | ].
  intros E. unfold sortEvents in Hact. rewrite E in Hact. destruct Hact.
Qed.

End SegmentSemantics.

(** ** Clock times written as integers *)

Lemma digit_value_nonneg c d : digit_value c = Some d -> 0 <= d.
Proof.
  unfold digit_value.
  destruct (48 <=? Z.of_N (N_of_ascii c)) eqn:E; simpl; [|discriminate].
  destruct (_ <=? 57); [|discriminate].
  intros [= <-]. apply Z.leb_le in E. lia.
Qed.

Lemma digits_value_nonneg s : forall acc z,
  0 <= acc -> digits_value acc s = Some z -> 0 <= z.
Proof.
  induction s as [|c s IH]; simpl; intros acc z Hacc H.
  - injection H as <-. exact Hacc.
  - destruct (digit_value c) as [d|] eqn:E; [|discriminate].
    apply digit_value_nonneg in E. apply (IH (10 * acc + d)); auto. lia.
Qed.

Lemma all_digits_value s : forall acc,
  all_digits s = true -> exists v, digits_value acc s = Some v.
Proof.
  induction s as [|c s IH]; simpl; intros acc H; [now exists acc|].
  apply andb_true_iff in H as [Hc Hs]. unfold is_digit in Hc.
  destruct (digit_value c) as [d|]; [|discriminate]. now apply IH.
Qed.

Lemma digit_not_white c : is_digit c = true -> is_white_space c = false.
Proof.
  destruct c as [[] [] [] [] [] [] [] []]; try discriminate; reflexivity.
Qed.

Lemma all_digits_trim_end s : all_digits s = true -> trim_end s = s.
Proof.
  induction s as [|c s IH]; simpl; [reflexivity|].
  intros H. apply andb_true_iff in H as [Hc Hs]. rewrite (IH Hs).
  destruct s; [|reflexivity]. now rewrite (digit_not_white c Hc).
Qed.

Lemma digit_literal_trim s :
  digit_literal s = true -> trim_end (trim_start s) = s.
Proof.
  destruct s as [|c s]; [discriminate|]. intros H.
  assert (Hc : is_digit c = true).
  { simpl in H. now apply andb_true_iff in H as [H _]. }
  cbn [trim_start]. rewrite (digit_not_white c Hc).
  now apply all_digits_trim_end.
Qed.

Lemma digit_literal_value s :
  digit_literal s = true -> exists v, Number s = Some v /\ 0 <= v.
Proof.
  intros H. unfold Number. rewrite (digit_literal_trim s H).
  destruct s as [|c s]; [discriminate|].
  destruct (all_digits_value (String c s) 0 H) as [v Hv].
  exists v. split; [|now apply (digits_value_nonneg _ 0 v) in Hv].
  assert (Hc : is_digit c = true).
  { simpl in H. now apply andb_true_iff in H as [H _]. }
  destruct c as [[] [] [] [] [] [] [] []]; try discriminate Hc; exact Hv.
Qed.




Lemma toMinutes_parts time hours minutes rest :
  split ":" time = hours :: minutes :: rest ->
  toMinutes time = js_add (js_mul (Number hours) (Some 60)) (Number minutes).
Proof. unfold toMinutes. now intros ->. Qed.

Lemma digit_time_value time :
  digit_time time = true -> exists v, toMinutes time = Some v /\ 0 <= v.
Proof.
  unfold digit_time, time_parts.
  destruct (split ":" time) as [|hours [|minutes rest]] eqn:E;
    try discriminate.
  intros H. apply andb_true_iff in H as [Hh Hm].
  destruct (digit_literal_value hours Hh) as (h & Eh & Hh0).
  destruct (digit_literal_value minutes Hm) as (m & Em & Hm0).
  rewrite (toMinutes_parts time hours minutes rest E), Eh, Em.
  exists (h * 60 + m). split; [reflexivity|lia].
Qed.







Lemma digit_timesb_sound responses :
  digit_timesb responses = true -> digit_times responses.
Proof.
  unfold digit_timesb, digit_times. rewrite forallb_forall.
  intros H r slot Hr Hs. specialize (H r Hr).
  rewrite forallb_forall in H. now apply andb_true_iff, H.
Qed.


(** ** From slots to intervals *)

Lemma slot_events_intervals p slot :
  digit_time (startTime slot) = true -> digit_time (endTime slot) = true ->
  slot_events p slot = interval_events (slot_intervals p slot).
Proof.
  intros Hs He.
  destruct (digit_time_value _ Hs) as (s & Es & Hs0).
  destruct (digit_time_value _ He) as (e & Ee & _).
  unfold slot_events, slot_intervals, slot_range. rewrite Es, Ee.
  change minutesInDay with (Some 1440). simpl.
  destruct (Z.leb_spec e s), (Z.ltb_spec s e); try lia; simpl; auto.
  destruct (Z.leb_spec 1440 s), (Z.ltb_spec s 1440); try lia; simpl; auto.
  unfold start_event, end_event. simpl. now rewrite Z.max_r.
Qed.

Lemma events_on_intervals d es :
  (forall p slot, In (p, slot) es ->
     digit_time (startTime slot) = true /\
     digit_time (endTime slot) = true) ->
  events_on d es = interval_events (intervals_on d es).
Proof.
  induction es as [|[p slot] es IH]; intros H; simpl; [reflexivity|].
  unfold interval_events in *. rewrite flat_map_app, <- IH.
  - f_equal. destruct (String.eqb (date slot) d); [|reflexivity].
    destruct (H p slot (or_introl eq_refl)).
    now apply slot_events_intervals.
  - intros q s Hq. apply (H q). now right.
Qed.

Lemma in_intervals_on d es iv :
  In iv (intervals_on d es) <->
  exists slot, In (iv_pid iv, slot) es /\ date slot = d /\
               slot_range slot = Some (iv_start iv, iv_end iv).
Proof.
  unfold intervals_on. rewrite in_flat_map. split.
  - intros ([p slot] & He & H). simpl in H.
    destruct (String.eqb_spec (date slot) d) as [Hd|]; [|destruct H].
    unfold slot_intervals in H.
    destruct (slot_range slot) as [[s e]|] eqn:Er; [|destruct H].
    destruct H as [<-|[]]. simpl. now exists slot.
  - intros (slot & He & Hd & Hr). exists (iv_pid iv, slot). split; auto.
    simpl. apply String.eqb_eq in Hd. rewrite Hd.
    unfold slot_intervals. rewrite Hr. left. now destruct iv.
Qed.

Lemma slot_range_valid slot s e : slot_range slot = Some (s, e) -> s < e.
Proof.
  unfold slot_range.
  destruct (toMinutes (startTime slot)) as [s'|]; [|discriminate].
  destruct (toMinutes (endTime slot)) as [e'|]; [|discriminate].
  destruct (Z.ltb_spec s' e'); simpl; [|discriminate].
  destruct (Z.ltb_spec s' 1440); simpl; [|discriminate].
  intros [= <- <-]. lia.
Qed.

Lemma intervals_on_valid d es iv :
  In iv (intervals_on d es) -> iv_start iv < iv_end iv.
Proof.
  intros H. apply in_intervals_on in H as (slot & _ & _ & H).
  now apply slot_range_valid in H.
Qed.

(** ** Reading the timeline *)

Lemma timeline_segments_proto responses :
  timeline_segments responses "__proto__" = [].
Proof. unfold timeline_segments. now rewrite buildTimeline_get. Qed.

Lemma timeline_segments_events responses d :
  d <> "__proto__" ->
  timeline_segments responses d
  = date_segments (events_on d (entries responses)).
Proof.
  intros Hd. unfold timeline_segments. rewrite buildTimeline_get.
  apply String.eqb_neq in Hd. rewrite Hd.
  now destruct (events_on d (entries responses)).
Qed.

(** The segments stored for a date are the sweep over its events, or
    none for the date [__proto__]. *)
Lemma timeline_segments_cases responses d :
  timeline_segments responses d
    = date_segments (events_on d (entries responses)) \/
  timeline_segments responses d = [].
Proof.
  destruct (String.eqb_spec d "__proto__") as [->|Hd].
  - right. apply timeline_segments_proto.
  - left. now apply timeline_segments_events.
Qed.

Lemma timeline_segments_In responses d seg :
  In seg (timeline_segments responses d) ->
  d <> "__proto__" /\ In seg (date_segments (events_on d (entries responses))).
Proof.
  destruct (String.eqb_spec d "__proto__") as [->|Hd].
  - rewrite timeline_segments_proto. intros [].
  - rewrite timeline_segments_events by exact Hd. auto.
Qed.

Lemma timeline_segments_Forall responses d (P : TimelineSegment -> Prop) :
  Forall P (date_segments (events_on d (entries responses))) ->
  Forall P (timeline_segments responses d).
Proof.
  destruct (timeline_segments_cases responses d) as [-> | ->]; auto.
Qed.



Lemma digit_entries responses :
  digit_times responses ->
  forall p slot, In (p, slot) (entries responses) ->
    digit_time (startTime slot) = true /\ digit_time (endTime slot) = true.
Proof.
  intros H p slot Hin. apply in_entries in Hin as (r & Hr & _ & Hs).
  now apply (H r).
Qed.

Lemma events_on_digit responses d :
  digit_times responses ->
  events_on d (entries responses)
  = interval_events (intervals_on d (entries responses)).
Proof. intros H. apply events_on_intervals, digit_entries, H. Qed.

Lemma timeline_segments_intervals responses d :
  digit_times responses -> d <> "__proto__" ->
  timeline_segments responses d
  = date_segments (interval_events (intervals_on d (entries responses))).
Proof.
  intros H Hd. rewrite timeline_segments_events by exact Hd.
  now rewrite (events_on_digit responses d H).
Qed.

Lemma timeline_segments_intervals_In responses d seg :
  digit_times responses ->
  In seg (timeline_segments responses d) ->
  d <> "__proto__" /\
  In seg (date_segments (interval_events (intervals_on d (entries responses)))).
Proof.
  intros H Hseg. apply timeline_segments_In in Hseg as [Hd Hseg].
  split; [exact Hd|]. now rewrite <- (events_on_digit responses d H).
Qed.

(** ** Input conditions and their checkers *)

Lemma numeric_timesb_sound responses :
  numeric_timesb responses = true -> numeric_times responses.
Proof.
  unfold numeric_timesb, numeric_times, numeric_slot, NaN.
  rewrite forallb_forall. intros H r slot Hr Hs.
  specialize (H r Hr). rewrite forallb_forall in H. specialize (H slot Hs).
  apply andb_true_iff in H as [H1 H2].
  destruct (toMinutes (startTime slot)), (toMinutes (endTime slot));
    try discriminate; split; discriminate.
Qed.

Lemma pairwise_ok_compatible ivs :
  pairwise_ok false ivs = true -> compatible ivs.
Proof.
  unfold pairwise_ok. rewrite forallb_forall. intros H a b Ha Hb Hp.
  specialize (H a Ha). rewrite forallb_forall in H. specialize (H b Hb).
  unfold pair_ok in H. apply String.eqb_eq in Hp. rewrite Hp in H. simpl in H.
  repeat (apply orb_true_iff in H as [H|H]).
  - apply andb_true_iff in H as [H1 H2]. left. split; lia.
  - right. left. lia.
  - right. right. lia.
Qed.

Lemma pairwise_ok_separated ivs :
  pairwise_ok true ivs = true -> separated ivs.
Proof.
  unfold pairwise_ok. rewrite forallb_forall. intros H a b Ha Hb Hp.
  specialize (H a Ha). rewrite forallb_forall in H. specialize (H b Hb).
  unfold pair_ok in H. apply String.eqb_eq in Hp. rewrite Hp in H. simpl in H.
  repeat (apply orb_true_iff in H as [H|H]).
  - apply andb_true_iff in H as [H1 H2]. left. split; lia.
  - right. left. lia.
  - right. right. lia.
Qed.

Lemma in_intervals_on_entries responses d iv :
  In iv (intervals_on d (entries responses)) <->
  exists r slot, In r responses /\ id r = iv_pid iv /\ In slot (slots r) /\
                 date slot = d /\
                 slot_range slot = Some (iv_start iv, iv_end iv).
Proof.
  rewrite in_intervals_on. split.
  - intros (slot & He & Hd & Hr).
    apply in_entries in He as (r & Hin & Hid & Hs). now exists r, slot.
  - intros (r & slot & Hin & Hid & Hs & Hd & Hr). exists slot.
    repeat split; auto. apply in_entries. now exists r.
Qed.

Lemma no_self_overlap_compatible responses d :
  no_self_overlap responses d <->
  compatible (intervals_on d (entries responses)).
Proof.
  split.
  - intros H a b Ha Hb Hp.
    apply in_intervals_on_entries in Ha as (r1 & s1 & ? & ? & ? & ? & ?).
    apply in_intervals_on_entries in Hb as (r2 & s2 & ? & ? & ? & ? & ?).
    eapply (H r1 r2 s1 s2); eauto. congruence.
  - intros H r1 r2 slot1 slot2 s1 e1 s2 e2 Hr1 Hr2 Hid H1 H2 Hd1 Hd2 Hs1 Hs2.
    apply (H {| iv_start := s1; iv_end := e1; iv_pid := id r1 |}
             {| iv_start := s2; iv_end := e2; iv_pid := id r2 |});
      [ apply in_intervals_on_entries; now exists r1, slot1
      | apply in_intervals_on_entries; now exists r2, slot2
      | exact Hid ].
Qed.

Lemma no_self_touch_separated responses d :
  no_self_touch responses d <->
  separated (intervals_on d (entries responses)).
Proof.
  split.
  - intros H a b Ha Hb Hp.
    apply in_intervals_on_entries in Ha as (r1 & s1 & ? & ? & ? & ? & ?).
    apply in_intervals_on_entries in Hb as (r2 & s2 & ? & ? & ? & ? & ?).
    eapply (H r1 r2 s1 s2); eauto. congruence.
  - intros H r1 r2 slot1 slot2 s1 e1 s2 e2 Hr1 Hr2 Hid H1 H2 Hd1 Hd2 Hs1 Hs2.
    apply (H {| iv_start := s1; iv_end := e1; iv_pid := id r1 |}
             {| iv_start := s2; iv_end := e2; iv_pid := id r2 |});
      [ apply in_intervals_on_entries; now exists r1, slot1
      | apply in_intervals_on_entries; now exists r2, slot2
      | exact Hid ].
Qed.

Lemma no_self_overlapb_sound responses d :
  no_self_overlapb responses d = true -> no_self_overlap responses d.
Proof.
  intros H. apply no_self_overlap_compatible, pairwise_ok_compatible, H.
Qed.

Lemma no_self_touchb_sound responses d :
  no_self_touchb responses d = true -> no_self_touch responses d.
Proof.
  intros H. apply no_self_touch_separated, pairwise_ok_separated, H.
Qed.

Lemma available_intervals responses d p t :
  available responses d p t <->
  exists iv, In iv (intervals_on d (entries responses)) /\
             iv_pid iv = p /\ covers iv t.
Proof.
  split.
  - intros (r & slot & s & e & Hr & Hid & Hs & Hd & Hrange & Ht).
    exists {| iv_start := s; iv_end := e; iv_pid := p |}.
    repeat split; try apply Ht.
    apply in_intervals_on_entries. now exists r, slot.
  - intros (iv & Hiv & Hp & Ht).
    apply in_intervals_on_entries in Hiv
      as (r & slot & Hr & Hid & Hs & Hd & Hrange).
    exists r, slot, (iv_start iv), (iv_end iv). repeat split; auto.
    + congruence.
    + apply Ht.
    + apply Ht.
Qed.

(** ** Partition into runs *)

Lemma timeline_present responses d :
  digit_times responses -> d <> "__proto__" -> has_valid_slot responses d ->
  map_get d (buildTimeline responses) = Some (timeline_segments responses d).
Proof.
  intros Hnum Hd (r & slot & Hr & Hs & Hdate & Hrange).
  unfold timeline_segments.
  destruct (map_get d (buildTimeline responses)) as [segs|] eqn:E;
    [reflexivity|].
  exfalso. rewrite buildTimeline_get in E.
  apply String.eqb_neq in Hd. rewrite Hd in E.
  rewrite (events_on_digit responses d Hnum) in E.
  destruct (slot_range slot) as [[s e]|] eqn:Er; [|congruence].
  assert (Hiv : In {| iv_start := s; iv_end := e; iv_pid := id r |}
                   (intervals_on d (entries responses))).
  { apply in_intervals_on_entries. now exists r, slot. }
  destruct (intervals_on d (entries responses)) as [|iv ivs]; [destruct Hiv|].
  discriminate.
Qed.


Lemma timeline_covers responses d t :
  digit_times responses -> d <> "__proto__" ->
  no_self_overlap responses d ->
  slot_covered responses d t -> segment_covered responses d t.
Proof.
  intros Hnum Hd Hno (p & Hp). unfold segment_covered.
  rewrite (timeline_segments_intervals responses d Hnum Hd).
  apply no_self_overlap_compatible in Hno.
  apply available_intervals in Hp as (iv & Hiv & _ & Hcov).
  eapply segments_cover; eauto. apply intervals_on_valid.
Qed.

Lemma timeline_no_gain responses d t :
  digit_times responses ->
  segment_covered responses d t -> slot_covered responses d t.
Proof.
  intros Hnum (seg & Hseg & Ht).
  apply (timeline_segments_intervals_In responses d seg Hnum) in Hseg
    as [_ Hseg].
  pose proof (date_segments_ok
                (interval_events (intervals_on d (entries responses)))) as Hok.
  rewrite Forall_forall in Hok. destruct (Hok seg Hseg) as [_ Hne].
  destruct (participantIds seg) as [|p ps] eqn:Ep; [contradiction|].
  exists p. apply available_intervals.
  eapply segment_sound; eauto.
  - apply intervals_on_valid.
  - rewrite Ep. now left.
Qed.







(** C3, as stated, fails: one participant with the overlapping slots
    09:00-10:00 and 09:30-10:30 gets the segments [540,570) and [570,600);
    the first end event empties the active set, so minute 610, which the
    second slot covers, is in no segment. *)
Lemma overlap_loses_coverage :
  timeline_segments overlapping_one_participant "2024-03-10"
    = [ mkSeg 540 570 ["P1"]; mkSeg 570 600 ["P1"] ] /\
  ~ (forall t, segment_covered overlapping_one_participant "2024-03-10" t <->
               slot_covered overlapping_one_participant "2024-03-10" t).
Proof.
  assert (E : timeline_segments overlapping_one_participant "2024-03-10"
              = [ mkSeg 540 570 ["P1"]; mkSeg 570 600 ["P1"] ])
    by (vm_compute; reflexivity).
  split; [exact E|]. intros H.
  destruct (proj2 (H 610)) as (seg & Hin & Hseg).
  - exists "P1".
    exists (mkResp "P1" [ mkSlot "2024-03-10" "09:00" "10:00";
                          mkSlot "2024-03-10" "09:30" "10:30" ]),
           (mkSlot "2024-03-10" "09:30" "10:30"), 570, 630.
    repeat split; simpl; auto; lia.
  - rewrite E in Hin. unfold in_segment in Hseg.
    destruct Hin as [<-|[<-|[]]]; simpl in Hseg; lia.
Qed.

(** C3, amended: when the hours and minutes of every clock time are
    written with decimal digits only, every minute inside a segment of a
    date is covered by a valid slot of that date (nothing is gained); and
    when moreover the date is not [__proto__] and no participant has two
    different valid ranges that overlap on it, every minute covered by a
    valid slot lies in a segment (nothing is lost). *)
Theorem coverage_of_segments responses d :
  digit_times responses ->
  (forall t, segment_covered responses d t -> slot_covered responses d t) /\
  (d <> "__proto__" -> no_self_overlap responses d ->
   forall t, segment_covered responses d t <-> slot_covered responses d t).
Proof.
  intros Hnum. split.
  - intros t. now apply timeline_no_gain.
  - intros Hd Hno t. split.
    + now apply timeline_no_gain.
    + now apply timeline_covers.
Qed.

Lemma coverage_of_segments_witness :
  (forall t, segment_covered scenario_A_input "2024-03-10" t ->
             slot_covered scenario_A_input "2024-03-10" t) /\
  (forall t, segment_covered scenario_A_input "2024-03-10" t <->
             slot_covered scenario_A_input "2024-03-10" t).
Proof.
  assert (Hnum : digit_times scenario_A_input)
    by (apply digit_timesb_sound; reflexivity).
  assert (Hno : no_self_overlap scenario_A_input "2024-03-10")
    by (apply no_self_overlapb_sound; reflexivity).
  assert (Hd : "2024-03-10" <> "__proto__") by discriminate.
  destruct (coverage_of_segments scenario_A_input "2024-03-10" Hnum)
    as [H1 H2].
  split; [exact H1 | exact (H2 Hd Hno)].
Defined.




(** C9: every segment of every date has strictly positive width and a
    non-empty list of participants, for every input. *)
Theorem segments_positive_nonempty responses d :
  Forall (fun seg => startMinutes seg < endMinutes seg /\
                     participantIds seg <> [])
         (timeline_segments responses d).
Proof.
  apply timeline_segments_Forall, date_segments_ok.
Qed.

(** ** Reordering events of equal minute and type *)







(** ** The sweep does not depend on the order of tied events *)






















(** ** Reordering the input *)





Example same_slot_in_both_orders :
  buildTimeline same_slot_P1_P2
    = [ ("2024-03-11", [ mkSeg 840 900 ["P1"; "P2"] ]) ] /\
  buildTimeline same_slot_P2_P1
    = [ ("2024-03-11", [ mkSeg 840 900 ["P2"; "P1"] ]) ].
Proof. split; vm_compute; reflexivity. Qed.

(** ** Keys of the slot map *)

Lemma plain_timesb_sound responses :
  plain_timesb responses = true -> plain_times responses.
Proof.
  unfold plain_timesb, plain_times. rewrite forallb_forall.
  intros H r slot Hr Hs. specialize (H r Hr).
  rewrite forallb_forall in H. now apply andb_true_iff, H.
Qed.

Lemma string_app_assoc (a b c : string) :
  ((a ++ b) ++ c = a ++ (b ++ c))%string.
Proof. induction a as [|x a IH]; simpl; congruence. Qed.

Lemma underscore_in_middle (a b : string) :
  underscore_free (a ++ String "_" b)%string = false.
Proof.
  induction a as [|c a IH]; simpl; [reflexivity|].
  rewrite IH. apply andb_false_r.
Qed.

Lemma last_underscore_inj (x x' e e' : string) :
  underscore_free e = true -> underscore_free e' = true ->
  (x ++ "_" ++ e = x' ++ "_" ++ e')%string -> x = x' /\ e = e'.
Proof.
  intros He He'. revert x'.
  induction x as [|c x IH]; intros [|c' x'] H; simpl in H.
  - injection H as ->. auto.
  - injection H as <- ->.
    now rewrite underscore_in_middle in He.
  - injection H as -> <-.
    now rewrite underscore_in_middle in He'.
  - injection H as -> H. destruct (IH x' H) as [-> ->]. auto.
Qed.

Lemma slot_key_inj (s1 s2 : AvailabilitySlot) :
  underscore_free (startTime s1) = true ->
  underscore_free (endTime s1) = true ->
  underscore_free (startTime s2) = true ->
  underscore_free (endTime s2) = true ->
  slot_key s1 = slot_key s2 -> s1 = s2.
Proof.
  intros Hs1 He1 Hs2 He2 H. unfold slot_key in H.
  assert (Hassoc : forall d s e : string,
            (d ++ "_" ++ s ++ "_" ++ e = (d ++ "_" ++ s) ++ "_" ++ e)%string).
  { intros d s e. now rewrite string_app_assoc. }
  rewrite !Hassoc in H.
  apply last_underscore_inj in H as [H Hend]; auto.
  apply last_underscore_inj in H as [Hdate Hstart]; auto.
  destruct s1, s2; simpl in *; congruence.
Qed.

(** ** Contents of the slot map *)

Lemma extend_nil a : extend a [] = a.
Proof. destruct a. unfold extend. simpl. now rewrite app_nil_r. Qed.

Lemma extend_extend a ps qs : extend (extend a ps) qs = extend a (ps ++ qs).
Proof. unfold extend. simpl. now rewrite app_assoc. Qed.

Lemma aggregate_slot_get k p m slot :
  map_get k (aggregate_slot p m slot) =
  if String.eqb (slot_key slot) k then
    match map_get k m with
    | Some a => Some (extend a [p])
    | None => Some {| agg_slot := slot; agg_participantIds := [p] |}
    end
  else map_get k m.
Proof.
  unfold aggregate_slot.
  destruct (String.eqb_spec (slot_key slot) k) as [<-|Hne].
  - destruct (map_get (slot_key slot) m); now rewrite map_get_set_eq.
  - destruct (map_get (slot_key slot) m);
      now rewrite map_get_set_neq by exact Hne.
Qed.

Lemma aggregate_entries_get k es : forall m,
  map_get k (aggregate_entries es m) =
  match map_get k m with
  | Some a => Some (extend a (map fst (matching k es)))
  | None =>
      match matching k es with
      | [] => None
      | e :: rest =>
          Some {| agg_slot := snd e;
                  agg_participantIds := map fst (e :: rest) |}
      end
  end.
Proof.
  induction es as [|[p slot] es IH]; intros m.
  - simpl. destruct (map_get k m); [now rewrite extend_nil | reflexivity].
  - unfold aggregate_entries in *. cbn [fold_left fst snd].
    rewrite IH, aggregate_slot_get. unfold matching. cbn [filter snd].
    destruct (String.eqb (slot_key slot) k).
    + destruct (map_get k m) as [a|].
      * now rewrite extend_extend.
      * reflexivity.
    + reflexivity.
Qed.

Lemma aggregate_entries_NoDup es : forall m,
  NoDup (map_keys m) -> NoDup (map_keys (aggregate_entries es m)).
Proof.
  induction es as [|[p slot] es IH]; intros m H; simpl; auto.
  apply IH. unfold aggregate_slot.
  destruct (map_get (slot_key slot) m); now apply map_set_NoDup.
Qed.

Lemma aggregateSlots_entries responses :
  aggregateSlots responses =
  array_sort compareAggregated
    (map_values (aggregate_entries (entries responses) [])).
Proof.
  unfold aggregateSlots, aggregate_response.
  now rewrite (fold_left_entries aggregate_slot).
Qed.

(** An aggregated slot of the result is the map entry of some key: it
    carries the first slot with that key and one participant id per
    (participant, slot) pair with that key, in input order. *)
Lemma in_aggregateSlots responses a :
  In a (aggregateSlots responses) <->
  exists k e rest,
    matching k (entries responses) = e :: rest /\
    a = {| agg_slot := snd e; agg_participantIds := map fst (e :: rest) |}.
Proof.
  rewrite aggregateSlots_entries, array_sort_In.
  set (es := entries responses).
  assert (Hnd : NoDup (map_keys
                 (aggregate_entries es (@nil (string * AggregatedSlot)))))
    by (apply aggregate_entries_NoDup; constructor).
  unfold map_values. rewrite in_map_iff. split.
  - intros ([k a'] & <- & Hin). simpl.
    apply (In_map_get _ _ _ Hnd) in Hin.
    rewrite aggregate_entries_get in Hin. simpl in Hin.
    destruct (matching k es) as [|e rest] eqn:E; [discriminate|].
    injection Hin as <-. now exists k, e, rest.
  - intros (k & e & rest & E & ->).
    exists (k, {| agg_slot := snd e;
                  agg_participantIds := map fst (e :: rest) |}).
    split; [reflexivity|]. apply map_get_In.
    rewrite aggregate_entries_get. simpl. now rewrite E.
Qed.

(** ** One aggregated slot per triple *)

Lemma in_matching k es e :
  In e (matching k es) <-> In e es /\ slot_key (snd e) = k.
Proof. unfold matching. now rewrite filter_In, String.eqb_eq. Qed.

Lemma plain_entries_inj responses p q s s' :
  plain_times responses ->
  In (p, s) (entries responses) -> In (q, s') (entries responses) ->
  slot_key s = slot_key s' -> s = s'.
Proof.
  intros Hplain H1 H2 Hk.
  apply in_entries in H1 as (r1 & Hr1 & _ & Hs1).
  apply in_entries in H2 as (r2 & Hr2 & _ & Hs2).
  destruct (Hplain r1 s Hr1 Hs1), (Hplain r2 s' Hr2 Hs2).
  now apply slot_key_inj.
Qed.

Lemma NoDup_map_factor {A B C} (f : A -> C) (g : B -> C) (h : A -> B)
    (l : list A) :
  (forall x, In x l -> f x = g (h x)) ->
  NoDup (map f l) -> NoDup (map h l).
Proof.
  intros Hfg Hnd. apply (NoDup_map_inv g). rewrite map_map.
  erewrite map_ext_in; [exact Hnd|].
  intros x Hx. symmetry. now apply Hfg.
Qed.

Lemma aggregate_keys es k a :
  In (k, a) (aggregate_entries es []) -> k = slot_key (agg_slot a).
Proof.
  intros Hin.
  apply In_map_get in Hin;
    [|apply aggregate_entries_NoDup; constructor].
  rewrite aggregate_entries_get in Hin. simpl in Hin.
  destruct (matching k es) as [|e rest] eqn:E; [discriminate|].
  injection Hin as <-. simpl.
  assert (H : In e (matching k es)) by (rewrite E; now left).
  apply in_matching in H as [_ H]. now symmetry.
Qed.

Lemma aggregateSlots_NoDup responses :
  NoDup (map agg_slot (aggregateSlots responses)).
Proof.
  rewrite aggregateSlots_entries.
  eapply Permutation_NoDup.
  { apply Permutation_map, Permutation_sym, array_sort_perm. }
  unfold map_values. rewrite map_map.
  apply (NoDup_map_factor fst slot_key (fun x => agg_slot (snd x))).
  - intros [k a] Hin. simpl. now apply aggregate_keys in Hin.
  - apply aggregate_entries_NoDup. constructor.
Qed.

Lemma aggregateSlots_contents responses :
  plain_times responses ->
  NoDup (map agg_slot (aggregateSlots responses)) /\
  (forall slot, In slot (map agg_slot (aggregateSlots responses)) <->
                exists r, In r responses /\ In slot (slots r)) /\
  (forall a, In a (aggregateSlots responses) ->
     forall p, In p (agg_participantIds a) <->
               exists r, In r responses /\ id r = p /\
                         In (agg_slot a) (slots r)).
Proof.
  intros Hplain. split; [apply aggregateSlots_NoDup|split].
  - intros slot. rewrite in_map_iff. split.
    + intros (a & <- & Ha).
      apply in_aggregateSlots in Ha as (k & [p s] & rest & E & ->). simpl.
      assert (H : In (p, s) (matching k (entries responses)))
        by (rewrite E; now left).
      apply in_matching in H as [H _].
      apply in_entries in H as (r & Hr & _ & Hs). now exists r.
    + intros (r & Hr & Hs).
      assert (Hin : In (id r, slot)
                      (matching (slot_key slot) (entries responses))).
      { apply in_matching. split; [|reflexivity].
        apply in_entries. now exists r. }
      destruct (matching (slot_key slot) (entries responses))
        as [|[p s] rest] eqn:E; [destruct Hin|].
      exists {| agg_slot := s;
                agg_participantIds := map fst ((p, s) :: rest) |}.
      split.
      * simpl.
        assert (H : In (p, s) (matching (slot_key slot) (entries responses)))
          by (rewrite E; now left).
        apply in_matching in H as [H Hk]. simpl in Hk.
        apply (plain_entries_inj responses p (id r) s slot Hplain H); auto.
        apply in_entries. now exists r.
      * apply in_aggregateSlots. now exists (slot_key slot), (p, s), rest.
  - intros a Ha p.
    apply in_aggregateSlots in Ha as (k & [q s] & rest & E & ->).
    cbn [agg_slot agg_participantIds snd]. rewrite <- E.
    assert (H0 : In (q, s) (matching k (entries responses)))
      by (rewrite E; now left).
    apply in_matching in H0 as [Hq Hk]. simpl in Hk.
    rewrite in_map_iff. split.
    + intros ([p' s'] & <- & H). simpl.
      apply in_matching in H as [H Hk']. simpl in Hk'.
      assert (s' = s).
      { apply (plain_entries_inj responses p' q s' s Hplain H Hq). congruence. }
      subst s'. apply in_entries in H as (r & Hr & Hid & Hs). now exists r.
    + intros (r & Hr & <- & Hs). exists (id r, s). split; [reflexivity|].
      apply in_matching. split; [|exact Hk].
      apply in_entries. now exists r.
Qed.

(** C7, as stated, fails: the map key joins date, start time and end
    time with underscores, so two different triples can share a key.  The
    triple (2024-03-10, 09:00_10:00, 11:00) of P1 and the triple
    (2024-03-10_09:00, 10:00, 11:00) of P2 give one aggregated slot, which
    carries the first triple and lists both participants; the second
    triple has no aggregated slot at all. *)
Lemma underscore_key_collision :
  aggregateSlots colliding_keys_input
    = [ {| agg_slot := mkSlot "2024-03-10" "09:00_10:00" "11:00";
           agg_participantIds := ["P1"; "P2"] |} ] /\
  ~ (forall slot,
       In slot (map agg_slot (aggregateSlots colliding_keys_input)) <->
       exists r, In r colliding_keys_input /\ In slot (slots r)) /\
  ~ (forall a, In a (aggregateSlots colliding_keys_input) ->
       forall p, In p (agg_participantIds a) <->
                 exists r, In r colliding_keys_input /\ id r = p /\
                           In (agg_slot a) (slots r)).
Proof.
  assert (E : aggregateSlots colliding_keys_input
              = [ {| agg_slot := mkSlot "2024-03-10" "09:00_10:00" "11:00";
                     agg_participantIds := ["P1"; "P2"] |} ])
    by (vm_compute; reflexivity).
  split; [exact E|]. rewrite E. split.
  - intros H.
    destruct (proj2 (H (mkSlot "2024-03-10_09:00" "10:00" "11:00")))
      as [Heq|[]]; [|discriminate].
    exists (mkResp "P2" [mkSlot "2024-03-10_09:00" "10:00" "11:00"]).
    split; [right; left; reflexivity|left; reflexivity].
  - intros H.
    destruct (proj1 (H _ (or_introl eq_refl) "P2"))
      as (r & [<-|[<-|[]]] & Hid & Hin); simpl in *;
      [right; left; reflexivity|discriminate|].
    destruct Hin as [Hin|[]]. discriminate.
Qed.

(** C7, amended: when no clock time contains an underscore, aggregateSlots
    returns exactly one aggregated slot per distinct (date, startTime,
    endTime) triple of the input, and the participants listed on it are
    exactly those whose slot list contains that triple. *)
Theorem aggregate_one_per_triple responses :
  plain_times responses ->
  NoDup (map agg_slot (aggregateSlots responses)) /\
  (forall slot, In slot (map agg_slot (aggregateSlots responses)) <->
                exists r, In r responses /\ In slot (slots r)) /\
  (forall a, In a (aggregateSlots responses) ->
     forall p, In p (agg_participantIds a) <->
               exists r, In r responses /\ id r = p /\
                         In (agg_slot a) (slots r)).
Proof. apply aggregateSlots_contents. Qed.

Lemma aggregate_one_per_triple_witness :
  NoDup (map agg_slot (aggregateSlots same_slot_P1_P2)) /\
  (forall slot, In slot (map agg_slot (aggregateSlots same_slot_P1_P2)) <->
                exists r, In r same_slot_P1_P2 /\ In slot (slots r)) /\
  (forall a, In a (aggregateSlots same_slot_P1_P2) ->
     forall p, In p (agg_participantIds a) <->
               exists r, In r same_slot_P1_P2 /\ id r = p /\
                         In (agg_slot a) (slots r)).
Proof.
  apply aggregate_one_per_triple.
  apply plain_timesb_sound. reflexivity.
Defined.

(** ** Repeated slots of one participant *)

Lemma key_count_app p k es1 es2 :
  key_count p k (es1 ++ es2) = (key_count p k es1 + key_count p k es2)%nat.
Proof. unfold key_count. now rewrite filter_app, length_app. Qed.

Lemma count_matching p k es :
  count_occ string_dec (map fst (matching k es)) p = key_count p k es.
Proof.
  unfold matching, key_count.
  induction es as [|[q s] es IH]; simpl; [reflexivity|].
  destruct (String.eqb (slot_key s) k); simpl.
  - destruct (string_dec q p) as [->|Hne].
    + rewrite String.eqb_refl. simpl. now rewrite IH.
    + apply String.eqb_neq in Hne. now rewrite Hne.
  - now rewrite andb_false_r.
Qed.

Lemma key_count_other p k q ss :
  q <> p -> key_count p k (map (pair q) ss) = 0%nat.
Proof.
  intros Hne. apply String.eqb_neq in Hne. unfold key_count.
  induction ss as [|s ss IH]; simpl; [reflexivity|]. now rewrite Hne.
Qed.

Lemma key_count_absent p k responses :
  ~ In p (map id responses) -> key_count p k (entries responses) = 0%nat.
Proof.
  induction responses as [|r rs IH]; simpl; intros H; [reflexivity|].
  rewrite key_count_app, key_count_other, IH; auto.
Qed.

Lemma key_count_own p slot ss :
  underscore_free (startTime slot) = true ->
  underscore_free (endTime slot) = true ->
  (forall s, In s ss -> underscore_free (startTime s) = true /\
                        underscore_free (endTime s) = true) ->
  key_count p (slot_key slot) (map (pair p) ss)
  = count_occ slot_eq_dec ss slot.
Proof.
  intros Hs He Hss. unfold key_count.
  induction ss as [|s ss IH]; simpl; [reflexivity|].
  rewrite String.eqb_refl. simpl.
  destruct (Hss s (or_introl eq_refl)) as [Hs' He'].
  destruct (slot_eq_dec s slot) as [->|Hne].
  - rewrite String.eqb_refl. simpl. rewrite IH; auto.
    intros s' Hin. apply Hss. now right.
  - destruct (String.eqb_spec (slot_key s) (slot_key slot)) as [E|_].
    + exfalso. apply Hne. now apply slot_key_inj.
    + apply IH. intros s' Hin. apply Hss. now right.
Qed.

Lemma key_count_participant responses r slot :
  plain_times responses -> NoDup (map id responses) ->
  In r responses -> In slot (slots r) ->
  key_count (id r) (slot_key slot) (entries responses)
  = count_occ slot_eq_dec (slots r) slot.
Proof.
  intros Hplain Hnd Hr Hslot.
  destruct (Hplain r slot Hr Hslot) as [Hs He].
  induction responses as [|r0 rs IH]; [destruct Hr|].
  simpl in Hnd. apply NoDup_cons_iff in Hnd as [Hfresh Hnd].
  simpl. rewrite key_count_app. destruct Hr as [->|Hr].
  - rewrite key_count_own, key_count_absent; auto.
    intros s Hin. apply (Hplain r s); [now left|exact Hin].
  - rewrite key_count_other, IH; auto.
    + intros r' s Hr' Hs'. apply (Hplain r' s); [now right|exact Hs'].
    + intros E. apply Hfresh. rewrite E. now apply in_map.
Qed.

(** C10, as stated, fails when two triples share a map key: P1 has the
    triple (2024-03-10, 09:00_10:00, 11:00) twice and the triple
    (2024-03-10_09:00, 10:00, 11:00) once; the aggregated slot of the
    first triple lists P1 three times, not twice. *)
Lemma underscore_collision_miscounts :
  aggregateSlots colliding_repeats_input
    = [ {| agg_slot := mkSlot "2024-03-10" "09:00_10:00" "11:00";
           agg_participantIds := ["P1"; "P1"; "P1"] |} ] /\
  (forall r, In r colliding_repeats_input ->
     count_occ slot_eq_dec (slots r)
       (mkSlot "2024-03-10" "09:00_10:00" "11:00") = 2%nat) /\
  ~ (exists a, In a (aggregateSlots colliding_repeats_input) /\
       agg_slot a = mkSlot "2024-03-10" "09:00_10:00" "11:00" /\
       count_occ string_dec (agg_participantIds a) "P1" = 2%nat).
Proof.
  assert (E : aggregateSlots colliding_repeats_input
              = [ {| agg_slot := mkSlot "2024-03-10" "09:00_10:00" "11:00";
                     agg_participantIds := ["P1"; "P1"; "P1"] |} ])
    by (vm_compute; reflexivity).
  split; [exact E|split].
  - intros r [<-|[]]. vm_compute. reflexivity.
  - rewrite E. intros (a & [<-|[]] & _ & H). vm_compute in H. discriminate.
Qed.

(** C10, amended: aggregateSlots does not deduplicate within a
    participant.  When no clock time contains an underscore and the
    participants have distinct ids, a participant whose slot list contains
    a triple k times, k at least 1 (in particular k at least 2), appears
    exactly k times in the participant list of the aggregated slot of that
    triple. *)
Theorem repeated_slot_repeats_id responses r slot k :
  plain_times responses -> NoDup (map id responses) ->
  In r responses ->
  count_occ slot_eq_dec (slots r) slot = k -> (1 <= k)%nat ->
  exists a, In a (aggregateSlots responses) /\ agg_slot a = slot /\
            count_occ string_dec (agg_participantIds a) (id r) = k.
Proof.
  intros Hplain Hnd Hr Hcount Hk.
  assert (Hslot : In slot (slots r)).
  { apply (count_occ_In slot_eq_dec). lia. }
  assert (Hin : In (id r, slot) (matching (slot_key slot) (entries responses))).
  { apply in_matching. split; [|reflexivity]. apply in_entries. now exists r. }
  destruct (matching (slot_key slot) (entries responses))
    as [|[p s] rest] eqn:E; [destruct Hin|].
  exists {| agg_slot := s; agg_participantIds := map fst ((p, s) :: rest) |}.
  split; [|split].
  - apply in_aggregateSlots. now exists (slot_key slot), (p, s), rest.
  - cbn [agg_slot].
    assert (H : In (p, s) (matching (slot_key slot) (entries responses)))
      by (rewrite E; now left).
    apply in_matching in H as [H Hkey]. simpl in Hkey.
    apply (plain_entries_inj responses p (id r) s slot Hplain H); auto.
    apply in_entries. now exists r.
  - cbn [agg_participantIds]. rewrite <- E, count_matching.
    now rewrite key_count_participant.
Qed.

Lemma repeated_slot_repeats_id_witness :
  exists a, In a (aggregateSlots twice_the_same_slot) /\
            agg_slot a = mkSlot "2024-03-11" "14:00" "15:00" /\
            count_occ string_dec (agg_participantIds a) "P1" = 2%nat.
Proof.
  apply (repeated_slot_repeats_id twice_the_same_slot
           (mkResp "P1" [ mkSlot "2024-03-11" "14:00" "15:00";
                          mkSlot "2024-03-11" "14:00" "15:00" ])).
  - apply plain_timesb_sound. reflexivity.
  - repeat constructor; simpl; intuition discriminate.
  - now left.
  - reflexivity.
  - lia.
Defined.

(** Two responses under one id add up: the id is listed once for each
    occurrence of the triple in either of them. *)
Example shared_id_adds_up :
  aggregateSlots
    [ mkResp "P1" [ mkSlot "2024-03-11" "14:00" "15:00";
                    mkSlot "2024-03-11" "14:00" "15:00" ];
      mkResp "P1" [ mkSlot "2024-03-11" "14:00" "15:00" ] ]
  = [ {| agg_slot := mkSlot "2024-03-11" "14:00" "15:00";
         agg_participantIds := ["P1"; "P1"; "P1"] |} ].
Proof. vm_compute. reflexivity. Qed.

Example twice_the_same_slot_aggregated :
  aggregateSlots twice_the_same_slot
  = [ {| agg_slot := mkSlot "2024-03-11" "14:00" "15:00";
         agg_participantIds := ["P1"; "P1"; "P2"] |} ].
Proof. vm_compute. reflexivity. Qed.

(** ** Order of the aggregated slots *)

Lemma lexicographic_le a b :
  match lexicographic a b with Some v => v | None => 0 end <= 0 <->
  str_le a b.
Proof.
  unfold lexicographic, str_le, str_lt.
  destruct (String.compare a b) eqn:E; simpl.
  - apply String_as_OT.cmp_eq in E. split; [auto | lia].
  - apply String_as_OT.cmp_lt in E. split; [auto | lia].
  - split; [lia|]. intros [->|H].
    + assert (E' : String.compare b b = Eq) by now apply String_as_OT.cmp_eq.
      congruence.
    + apply String_as_OT.cmp_lt in H. unfold String_as_OT.cmp in H. congruence.
Qed.

Lemma lexicographic_antisym a b :
  match lexicographic b a with Some v => v | None => 0 end
  = - match lexicographic a b with Some v => v | None => 0 end.
Proof.
  unfold lexicographic. rewrite (String.compare_antisym a b).
  now destruct (String.compare b a).
Qed.

Lemma str_lt_irrefl a : ~ str_lt a a.
Proof. intros H. now apply (String_as_OT.lt_not_eq a a H). Qed.

Lemma str_lt_trans a b c : str_lt a b -> str_lt b c -> str_lt a c.
Proof. apply String_as_OT.lt_trans. Qed.

Lemma str_trichotomy a b : str_lt a b \/ a = b \/ str_lt b a.
Proof.
  destruct (String_as_OT.compare a b) as [H|H|H]; auto.
Qed.

Lemma str_le_trans a b c : str_le a b -> str_le b c -> str_le a c.
Proof.
  intros [->|H1] [->|H2]; unfold str_le; auto.
  right. eapply str_lt_trans; eauto.
Qed.

(** *** Collation on strings of one shape *)

Lemma collation_digit c :
  is_digit c = true ->
  collation_element c = Some (Z.of_N (N_of_ascii c) - 10, 0).
Proof.
  destruct c as [[] [] [] [] [] [] [] []]; try discriminate; reflexivity.
Qed.

Lemma same_shape_head x y a b :
  same_shape (String x a) (String y b) = true ->
  same_shape a b = true /\
  exists ex ey,
    collation_element x = Some (ex, 0) /\
    collation_element y = Some (ey, 0) /\
    Z.compare ex ey = Ascii.compare x y.
Proof.
  simpl. intros H. apply andb_true_iff in H as [H Hs].
  split; [exact Hs|].
  apply orb_true_iff in H as [H|H]; apply andb_true_iff in H as [H1 H2].
  - exists (Z.of_N (N_of_ascii x) - 10), (Z.of_N (N_of_ascii y) - 10).
    rewrite (collation_digit x H1), (collation_digit y H2).
    repeat split. unfold Ascii.compare. rewrite <- N2Z.inj_compare.
    destruct (Z.compare_spec (Z.of_N (N_of_ascii x)) (Z.of_N (N_of_ascii y)));
      [apply Z.compare_eq_iff|apply Z.compare_lt_iff|apply Z.compare_gt_iff];
      lia.
  - apply Ascii.eqb_eq in H1. subst y.
    assert (Hc : Ascii.compare x x = Eq).
    { unfold Ascii.compare. apply N.compare_refl. }
    rewrite Hc.
    apply orb_true_iff in H2 as [H2|H2]; apply Ascii.eqb_eq in H2; subst x.
    + exists 10, 10. repeat split.
    + exists 7, 7. repeat split.
Qed.

Lemma same_shape_first a : forall b,
  same_shape a b = true ->
  compare_weights fst (collation_elements a) (collation_elements b)
  = String.compare a b.
Proof.
  induction a as [|x a IH]; intros [|y b] H; try discriminate;
    [reflexivity|].
  apply same_shape_head in H as (Hs & ex & ey & Ex & Ey & Hc).
  cbn [collation_elements String.compare]. rewrite Ex, Ey.
  cbn [compare_weights fst]. rewrite Hc.
  destruct (Ascii.compare x y); auto.
Qed.

Lemma same_shape_third a : forall b,
  same_shape a b = true ->
  compare_weights snd (collation_elements a) (collation_elements b) = Eq.
Proof.
  induction a as [|x a IH]; intros [|y b] H; try discriminate;
    [reflexivity|].
  apply same_shape_head in H as (Hs & ex & ey & Ex & Ey & Hc).
  cbn [collation_elements]. rewrite Ex, Ey.
  cbn [compare_weights snd]. simpl. auto.
Qed.

(** On two strings of one shape the collation is the order by code
    unit. *)
Lemma localeCompare_same_shape a b :
  same_shape a b = true -> localeCompare a b = lexicographic a b.
Proof.
  intros H. unfold localeCompare, lexicographic.
  rewrite (same_shape_first a b H), (same_shape_third a b H).
  now destruct (String.compare a b).
Qed.

Lemma digit_not_char (c x : ascii) :
  is_digit x = false -> is_digit c = true -> Ascii.eqb c x = false.
Proof.
  intros Hx Hc. destruct (Ascii.eqb_spec c x) as [->|]; congruence.
Qed.

Lemma clock_time_shape s :
  is_clock_time s = true ->
  exists h1 h2 m1 m2,
    s = String h1 (String h2 (String ":" (String m1 (String m2 EmptyString))))
    /\ is_digit h1 = true /\ is_digit h2 = true
    /\ is_digit m1 = true /\ is_digit m2 = true.
Proof.
  destruct s as [|h1 [|h2 [|sep [|m1 [|m2 [|? ?]]]]]]; try discriminate.
  simpl. intros H.
  repeat (apply andb_true_iff in H as [H ?]).
  exists h1, h2, m1, m2. repeat split; auto.
  assert (sep = ":"%char) by now apply Ascii.eqb_eq. now subst.
Qed.

Lemma clock_time_same_shape a b :
  is_clock_time a = true -> is_clock_time b = true -> same_shape a b = true.
Proof.
  intros Ha Hb.
  apply clock_time_shape in Ha as (a1 & a2 & a3 & a4 & -> & ? & ? & ? & ?).
  apply clock_time_shape in Hb as (b1 & b2 & b3 & b4 & -> & ? & ? & ? & ?).
  simpl. repeat match goal with H : is_digit _ = true |- _ =>
                  rewrite H; clear H end.
  reflexivity.
Qed.

Lemma iso_date_shape s :
  is_iso_date s = true ->
  exists y1 y2 y3 y4 m1 m2 d1 d2,
    s = String y1 (String y2 (String y3 (String y4 (String "-"
          (String m1 (String m2 (String "-"
            (String d1 (String d2 EmptyString)))))))))
    /\ is_digit y1 = true /\ is_digit y2 = true /\ is_digit y3 = true
    /\ is_digit y4 = true /\ is_digit m1 = true /\ is_digit m2 = true
    /\ is_digit d1 = true /\ is_digit d2 = true.
Proof.
  destruct s
    as [|y1 [|y2 [|y3 [|y4 [|s1 [|m1 [|m2 [|s2 [|d1 [|d2 [|? ?]]]]]]]]]]];
    try discriminate.
  simpl. intros H.
  repeat (apply andb_true_iff in H as [H ?]).
  exists y1, y2, y3, y4, m1, m2, d1, d2.
  assert (s1 = "-"%char) by now apply Ascii.eqb_eq.
  assert (s2 = "-"%char) by now apply Ascii.eqb_eq.
  subst. repeat split; auto.
Qed.

Lemma iso_date_same_shape a b :
  is_iso_date a = true -> is_iso_date b = true -> same_shape a b = true.
Proof.
  intros Ha Hb.
  apply iso_date_shape in Ha
    as (a1 & a2 & a3 & a4 & a5 & a6 & a7 & a8 & -> & Ha).
  apply iso_date_shape in Hb
    as (b1 & b2 & b3 & b4 & b5 & b6 & b7 & b8 & -> & Hb).
  destruct Ha as (? & ? & ? & ? & ? & ? & ? & ?).
  destruct Hb as (? & ? & ? & ? & ? & ? & ? & ?).
  simpl. repeat match goal with H : is_digit _ = true |- _ =>
                  rewrite H; clear H end.
  reflexivity.
Qed.

Lemma padded_slot_parts slot :
  padded_slot slot = true ->
  is_iso_date (date slot) = true /\ is_clock_time (startTime slot) = true /\
  is_clock_time (endTime slot) = true.
Proof.
  unfold padded_slot. intros H.
  apply andb_true_iff in H as [H H3]. apply andb_true_iff in H as [H1 H2].
  auto.
Qed.

Lemma padded_inputb_sound responses :
  padded_inputb responses = true -> padded_input responses.
Proof.
  unfold padded_inputb, padded_input. rewrite forallb_forall.
  intros H r slot Hr Hs. specialize (H r Hr).
  rewrite forallb_forall in H. now apply H.
Qed.

(** *** The comparator of aggregateSlots *)

Lemma compareAggregated_lexicographic a b :
  padded_slot (agg_slot a) = true -> padded_slot (agg_slot b) = true ->
  compareAggregated a b
  = if String.eqb (date (agg_slot a)) (date (agg_slot b))
    then lexicographic (startTime (agg_slot a)) (startTime (agg_slot b))
    else lexicographic (date (agg_slot a)) (date (agg_slot b)).
Proof.
  intros Ha Hb.
  apply padded_slot_parts in Ha as (Hda & Hsa & _).
  apply padded_slot_parts in Hb as (Hdb & Hsb & _).
  unfold compareAggregated.
  rewrite (localeCompare_same_shape _ _ (iso_date_same_shape _ _ Hda Hdb)).
  rewrite (localeCompare_same_shape _ _ (clock_time_same_shape _ _ Hsa Hsb)).
  reflexivity.
Qed.

Lemma compareAggregated_le a b :
  padded_slot (agg_slot a) = true -> padded_slot (agg_slot b) = true ->
  (cmp_le compareAggregated a b <-> agg_le a b).
Proof.
  intros Ha Hb. unfold cmp_le, cmp_value.
  rewrite (compareAggregated_lexicographic a b Ha Hb). unfold agg_le.
  destruct (String.eqb_spec (date (agg_slot a)) (date (agg_slot b))) as [E|E].
  - rewrite lexicographic_le, E. split; [auto|].
    intros [H|[_ H]]; [now apply str_lt_irrefl in H | exact H].
  - rewrite lexicographic_le. unfold str_le. tauto.
Qed.

Lemma compareAggregated_antisym a b :
  padded_slot (agg_slot a) = true -> padded_slot (agg_slot b) = true ->
  cmp_value compareAggregated b a = - cmp_value compareAggregated a b.
Proof.
  intros Ha Hb. unfold cmp_value.
  rewrite (compareAggregated_lexicographic a b Ha Hb).
  rewrite (compareAggregated_lexicographic b a Hb Ha).
  rewrite (String.eqb_sym (date (agg_slot b))).
  destruct (String.eqb _ _); apply lexicographic_antisym.
Qed.

Lemma agg_le_total a b : agg_le a b \/ agg_le b a.
Proof.
  unfold agg_le, str_le.
  destruct (str_trichotomy (date (agg_slot a)) (date (agg_slot b)))
    as [H|[H|H]]; auto.
  destruct (str_trichotomy (startTime (agg_slot a)) (startTime (agg_slot b)))
    as [H'|[H'|H']]; auto 6.
Qed.

Lemma agg_le_trans a b c : agg_le a b -> agg_le b c -> agg_le a c.
Proof.
  unfold agg_le.
  intros [H1|[E1 H1]] [H2|[E2 H2]].
  - left. eapply str_lt_trans; eauto.
  - left. now rewrite <- E2.
  - left. now rewrite E1.
  - right. split; [congruence|]. eapply str_le_trans; eauto.
Qed.

Lemma aggregateSlots_padded responses a :
  padded_input responses -> In a (aggregateSlots responses) ->
  padded_slot (agg_slot a) = true.
Proof.
  intros Hpad Ha.
  apply in_aggregateSlots in Ha as (k & [p s] & rest & E & ->). simpl.
  assert (H : In (p, s) (matching k (entries responses)))
    by (rewrite E; now left).
  apply in_matching in H as [H _].
  apply in_entries in H as (r & Hr & _ & Hs). now apply (Hpad r).
Qed.

(** C8, as stated, fails: the comparator is localeCompare, the collation
    of the locale, in which a colon comes before every digit.  The start
    time 1:00 is placed before 10:00, though 10:00 is the smaller string
    in lexicographic order. *)
Lemma collation_is_not_lexicographic :
  map agg_slot (aggregateSlots unpadded_times_input)
    = [ mkSlot "2024-03-10" "1:00" "2:00";
        mkSlot "2024-03-10" "10:00" "11:00" ] /\
  str_lt "10:00" "1:00" /\
  ~ StronglySorted agg_le (aggregateSlots unpadded_times_input).
Proof.
  assert (Hlt : str_lt "10:00" "1:00")
    by (apply String_as_OT.cmp_lt; reflexivity).
  split; [vm_compute; reflexivity|split; [exact Hlt|]].
  assert (E : aggregateSlots unpadded_times_input
              = [ {| agg_slot := mkSlot "2024-03-10" "1:00" "2:00";
                     agg_participantIds := ["P1"] |};
                  {| agg_slot := mkSlot "2024-03-10" "10:00" "11:00";
                     agg_participantIds := ["P1"] |} ])
    by (vm_compute; reflexivity).
  rewrite E. intros H. apply StronglySorted_inv in H as [_ H].
  apply Forall_inv in H. unfold agg_le in H. simpl in H.
  destruct H as [H|[_ [H|H]]].
  - now apply str_lt_irrefl in H.
  - discriminate.
  - apply (str_lt_irrefl "1:00"). eapply str_lt_trans; eauto.
Qed.

(** C8, amended: when the dates have the form dddd-dd-dd and the clock
    times the form dd:dd, the list returned by aggregateSlots is sorted by
    date in lexicographic order and, among entries of one date, by start
    time in lexicographic order; every entry stands in that relation to
    every later entry. *)
Theorem aggregateSlots_sorted responses :
  padded_input responses ->
  StronglySorted agg_le (aggregateSlots responses).
Proof.
  intros Hpad.
  assert (Hdom : Forall (fun a => padded_slot (agg_slot a) = true)
                        (aggregateSlots responses)).
  { apply Forall_forall. intros a. now apply aggregateSlots_padded. }
  rewrite Forall_forall in Hdom.
  apply StronglySorted_impl with (R := cmp_le compareAggregated).
  { intros x y Hx Hy. apply compareAggregated_le; auto. }
  unfold aggregateSlots in *.
  apply array_sort_sorted
    with (dom := fun a => padded_slot (agg_slot a) = true).
  - intros a b Ha Hb Hpos. unfold cmp_le.
    rewrite (compareAggregated_antisym a b Ha Hb). lia.
  - intros a b c Ha Hb Hc H1 H2. apply compareAggregated_le; auto.
    apply compareAggregated_le in H1, H2; auto. eapply agg_le_trans; eauto.
  - apply Forall_forall. intros a Ha. apply Hdom. now apply array_sort_In.
Qed.

Lemma aggregateSlots_sorted_witness :
  StronglySorted agg_le (aggregateSlots scenario_A_input).
Proof.
  apply aggregateSlots_sorted.
  apply padded_inputb_sound. reflexivity.
Defined.

(** ** Zero-length slots *)





(** A zero-length slot whose time is not a number passes the guard, both
    comparisons with NaN being false, and pushes two events. *)
Example zero_length_nan_slot_pushes_events :
  slot_events "P1" (mkSlot "2024-03-10" "x" "x")
  = [ {| minutes := NaN; type := EvStart; participantId := "P1" |};
      {| minutes := NaN; type := EvEnd; participantId := "P1" |} ].
Proof. reflexivity. Qed.



(** ** Event order and back-to-back slots *)




Example scenario_B_sorted_events :
  sortEvents (events_on "2024-03-10" (entries scenario_B_input))
  = [ {| minutes := Some 540; type := EvStart; participantId := "P1" |};
      {| minutes := Some 600; type := EvEnd; participantId := "P1" |};
      {| minutes := Some 600; type := EvStart; participantId := "P2" |};
      {| minutes := Some 660; type := EvEnd; participantId := "P2" |} ].
Proof. vm_compute. reflexivity. Qed.

(** ** Clock times [HH:mm] satisfy the input conditions *)

Lemma clock_time_digit s : is_clock_time s = true -> digit_time s = true.
Proof.
  intros H. apply clock_time_shape in H
    as (h1 & h2 & m1 & m2 & -> & H1 & H2 & H3 & H4).
  unfold digit_time, time_parts. simpl.
  rewrite (digit_not_char h1 ":" eq_refl H1).
  rewrite (digit_not_char h2 ":" eq_refl H2).
  rewrite (digit_not_char m1 ":" eq_refl H3).
  rewrite (digit_not_char m2 ":" eq_refl H4).
  simpl. now rewrite H1, H2, H3, H4.
Qed.

Lemma clock_time_plain s : is_clock_time s = true -> underscore_free s = true.
Proof.
  intros H. apply clock_time_shape in H
    as (h1 & h2 & m1 & m2 & -> & H1 & H2 & H3 & H4).
  simpl.
  rewrite (digit_not_char h1 "_" eq_refl H1).
  rewrite (digit_not_char h2 "_" eq_refl H2).
  rewrite (digit_not_char m1 "_" eq_refl H3).
  rewrite (digit_not_char m2 "_" eq_refl H4).
  reflexivity.
Qed.

(** Inputs whose times all have the shape [HH:mm] meet the conditions on
    clock times the theorems assume. *)
Lemma clock_times_sound responses :
  clock_timesb responses = true ->
  digit_times responses /\ plain_times responses.
Proof.
  unfold clock_timesb. rewrite forallb_forall. intros H.
  split; intros r slot Hr Hs; specialize (H r Hr);
    rewrite forallb_forall in H; specialize (H slot Hs);
    apply andb_true_iff in H as [H1 H2]; split;
    auto using clock_time_digit, clock_time_plain.
Qed.

Lemma clock_time_numeric s : is_clock_time s = true -> toMinutes s <> NaN.
Proof.
  intros H. apply clock_time_digit, digit_time_value in H as (v & -> & _).
  discriminate.
Qed.

(** * Further properties of [buildTimeline] and [aggregateSlots] *)

(** ** Dates of the result *)

Lemma in_events_on d es x :
  In x (events_on d es) <->
  exists p slot, In (p, slot) es /\ date slot = d /\
                 In x (slot_events p slot).
Proof.
  unfold events_on. rewrite in_flat_map. split.
  - intros ([p slot] & Hin & H). simpl in H.
    destruct (String.eqb_spec (date slot) d); [|destruct H].
    now exists p, slot.
  - intros (p & slot & Hin & Hd & H). exists (p, slot). split; auto.
    simpl. apply String.eqb_eq in Hd. now rewrite Hd.
Qed.

Lemma events_on_nonempty responses d :
  events_on d (entries responses) <> [] <-> pushes_events responses d.
Proof.
  split.
  - intros H. destruct (events_on d (entries responses)) as [|x l] eqn:E;
      [contradiction|].
    assert (Hx : In x (events_on d (entries responses)))
      by (rewrite E; now left).
    apply in_events_on in Hx as (p & slot & Hin & Hd & Hx).
    apply in_entries in Hin as (r & Hr & <- & Hs).
    exists r, slot. repeat split; auto.
    intros E'. rewrite E' in Hx. destruct Hx.
  - intros (r & slot & Hr & Hs & Hd & Hne) E.
    destruct (slot_events (id r) slot) as [|x l] eqn:Ex; [contradiction|].
    assert (Hx : In x (events_on d (entries responses))).
    { apply in_events_on. exists (id r), slot. repeat split; auto.
      - apply in_entries. now exists r.
      - rewrite Ex. now left. }
    rewrite E in Hx. destruct Hx.
Qed.

(** X1: each date occurs once among the keys of the result, and a date is
    a key exactly when it is not [__proto__] and one of its slots passes
    the guard. *)
Theorem timeline_dates responses :
  NoDup (map_keys (buildTimeline responses)) /\
  forall d, In d (map_keys (buildTimeline responses)) <->
            d <> "__proto__" /\ pushes_events responses d.
Proof.
  split; [apply buildTimeline_NoDup|].
  intros d. rewrite <- events_on_nonempty.
  pose proof (buildTimeline_get responses d) as Hget.
  pose proof (map_get_None_keys d (buildTimeline responses)) as Hnone.
  destruct (String.eqb_spec d "__proto__") as [Hd|Hd].
  - split; [|tauto]. intros Hin. exfalso. now apply Hnone in Hin.
  - destruct (events_on d (entries responses)) as [|x l] eqn:E.
    + split; [|tauto]. intros Hin. exfalso. now apply Hnone in Hin.
    + split; [intros _; split; [exact Hd|discriminate]|]. intros _.
      destruct (in_dec string_dec d (map_keys (buildTimeline responses)))
        as [Hin|Hout]; [exact Hin|].
      apply Hnone in Hout. congruence.
Qed.

Example proto_date_is_no_key :
  buildTimeline [ mkResp "P1" [ mkSlot "__proto__" "09:00" "10:00";
                                mkSlot "2024-03-10" "09:00" "10:00";
                                mkSlot "20240309" "09:00" "10:00" ] ]
  = [ ("20240309", [ mkSeg 540 600 ["P1"] ]);
      ("2024-03-10", [ mkSeg 540 600 ["P1"] ]) ].
Proof. vm_compute. reflexivity. Qed.

(** ** Bounds of the segments *)

(** The two ends of a segment are the minutes of two events of the date. *)
Lemma segment_ends_are_events evs seg :
  In seg (date_segments evs) ->
  exists z e, In z evs /\ In e evs /\
              minutes z = Some (startMinutes seg) /\
              minutes e = Some (endMinutes seg).
Proof.
  rewrite date_segments_emitted. intros H.
  apply in_emitted in H as (done & e & todo & Hs & H).
  apply emit_inv in H as (p & m & Hp & Hm & _ & Ha & ->).
  destruct done as [|z d _] using rev_ind; [now elim Ha|].
  rewrite prevMinute_after in Hp.
  exists z, e. simpl. repeat split; auto;
    apply (array_sort_In compareEvents); rewrite Hs.
  - apply in_app_iff. left. apply in_app_iff. right. now left.
  - apply in_app_iff. right. now left.
Qed.









Example slots_across_the_day_bounds :
  timeline_segments signed_times_input "2024-03-10"
    = [ mkSeg 0 30 ["P1"]; mkSeg 30 60 ["P1"; "P2"]; mkSeg 60 120 ["P2"] ] /\
  timeline_segments late_slot_input "2024-03-10"
    = [ mkSeg 1380 1440 ["P1"] ].
Proof. split; vm_compute; reflexivity. Qed.

(** ** Participants of the segments *)

(** X4: when the hours and minutes of every clock time are written with
    decimal digits only, a participant listed on a segment is available on
    every minute of that segment, whether or not slots of one participant
    overlap: a segment is never attributed to a participant who is not
    free. *)
Theorem listed_participants_are_available responses d seg p t :
  digit_times responses ->
  In seg (timeline_segments responses d) ->
  In p (participantIds seg) -> in_segment seg t ->
  available responses d p t.
Proof.
  intros Hnum Hseg Hp Ht.
  apply (timeline_segments_intervals_In responses d seg Hnum) in Hseg
    as [_ Hseg].
  apply available_intervals.
  eapply segment_sound; eauto. apply intervals_on_valid.
Qed.

Lemma listed_participants_are_available_witness :
  available overlapping_one_participant "2024-03-10" "P1" 580.
Proof.
  apply (listed_participants_are_available overlapping_one_participant
           "2024-03-10" (mkSeg 570 600 ["P1"])).
  - apply digit_timesb_sound. reflexivity.
  - vm_compute. right. left. reflexivity.
  - now left.
  - unfold in_segment. simpl. lia.
Defined.

(** With a sign the property fails: a slot from -2:00 to -1:30 passes the
    guard, its end event comes before its start event, and its
    participant stays in the active set. *)
Example signed_slot_stays_active :
  timeline_segments
    [ mkResp "P1" [mkSlot "2024-03-10" "-2:00" "-1:30"];
      mkResp "P2" [mkSlot "2024-03-10" "10:00" "11:00"] ] "2024-03-10"
  = [ mkSeg 0 600 ["P1"]; mkSeg 600 660 ["P1"; "P2"] ].
Proof. vm_compute. reflexivity. Qed.

(** X5: for every input, no participant is listed twice on a segment, also
    when the participant has several slots or the same slot several
    times. *)
Theorem segment_participants_distinct responses d :
  Forall (fun seg => NoDup (participantIds seg))
         (timeline_segments responses d).
Proof. apply timeline_segments_Forall, date_segments_NoDup. Qed.

(** ** Dates are swept independently *)

Lemma entries_restrict d responses :
  entries (map (restrict_to_date d) responses)
  = filter (fun e => String.eqb (date (snd e)) d) (entries responses).
Proof.
  induction responses as [|r rs IH]; simpl; [reflexivity|].
  rewrite filter_app, IH. f_equal.
  generalize (slots r). intros l.
  induction l as [|s l IHl]; simpl; [reflexivity|].
  destruct (String.eqb (date s) d); simpl; now rewrite IHl.
Qed.

Lemma events_on_filter d es :
  events_on d (filter (fun e => String.eqb (date (snd e)) d) es)
  = events_on d es.
Proof.
  induction es as [|[p s] es IH]; simpl; [reflexivity|].
  destruct (String.eqb (date s) d) eqn:E; simpl; now rewrite ?E, IH.
Qed.

Lemma events_on_other_date d d' es :
  d <> d' ->
  events_on d' (filter (fun e => String.eqb (date (snd e)) d) es) = [].
Proof.
  intros Hne. induction es as [|[p s] es IH]; simpl; [reflexivity|].
  destruct (String.eqb_spec (date s) d) as [E|E]; simpl; [|exact IH].
  rewrite IH, app_nil_r.
  destruct (String.eqb_spec (date s) d'); [congruence|reflexivity].
Qed.

(** X6: the segments of a date depend only on the slots of that date:
    dropping every slot of the other dates leaves them unchanged, and leaves
    no other date in the result. *)
Theorem dates_are_independent responses d :
  timeline_segments (map (restrict_to_date d) responses) d
  = timeline_segments responses d /\
  forall d', d <> d' ->
    map_get d' (buildTimeline (map (restrict_to_date d) responses)) = None.
Proof.
  split.
  - unfold timeline_segments.
    rewrite !buildTimeline_get, entries_restrict.
    now rewrite events_on_filter.
  - intros d' Hne. rewrite buildTimeline_get, entries_restrict.
    rewrite events_on_other_date by exact Hne.
    now destruct (String.eqb d' "__proto__").
Qed.

Lemma dates_are_independent_witness :
  timeline_segments (map (restrict_to_date "2024-03-10") scenario_A_input)
                    "2024-03-10"
  = timeline_segments scenario_A_input "2024-03-10" /\
  map_get "2024-03-11"
    (buildTimeline (map (restrict_to_date "2024-03-10") scenario_A_input))
  = None.
Proof.
  destruct (dates_are_independent scenario_A_input "2024-03-10") as [H1 H2].
  split; [exact H1|]. apply H2. discriminate.
Defined.

(** ** A date of the result has a segment *)

Section FirstSegment.
Variable ivs : list Interval.
Hypothesis ivs_valid : forall iv, In iv ivs -> iv_start iv < iv_end iv.

Local Abbreviation sorted := (sortEvents (interval_events ivs)).
Local Abbreviation init := (sweep_init (sortEvents (interval_events ivs))).

(** The least event is a start event, and no end event shares its
    minute. *)
Lemma least_event_is_start x0 rest :
  sorted = x0 :: rest ->
  exists iv0, In iv0 ivs /\ x0 = start_event iv0 /\
    forall iv, In iv ivs -> iv_start iv0 <= iv_start iv.
Proof.
  intros Hs.
  pose proof (sorted_strongly ivs) as Hss. rewrite Hs in Hss.
  apply StronglySorted_inv in Hss as [_ Hle]. rewrite Forall_forall in Hle.
  assert (Hleast : forall y, In y sorted -> y = x0 \/ ev_le x0 y).
  { intros y Hy. rewrite Hs in Hy. destruct Hy as [<-|Hy]; auto. }
  assert (Hx0 : In x0 sorted) by (rewrite Hs; now left).
  apply in_sorted in Hx0 as (iv0 & Hiv0 & [Hx|Hx]).
  - exists iv0. repeat split; auto. intros iv Hiv.
    destruct (Hleast (start_event iv)) as [E|E].
    { apply in_sorted. eauto. }
    + rewrite Hx in E. apply (f_equal minutes) in E. simpl in E.
      injection E as E. lia.
    + rewrite Hx in E.
      apply (ev_le_minutes _ _ _ _ E eq_refl eq_refl).
  - exfalso. destruct (Hleast (start_event iv0)) as [E|E].
    { apply in_sorted. eauto. }
    + rewrite Hx in E. discriminate.
    + rewrite Hx in E.
      pose proof (ev_le_minutes _ _ _ _ E eq_refl eq_refl).
      specialize (ivs_valid iv0 Hiv0). lia.
Qed.

Lemma first_segment_exists :
  ivs <> [] -> date_segments (interval_events ivs) <> [].
Proof.
  intros Hne.
  assert (Hex : exists iv, In iv ivs).
  { destruct ivs as [|iv l] eqn:E; [contradiction|].
    exists iv. now left. }
  destruct Hex as (iv1 & Hiv1).
  destruct sorted as [|x0 rest] eqn:Hs.
  { assert (H : In (start_event iv1) sorted)
      by (apply in_sorted; exists iv1; auto).
    rewrite Hs in H. destruct H. }
  destruct (least_event_is_start x0 rest Hs) as (iv0 & Hiv0 & Hx0 & Hmin).
  set (t := iv_start iv0).
  assert (Hend : In (end_event iv0) rest).
  { apply (start_before_end ivs ivs_valid [] x0 [] rest iv0);
      [ exact Hs | exact Hiv0 | exact Hx0 | intros y [] ]. }
  assert (Hfin : Forall finite_event rest).
  { pose proof (sortEvents_finite _ (interval_events_finite ivs)) as H.
    rewrite Hs in H. now apply Forall_cons_iff in H as [_ H]. }
  destruct (adjacent_pair t rest Hfin [] x0 t)
    as (d & z & e & todo & mz & me & Heq & Hz & Hle & He & Hlt).
  { rewrite Hx0. reflexivity. }
  { lia. }
  { exists (end_event iv0), (iv_end iv0). repeat split; auto.
    specialize (ivs_valid iv0 Hiv0). unfold t. lia. }
  simpl in Heq. rewrite <- Hs in Heq.
  assert (Hcut : cut_at ivs t (d ++ [z]) (e :: todo)).
  { apply (cut_of_split ivs d z e todo mz me); auto. }
  assert (Hact : In (iv_pid iv0)
                    (active (fold_left sweep_event (d ++ [z]) init))).
  { apply active_last_event; [reflexivity|].
    assert (Hin0 : In x0 (d ++ [z])).
    { rewrite Hs in Heq. destruct d as [|y d]; simpl in Heq.
      - injection Heq as -> _. now left.
      - injection Heq as -> _. now left. }
    destruct (last_event_exists (iv_pid iv0) (d ++ [z])) as (x & Hx).
    { exists x0. split; [exact Hin0 | now rewrite Hx0]. }
    exists x. split; [exact Hx|].
    destruct (type x) eqn:Hxt; [reflexivity|exfalso].
    destruct Hx as (l1 & l2 & Hd & _ & _).
    assert (Hxd : In x (d ++ [z])).
    { rewrite Hd. apply in_app_iff. right. now left. }
    destruct Hcut as (_ & Hdone & _).
    destruct (Hdone x Hxd) as (mx & Hmx & Hmle).
    assert (Hxs : In x sorted).
    { rewrite Heq. apply in_app_iff. now left. }
    apply in_sorted in Hxs as (iv' & Hiv' & [Hx|Hx]);
      [rewrite Hx in Hxt; discriminate|].
    rewrite Hx in Hmx. injection Hmx as <-.
    specialize (Hmin iv' Hiv'). specialize (ivs_valid iv' Hiv').
    unfold t in Hmle. lia. }
  intros Hnil.
  assert (Hin : In {| startMinutes := mz; endMinutes := me;
                      participantIds :=
                        active (fold_left sweep_event (d ++ [z]) init) |}
                   (date_segments (interval_events ivs))).
  { rewrite date_segments_emitted. apply in_emitted.
    exists (d ++ [z]), e, todo. split; [exact Heq|].
    rewrite (emit_intro _ e mz me);
      [ now left | now rewrite prevMinute_after | exact He | lia | ].
    intros E. unfold sortEvents in Hact. rewrite E in Hact. destruct Hact. }
  rewrite Hnil in Hin. destruct Hin.
Qed.
End FirstSegment.

(** X7: when the hours and minutes of every clock time are written with
    decimal digits only, a date other than [__proto__] with a valid slot
    is in the result with at least one segment, and a date without a
    valid slot is not in the result: no date is mapped to an empty
    list. *)
Theorem present_dates_have_segments responses d :
  digit_times responses ->
  (d <> "__proto__" -> has_valid_slot responses d ->
   exists seg segs,
     map_get d (buildTimeline responses) = Some (seg :: segs)) /\
  (~ has_valid_slot responses d ->
   map_get d (buildTimeline responses) = None).
Proof.
  intros Hnum.
  pose proof (events_on_digit responses d Hnum) as Hev.
  split.
  - intros Hd Hvalid.
    rewrite (timeline_present responses d Hnum Hd Hvalid).
    rewrite (timeline_segments_intervals responses d Hnum Hd).
    destruct (date_segments _) as [|seg segs] eqn:E; [|now exists seg, segs].
    exfalso. revert E. apply first_segment_exists.
    + apply intervals_on_valid.
    + destruct Hvalid as (r & slot & Hr & Hs & Hdate & Hrange).
      destruct (slot_range slot) as [[s e]|] eqn:Er; [|congruence].
      intros Hnil.
      assert (Hiv : In {| iv_start := s; iv_end := e; iv_pid := id r |}
                       (intervals_on d (entries responses))).
      { apply in_intervals_on_entries. now exists r, slot. }
      rewrite Hnil in Hiv. destruct Hiv.
  - intros Hnone. rewrite buildTimeline_get, Hev.
    destruct (String.eqb d "__proto__"); [reflexivity|].
    destruct (intervals_on d (entries responses)) as [|iv ivs] eqn:E;
      [reflexivity|].
    exfalso. apply Hnone.
    assert (Hiv : In iv (intervals_on d (entries responses)))
      by (rewrite E; now left).
    apply in_intervals_on_entries in Hiv
      as (r & slot & Hr & _ & Hs & Hdate & Hrange).
    exists r, slot. repeat split; auto. congruence.
Qed.

Lemma present_dates_have_segments_witness :
  (exists seg segs,
     map_get "2024-03-10" (buildTimeline scenario_A_input)
     = Some (seg :: segs)) /\
  map_get "2024-03-10" (buildTimeline zero_length_only) = None.
Proof.
  split.
  - apply (present_dates_have_segments scenario_A_input "2024-03-10").
    + apply digit_timesb_sound. reflexivity.
    + discriminate.
    + exists (mkResp "P1" [mkSlot "2024-03-10" "09:00" "10:00"]),
             (mkSlot "2024-03-10" "09:00" "10:00").
      repeat split; simpl; auto. discriminate.
  - apply (present_dates_have_segments zero_length_only "2024-03-10").
    + apply digit_timesb_sound. reflexivity.
    + intros (r & slot & [<-|[]] & [<-|[]] & _ & H). now apply H.
Defined.

(** With a sign a date can be mapped to an empty list: the only slot
    passes the guard, but its end event comes first and no segment is
    pushed. *)
Example signed_slot_alone_gives_empty_list :
  buildTimeline [ mkResp "P1" [mkSlot "2024-03-10" "-2:00" "-1:30"] ]
  = [ ("2024-03-10", []) ].
Proof. vm_compute. reflexivity. Qed.

(** ** Nothing is lost by [aggregateSlots] *)

Lemma listed_ids_app l1 l2 :
  listed_ids (l1 ++ l2) = (listed_ids l1 + listed_ids l2)%nat.
Proof. unfold listed_ids. now rewrite flat_map_app, length_app. Qed.

Lemma listed_ids_set k a m :
  match map_get k m with
  | Some old =>
      (listed_ids (map_values (map_set k a m))
       + List.length (agg_participantIds old)
       = listed_ids (map_values m) + List.length (agg_participantIds a))%nat
  | None =>
      listed_ids (map_values (map_set k a m))
      = (listed_ids (map_values m) + List.length (agg_participantIds a))%nat
  end.
Proof.
  unfold listed_ids, map_values.
  induction m as [|[k' v'] m IH]; simpl.
  - now rewrite app_nil_r.
  - destruct (String.eqb k' k); simpl; rewrite ?length_app.
    + lia.
    + destruct (map_get k m) as [old|]; lia.
Qed.

Lemma aggregate_slot_listed p m slot :
  listed_ids (map_values (aggregate_slot p m slot))
  = S (listed_ids (map_values m)).
Proof.
  unfold aggregate_slot.
  destruct (map_get (slot_key slot) m) as [old|] eqn:E.
  - pose proof (listed_ids_set (slot_key slot)
        {| agg_slot := agg_slot old;
           agg_participantIds := agg_participantIds old ++ [p] |} m) as H.
    rewrite E in H. simpl in H. rewrite length_app in H. simpl in H. lia.
  - pose proof (listed_ids_set (slot_key slot)
        {| agg_slot := slot; agg_participantIds := [p] |} m) as H.
    rewrite E in H. simpl in H. lia.
Qed.

Lemma aggregate_entries_listed es : forall m,
  listed_ids (map_values (aggregate_entries es m))
  = (listed_ids (map_values m) + List.length es)%nat.
Proof.
  induction es as [|[p slot] es IH]; intros m; simpl; [lia|].
  unfold aggregate_entries in *. simpl.
  rewrite IH, aggregate_slot_listed. lia.
Qed.

Lemma entries_length responses :
  List.length (entries responses) = slot_count responses.
Proof.
  unfold slot_count. induction responses as [|r rs IH]; simpl; [reflexivity|].
  now rewrite length_app, length_map, IH.
Qed.

(** X8: for every input, the participant lists of the aggregated slots
    together hold exactly one id per slot of the input: every slot of every
    participant is counted once, no slot is dropped and none is counted
    twice. *)
Theorem aggregateSlots_counts_every_slot responses :
  listed_ids (aggregateSlots responses) = slot_count responses.
Proof.
  rewrite aggregateSlots_entries.
  unfold listed_ids at 1.
  rewrite (Permutation_length
             (Permutation_flat_map agg_participantIds
                (array_sort_perm compareAggregated _))).
  fold (listed_ids (map_values (aggregate_entries (entries responses) []))).
  rewrite aggregate_entries_listed. simpl. apply entries_length.
Qed.

(** X9: for every input, an aggregated slot lists at least one participant,
    and the date and times it carries are those of a slot of the first
    participant it lists. *)
Theorem aggregated_slot_has_owner responses a :
  In a (aggregateSlots responses) ->
  exists p ps r,
    agg_participantIds a = p :: ps /\
    In r responses /\ id r = p /\ In (agg_slot a) (slots r).
Proof.
  intros Ha.
  apply in_aggregateSlots in Ha as (k & [p s] & rest & E & ->).
  assert (H : In (p, s) (matching k (entries responses)))
    by (rewrite E; now left).
  apply in_matching in H as [H _].
  apply in_entries in H as (r & Hr & Hid & Hs).
  exists p, (map fst rest), r. simpl. auto.
Qed.

Lemma aggregated_slot_has_owner_witness :
  exists p ps r,
    agg_participantIds
      {| agg_slot := mkSlot "2024-03-11" "14:00" "15:00";
         agg_participantIds := ["P1"; "P1"; "P2"] |} = p :: ps /\
    In r twice_the_same_slot /\ id r = p /\
    In (agg_slot {| agg_slot := mkSlot "2024-03-11" "14:00" "15:00";
                    agg_participantIds := ["P1"; "P1"; "P2"] |}) (slots r).
Proof.
  apply aggregated_slot_has_owner. vm_compute. now left.
Defined.

(** * Clock times and minutes *)

Lemma Z_range_forallb (P : Z -> bool) (n : nat) :
  forallb P (Z_range n) = true ->
  forall z, 0 <= z < Z.of_nat n -> P z = true.
Proof.
  unfold Z_range. rewrite forallb_forall. intros H z Hz.
  apply H. apply in_map_iff. exists (Z.to_nat z). split; [lia|].
  apply in_seq. lia.
Qed.

Lemma num_eqb_eq a b : num_eqb a b = true -> a = b.
Proof.
  destruct a as [x|], b as [y|]; simpl; try discriminate; auto.
  intros H. apply Z.eqb_eq in H. now subst.
Qed.

Lemma timeToMinutes_toMinutes time : timeToMinutes time = toMinutes time.
Proof. reflexivity. Qed.

Lemma minutesToTime_clamp z :
  minutesToTime (Some z) = minutesToTime (Some (clamp_day z)).
Proof.
  unfold minutesToTime, clamp_day. simpl.
  replace (Z.max 0 (Z.min (Z.max 0 (Z.min z 1440)) 1440))
    with (Z.max 0 (Z.min z 1440)) by lia.
  reflexivity.
Qed.

Lemma clamp_day_range z : 0 <= clamp_day z < Z.of_nat 1441.
Proof. unfold clamp_day. lia. Qed.

Lemma round_trip_in_day z :
  0 <= z < Z.of_nat 1441 ->
  num_eqb (timeToMinutes (minutesToTime (Some z))) (Some z)
  && is_clock_time (minutesToTime (Some z))
  && canonical_clock (minutesToTime (Some z)) = true.
Proof.
  apply (Z_range_forallb
           (fun z => num_eqb (timeToMinutes (minutesToTime (Some z))) (Some z)
                     && is_clock_time (minutesToTime (Some z))
                     && canonical_clock (minutesToTime (Some z)))).
  vm_compute. reflexivity.
Qed.

(** X10: converting minutes to a clock time and back gives the minutes
    clamped to the day: for every integer [z],
    [timeToMinutes (minutesToTime z)] is [max 0 (min z 1440)]; inside the
    day nothing is lost. *)
Theorem timeToMinutes_minutesToTime z :
  timeToMinutes (minutesToTime (Some z)) = Some (Z.max 0 (Z.min z 1440)).
Proof.
  rewrite minutesToTime_clamp. fold (clamp_day z).
  pose proof (round_trip_in_day (clamp_day z) (clamp_day_range z)) as H.
  apply andb_true_iff in H as [H _]. apply andb_true_iff in H as [H _].
  now apply num_eqb_eq.
Qed.

Lemma minutesToTime_clock z : is_clock_time (minutesToTime (Some z)) = true.
Proof.
  rewrite minutesToTime_clamp.
  pose proof (round_trip_in_day (clamp_day z) (clamp_day_range z)) as H.
  apply andb_true_iff in H as [H _]. now apply andb_true_iff in H as [_ H].
Qed.

(** X11: for every integer, [minutesToTime] returns a clock time of the
    shape [HH:mm] (two digits, colon, two digits), so the slots built from
    it meet both input conditions; for NaN it returns the text NaN:NaN. *)
Theorem minutesToTime_shape :
  (forall z, is_clock_time (minutesToTime (Some z)) = true /\
             toMinutes (minutesToTime (Some z)) <> NaN /\
             underscore_free (minutesToTime (Some z)) = true) /\
  minutesToTime NaN = "NaN:NaN".
Proof.
  split; [|reflexivity]. intros z.
  assert (H : is_clock_time (minutesToTime (Some z)) = true).
  { rewrite minutesToTime_clamp.
    pose proof (round_trip_in_day (clamp_day z) (clamp_day_range z)) as H.
    apply andb_true_iff in H as [H _]. now apply andb_true_iff in H as [_ H]. }
  auto using clock_time_numeric, clock_time_plain.
Qed.

Lemma is_digit_char c :
  is_digit c = true -> exists d, 0 <= d < Z.of_nat 10 /\ c = digit_char d.
Proof.
  unfold is_digit, digit_value.
  destruct (Z.leb_spec 48 (Z.of_N (N_of_ascii c))); simpl; [|discriminate].
  destruct (Z.leb_spec (Z.of_N (N_of_ascii c)) 57); simpl; [|discriminate].
  intros _. exists (Z.of_N (N_of_ascii c) - 48). split; [simpl; lia|].
  unfold digit_char.
  replace (48 + (Z.of_N (N_of_ascii c) - 48)) with (Z.of_N (N_of_ascii c))
    by lia.
  now rewrite N2Z.id, ascii_N_embedding.
Qed.

Lemma clock_time_digits s :
  is_clock_time s = true ->
  exists d1 d2 d3 d4,
    0 <= d1 < Z.of_nat 10 /\ 0 <= d2 < Z.of_nat 10 /\
    0 <= d3 < Z.of_nat 10 /\ 0 <= d4 < Z.of_nat 10 /\
    s = clock_of_digits d1 d2 d3 d4.
Proof.
  intros H. apply clock_time_shape in H
    as (h1 & h2 & m1 & m2 & -> & H1 & H2 & H3 & H4).
  apply is_digit_char in H1 as (d1 & ? & ->).
  apply is_digit_char in H2 as (d2 & ? & ->).
  apply is_digit_char in H3 as (d3 & ? & ->).
  apply is_digit_char in H4 as (d4 & ? & ->).
  now exists d1, d2, d3, d4.
Qed.

Lemma canonical_round_trip_digits d1 d2 d3 d4 :
  0 <= d1 < Z.of_nat 10 -> 0 <= d2 < Z.of_nat 10 ->
  0 <= d3 < Z.of_nat 10 -> 0 <= d4 < Z.of_nat 10 ->
  implb (canonical_clock (clock_of_digits d1 d2 d3 d4))
        (String.eqb
           (minutesToTime (timeToMinutes (clock_of_digits d1 d2 d3 d4)))
           (clock_of_digits d1 d2 d3 d4)) = true.
Proof.
  intros H1 H2 H3 H4. revert d4 H4. revert d3 H3. revert d2 H2.
  revert d1 H1.
  set (Q := fun d1 d2 d3 d4 =>
    implb (canonical_clock (clock_of_digits d1 d2 d3 d4))
          (String.eqb
             (minutesToTime (timeToMinutes (clock_of_digits d1 d2 d3 d4)))
             (clock_of_digits d1 d2 d3 d4))).
  assert (Hall : forallb (fun d1 => forallb (fun d2 => forallb (fun d3 =>
             forallb (Q d1 d2 d3) (Z_range 10)) (Z_range 10)) (Z_range 10))
             (Z_range 10) = true) by (vm_compute; reflexivity).
  intros d1 H1 d2 H2 d3 H3 d4 H4.
  apply (Z_range_forallb _ 10) with (z := d1) in Hall; [|exact H1].
  apply (Z_range_forallb _ 10) with (z := d2) in Hall; [|exact H2].
  apply (Z_range_forallb _ 10) with (z := d3) in Hall; [|exact H3].
  apply (Z_range_forallb _ 10) with (z := d4) in Hall; [|exact H4].
  exact Hall.
Qed.

Lemma canonical_round_trip s :
  canonical_clock s = true -> minutesToTime (timeToMinutes s) = s.
Proof.
  intros Hc.
  assert (Hs : is_clock_time s = true).
  { unfold canonical_clock in Hc. now apply andb_true_iff in Hc as [Hc _]. }
  apply clock_time_digits in Hs as (d1 & d2 & d3 & d4 & H1 & H2 & H3 & H4 & ->).
  pose proof (canonical_round_trip_digits d1 d2 d3 d4 H1 H2 H3 H4) as H.
  rewrite Hc in H. simpl in H. now apply String.eqb_eq.
Qed.

(** X12: a clock time [HH:mm] with minutes below 60 and at most 24:00 is
    reproduced exactly by converting it to minutes and back. *)
Theorem minutesToTime_timeToMinutes s :
  canonical_clock s = true -> minutesToTime (timeToMinutes s) = s.
Proof. apply canonical_round_trip. Qed.

Lemma minutesToTime_timeToMinutes_witness :
  minutesToTime (timeToMinutes "09:30") = "09:30".
Proof. apply minutesToTime_timeToMinutes. reflexivity. Defined.

(** ** From a segment back to a slot *)



(** ** Text order and numeric order of clock times *)

Lemma minutesToTime_step x :
  0 <= x < Z.of_nat 1440 ->
  js_str_lt (minutesToTime (Some x)) (minutesToTime (Some (x + 1))) = true.
Proof.
  apply (Z_range_forallb
           (fun x => js_str_lt (minutesToTime (Some x))
                               (minutesToTime (Some (x + 1))))).
  vm_compute. reflexivity.
Qed.

Lemma js_str_lt_iff a b : js_str_lt a b = true <-> str_lt a b.
Proof.
  unfold js_str_lt, str_lt. rewrite <- String_as_OT.cmp_lt.
  unfold String_as_OT.cmp. destruct (String.compare a b); split;
    congruence.
Qed.

Lemma minutesToTime_mono (n : nat) : forall x,
  0 <= x -> x + 1 + Z.of_nat n <= 1440 ->
  str_lt (minutesToTime (Some x)) (minutesToTime (Some (x + 1 + Z.of_nat n))).
Proof.
  induction n as [|n IH]; intros x Hx Hle.
  - replace (x + 1 + Z.of_nat 0) with (x + 1) by lia.
    apply js_str_lt_iff, minutesToTime_step. lia.
  - eapply str_lt_trans; [apply IH; lia|].
    replace (x + 1 + Z.of_nat (S n)) with (x + 1 + Z.of_nat n + 1) by lia.
    apply js_str_lt_iff, minutesToTime_step. lia.
Qed.

Lemma minutesToTime_lt x y :
  0 <= x -> x < y -> y <= 1440 ->
  str_lt (minutesToTime (Some x)) (minutesToTime (Some y)).
Proof.
  intros Hx Hlt Hy.
  replace y with (x + 1 + Z.of_nat (Z.to_nat (y - x - 1))) by lia.
  apply minutesToTime_mono; lia.
Qed.

Lemma canonical_value s :
  canonical_clock s = true ->
  exists v, toMinutes s = Some v /\ 0 <= v <= 1440 /\
            s = minutesToTime (Some v).
Proof.
  intros Hc. pose proof (canonical_round_trip s Hc) as Hrt.
  unfold canonical_clock in Hc. apply andb_true_iff in Hc as [Hs Hc].
  rewrite timeToMinutes_toMinutes in *.
  destruct (toMinutes s) as [v|] eqn:Ev; [|discriminate].
  destruct (Number (substring 3 2 s)); [|discriminate].
  apply andb_true_iff in Hc as [Hc _]. apply Z.leb_le in Hc.
  exists v. repeat split; auto.
  apply clock_time_digit, digit_time_value in Hs as (v' & Ev' & Hv').
  congruence.
Qed.

Lemma canonical_order s e :
  canonical_clock s = true -> canonical_clock e = true ->
  js_str_ge s e = js_le (toMinutes e) (toMinutes s).
Proof.
  intros Hs He.
  destruct (canonical_value s Hs) as (a & Ea & Ha & Hsa).
  destruct (canonical_value e He) as (b & Eb & Hb & Heb).
  rewrite Ea, Eb. simpl. unfold js_str_ge.
  destruct (Z.leb_spec b a) as [Hle|Hgt].
  - destruct (js_str_lt s e) eqn:E; [|reflexivity].
    apply js_str_lt_iff in E. exfalso.
    destruct (Z.eq_dec a b) as [->|Hne].
    + rewrite Hsa, Heb in E. now apply str_lt_irrefl in E.
    + assert (Hlt : str_lt e s).
      { rewrite Hsa, Heb. apply minutesToTime_lt; lia. }
      apply (str_lt_irrefl s). eapply str_lt_trans; eauto.
  - assert (Hlt : str_lt s e).
    { rewrite Hsa, Heb. apply minutesToTime_lt; lia. }
    apply js_str_lt_iff in Hlt. now rewrite Hlt.
Qed.

(** X14: on clock times [HH:mm] with minutes below 60 and at most 24:00,
    the text comparison [startTime >= endTime] of the form agrees with the
    numeric guard [end <= start] of buildTimeline: a pair of times passes
    both or fails both. *)
Theorem text_order_is_minute_order s e :
  canonical_clock s = true -> canonical_clock e = true ->
  js_str_ge s e = js_le (toMinutes e) (toMinutes s).
Proof. apply canonical_order. Qed.

Lemma text_order_is_minute_order_witness :
  js_str_ge "09:30" "10:00" = js_le (toMinutes "10:00") (toMinutes "09:30").
Proof. apply text_order_is_minute_order; reflexivity. Defined.

(** * The availability form *)

(** ** Order of the slots *)

Lemma sortSlots_lexicographic a b :
  padded_slot a = true -> padded_slot b = true ->
  sortSlots a b
  = if String.eqb (date a) (date b) then
      if String.eqb (startTime a) (startTime b)
      then lexicographic (endTime a) (endTime b)
      else lexicographic (startTime a) (startTime b)
    else lexicographic (date a) (date b).
Proof.
  intros Ha Hb.
  apply padded_slot_parts in Ha as (Hda & Hsa & Hea).
  apply padded_slot_parts in Hb as (Hdb & Hsb & Heb).
  unfold sortSlots.
  rewrite (localeCompare_same_shape _ _ (iso_date_same_shape _ _ Hda Hdb)).
  rewrite (localeCompare_same_shape _ _ (clock_time_same_shape _ _ Hsa Hsb)).
  rewrite (localeCompare_same_shape _ _ (clock_time_same_shape _ _ Hea Heb)).
  reflexivity.
Qed.

Lemma sortSlots_le a b :
  padded_slot a = true -> padded_slot b = true ->
  (cmp_le sortSlots a b <-> slot_le a b).
Proof.
  intros Ha Hb. unfold cmp_le, cmp_value.
  rewrite (sortSlots_lexicographic a b Ha Hb). unfold slot_le.
  pose proof (str_lt_irrefl (date b)) as Hd.
  pose proof (str_lt_irrefl (startTime b)) as Hs.
  destruct (String.eqb_spec (date a) (date b)) as [Ed|Ed].
  - destruct (String.eqb_spec (startTime a) (startTime b)) as [Es|Es].
    + rewrite lexicographic_le, Ed, Es. tauto.
    + rewrite lexicographic_le, Ed. unfold str_le. tauto.
  - rewrite lexicographic_le. unfold str_le. tauto.
Qed.

Lemma sortSlots_antisym a b :
  padded_slot a = true -> padded_slot b = true ->
  cmp_value sortSlots b a = - cmp_value sortSlots a b.
Proof.
  intros Ha Hb. unfold cmp_value.
  rewrite (sortSlots_lexicographic a b Ha Hb).
  rewrite (sortSlots_lexicographic b a Hb Ha).
  rewrite (String.eqb_sym (date b)), (String.eqb_sym (startTime b)).
  destruct (String.eqb _ _); [destruct (String.eqb _ _)|];
    apply lexicographic_antisym.
Qed.

Lemma lexicographic_zero a b : lexicographic a b = Some 0 <-> a = b.
Proof.
  unfold lexicographic.
  destruct (String.compare a b) eqn:E; simpl.
  - apply String_as_OT.cmp_eq in E. tauto.
  - split; [discriminate|]. intros ->.
    assert (E' : String.compare b b = Eq) by now apply String_as_OT.cmp_eq.
    congruence.
  - split; [discriminate|]. intros ->.
    assert (E' : String.compare b b = Eq) by now apply String_as_OT.cmp_eq.
    congruence.
Qed.

Lemma slot_le_trans a b c : slot_le a b -> slot_le b c -> slot_le a c.
Proof.
  unfold slot_le.
  intros [H1|[E1 H1]] [H2|[E2 H2]].
  - left. eapply str_lt_trans; eauto.
  - left. now rewrite <- E2.
  - left. now rewrite E1.
  - right. split; [congruence|].
    destruct H1 as [H1|[E1' H1]], H2 as [H2|[E2' H2]].
    + left. eapply str_lt_trans; eauto.
    + left. now rewrite <- E2'.
    + left. now rewrite E1'.
    + right. split; [congruence|]. eapply str_le_trans; eauto.
Qed.

Lemma sortSlots_sorted l :
  Forall (fun slot => padded_slot slot = true) l ->
  StronglySorted slot_le (array_sort sortSlots l).
Proof.
  intros Hpad.
  assert (Hdom : forall x, In x (array_sort sortSlots l) ->
                           padded_slot x = true).
  { intros x Hx. rewrite Forall_forall in Hpad. apply Hpad.
    now apply array_sort_In in Hx. }
  apply StronglySorted_impl with (R := cmp_le sortSlots).
  - intros x y Hx Hy. apply sortSlots_le; auto.
  - apply array_sort_sorted with (dom := fun slot => padded_slot slot = true).
    + intros a b Ha Hb Hpos. unfold cmp_le.
      rewrite (sortSlots_antisym a b Ha Hb). lia.
    + intros a b c Ha Hb Hc H1 H2. apply sortSlots_le; auto.
      apply sortSlots_le in H1, H2; auto. eapply slot_le_trans; eauto.
    + exact Hpad.
Qed.

Lemma sorted_NoDup_strict l :
  StronglySorted slot_le l -> NoDup l -> StronglySorted slot_lt l.
Proof.
  induction 1 as [|a l Hs IH Ha]; intros Hnd; constructor.
  - apply IH. now apply NoDup_cons_iff in Hnd as [_ Hnd].
  - apply NoDup_cons_iff in Hnd as [Hnotin _].
    rewrite Forall_forall in *. intros x Hx. split; [now apply Ha|].
    intros ->. contradiction.
Qed.

(** X15: on slots whose dates have the form dddd-dd-dd and whose clock
    times have the form dd:dd, [sortSlots] orders by date, then start
    time, then end time, each in lexicographic order, and two such slots
    compare equal only when they are the same triple; a list of such slots
    sorted with it stands in that order, strictly when it has no
    duplicates. *)
Theorem sortSlots_orders_slots :
  (forall a b, padded_slot a = true -> padded_slot b = true ->
     (sortSlots a b = Some 0 <-> a = b)) /\
  (forall l, Forall (fun slot => padded_slot slot = true) l ->
     StronglySorted slot_le (array_sort sortSlots l)) /\
  (forall l, Forall (fun slot => padded_slot slot = true) l -> NoDup l ->
     StronglySorted slot_lt (array_sort sortSlots l)).
Proof.
  split; [|split].
  - intros a b Ha Hb. rewrite (sortSlots_lexicographic a b Ha Hb). split.
    + destruct (String.eqb_spec (date a) (date b)) as [Ed|Ed];
        [destruct (String.eqb_spec (startTime a) (startTime b)) as [Es|Es]|];
        intros H; apply lexicographic_zero in H; try contradiction.
      destruct a, b; simpl in *; congruence.
    + intros <-. rewrite !String.eqb_refl. now apply lexicographic_zero.
  - apply sortSlots_sorted.
  - intros l Hpad Hnd. apply sorted_NoDup_strict; [now apply sortSlots_sorted|].
    eapply Permutation_NoDup; [|exact Hnd].
    apply Permutation_sym, array_sort_perm.
Qed.

Lemma sortSlots_orders_slots_witness :
  StronglySorted slot_lt
    (array_sort sortSlots [ mkSlot "2024-03-11" "09:30" "11:00";
                            mkSlot "2024-03-10" "14:00" "15:30" ]).
Proof.
  apply (proj2 (proj2 sortSlots_orders_slots)).
  - repeat constructor.
  - constructor; [intros [H|[]]; discriminate|].
    constructor; [intros []|constructor].
Defined.

(** A control character is ignored by the collation: two slots that
    differ in it compare equal. *)
Example sortSlots_equal_on_distinct_slots :
  sortSlots (mkSlot "2024-03-10" "09:00" "10:00")
            (mkSlot "2024-03-10" "09:00" (String "001" "10:00")) = Some 0.
Proof. reflexivity. Qed.

(** ** Appending slots *)

Lemma same_triple_eq a b : same_triple a b = true <-> a = b.
Proof.
  unfold same_triple. rewrite !andb_true_iff, !String.eqb_eq. split.
  - intros [[H1 H2] H3]. destruct a, b; simpl in *; congruence.
  - intros ->. auto.
Qed.

Lemma exists_same_triple slot merged :
  existsb (fun existing => same_triple existing slot) merged = true <->
  In slot merged.
Proof.
  rewrite existsb_exists. split.
  - intros (x & Hx & E). apply same_triple_eq in E. now subst.
  - intros H. exists slot. split; auto. now apply same_triple_eq.
Qed.

Section AppendSlots.
Variable dates : AllowedDates.
Variable times : AllowedTimes.

Local Abbreviation within := (fun s => isSlotWithinRange s dates times).
Local Abbreviation step := (append_candidate dates times).

Lemma append_candidate_cases st slot :
  (step st slot = st /\
   (within slot = false \/ In slot (fst st))) \/
  (step st slot = (fst st ++ [slot], true) /\
   within slot = true /\ ~ In slot (fst st)).
Proof.
  unfold append_candidate.
  destruct (isSlotWithinRange slot dates times) eqn:Ew; simpl; [|auto].
  destruct (existsb _ (fst st)) eqn:Ex.
  - apply exists_same_triple in Ex. auto.
  - right. repeat split; auto. intros Hin.
    apply exists_same_triple in Hin. congruence.
Qed.

Lemma append_fold_In cands : forall st s,
  In s (fst (fold_left step cands st)) <->
  In s (fst st) \/ (In s cands /\ within s = true).
Proof.
  induction cands as [|c cands IH]; intros st s; simpl.
  - tauto.
  - rewrite IH.
    destruct (append_candidate_cases st c) as [[-> Hc]|[-> [Hw Hc]]]; simpl.
    + split; [tauto|]. intros [H|[[<-|H] Hw]]; auto.
      destruct Hc as [Hc|Hc]; [congruence|auto].
    + rewrite in_app_iff. simpl. split.
      * intros [[H|[<-|[]]]|[H Hw']]; auto.
      * intros [H|[[<-|H] Hw']]; auto.
Qed.

Lemma append_fold_NoDup cands : forall st,
  NoDup (fst st) -> NoDup (fst (fold_left step cands st)).
Proof.
  induction cands as [|c cands IH]; intros st Hnd; simpl; [exact Hnd|].
  apply IH.
  destruct (append_candidate_cases st c) as [[-> _]|[-> [_ Hc]]]; simpl;
    [exact Hnd|].
  apply NoDup_app; [exact Hnd | repeat constructor; intros [] |].
  intros x Hx [<-|[]]. contradiction.
Qed.

Lemma append_fold_unchanged cands : forall st,
  (forall s, In s cands -> within s = true -> In s (fst st)) ->
  fold_left step cands st = st.
Proof.
  induction cands as [|c cands IH]; intros st H; simpl; [reflexivity|].
  destruct (append_candidate_cases st c) as [[E _]|[_ [Hw Hc]]].
  - rewrite E. apply IH. intros s Hs. apply H. now right.
  - exfalso. apply Hc, H; [now left|exact Hw].
Qed.

Lemma append_fold_flag cands : forall st,
  snd st = true -> snd (fold_left step cands st) = true.
Proof.
  induction cands as [|c cands IH]; intros st H; simpl; [exact H|].
  apply IH.
  destruct (append_candidate_cases st c) as [[-> _]|[-> _]]; auto.
Qed.

Lemma append_fold_added cands : forall st s,
  In s cands -> within s = true -> ~ In s (fst st) ->
  snd (fold_left step cands st) = true.
Proof.
  induction cands as [|c cands IH]; intros st s Hs Hw Hnot; [destruct Hs|].
  simpl.
  destruct (append_candidate_cases st c) as [[E Hc]|[E _]]; rewrite E.
  - destruct Hs as [->|Hs]; [|now apply (IH st s)].
    destruct Hc as [Hc|Hc]; [congruence|contradiction].
  - now apply append_fold_flag.
Qed.

Lemma appendSlots_unchanged cands prev :
  (forall s, In s cands -> within s = true -> In s prev) ->
  appendSlots dates times cands prev = prev.
Proof.
  intros H. unfold appendSlots.
  rewrite append_fold_unchanged by exact H. reflexivity.
Qed.

Lemma appendSlots_In cands prev s :
  In s (appendSlots dates times cands prev) <->
  In s prev \/ (In s cands /\ within s = true).
Proof.
  unfold appendSlots.
  destruct (snd (fold_left step cands (prev, false))) eqn:E.
  - rewrite array_sort_In, append_fold_In. reflexivity.
  - split; [auto|]. intros [H|[Hs Hw]]; [exact H|].
    destruct (in_dec slot_eq_dec s prev) as [Hin|Hout]; [exact Hin|].
    rewrite (append_fold_added cands (prev, false) s Hs Hw Hout) in E.
    discriminate.
Qed.

Lemma appendSlots_sorted cands prev :
  Forall (fun slot => padded_slot slot = true) prev ->
  Forall (fun slot => padded_slot slot = true) cands ->
  (exists s, In s cands /\ within s = true /\ ~ In s prev) ->
  StronglySorted slot_le (appendSlots dates times cands prev).
Proof.
  intros Hprev Hcands (s & Hs & Hw & Hnot). unfold appendSlots.
  rewrite (append_fold_added cands (prev, false) s Hs Hw Hnot).
  apply sortSlots_sorted. rewrite Forall_forall in *.
  intros x Hx. apply append_fold_In in Hx as [Hx|[Hx _]]; auto.
Qed.

Lemma appendSlots_NoDup cands prev :
  NoDup prev -> NoDup (appendSlots dates times cands prev).
Proof.
  intros Hnd. unfold appendSlots.
  destruct (snd (fold_left step cands (prev, false))); [|exact Hnd].
  eapply Permutation_NoDup.
  - apply Permutation_sym, array_sort_perm.
  - now apply append_fold_NoDup.
Qed.
End AppendSlots.

(** X16: after [appendSlots] the slot list holds exactly the previous
    slots and the candidates that pass [isSlotWithinRange]; a candidate out
    of range is never added and no previous slot is ever removed. *)
Theorem appendSlots_members dates times candidates prev slot :
  In slot (appendSlots dates times candidates prev) <->
  In slot prev \/
  (In slot candidates /\ isSlotWithinRange slot dates times = true).
Proof. apply appendSlots_In. Qed.

(** X17: [appendSlots] never introduces a duplicate triple: a list without
    duplicates stays without duplicates, also when a candidate occurs
    twice among the candidates or is already in the list. *)
Theorem appendSlots_no_duplicates dates times candidates prev :
  NoDup prev -> NoDup (appendSlots dates times candidates prev).
Proof. apply appendSlots_NoDup. Qed.

Lemma appendSlots_no_duplicates_witness :
  NoDup (appendSlots form_dates form_times
           [ mkSlot "2024-03-10" "09:30" "10:30";
             mkSlot "2024-03-10" "09:30" "10:30" ]
           [ mkSlot "2024-03-10" "09:00" "10:00" ]).
Proof.
  apply appendSlots_no_duplicates.
  repeat constructor. intros [].
Defined.

(** X18: when the previous slots and the candidates have dates of the
    form dddd-dd-dd and clock times of the form dd:dd and some candidate in
    range is new, the list [appendSlots] returns is sorted by date, start
    time and end time, each in lexicographic order; when no candidate in
    range is new, it returns the previous list as it was, in whatever
    order and whatever the form of the slots. *)
Theorem appendSlots_sorted_or_unchanged dates times candidates prev :
  (Forall (fun slot => padded_slot slot = true) prev ->
   Forall (fun slot => padded_slot slot = true) candidates ->
   (exists slot, In slot candidates /\
                 isSlotWithinRange slot dates times = true /\
                 ~ In slot prev) ->
   StronglySorted slot_le (appendSlots dates times candidates prev)) /\
  ((forall slot, In slot candidates ->
                 isSlotWithinRange slot dates times = true ->
                 In slot prev) ->
   appendSlots dates times candidates prev = prev).
Proof.
  split; [apply appendSlots_sorted | apply appendSlots_unchanged].
Qed.

Lemma appendSlots_sorted_or_unchanged_witness :
  StronglySorted slot_le
    (appendSlots form_dates form_times
       [ mkSlot "2024-03-09" "09:30" "10:30" ]
       [ mkSlot "2024-03-10" "09:00" "10:00" ]) /\
  appendSlots form_dates form_times
    [ mkSlot "2024-03-10" "09:00" "10:00" ]
    [ mkSlot "2024-03-10" "09:00" "10:00" ]
  = [ mkSlot "2024-03-10" "09:00" "10:00" ].
Proof.
  split.
  - apply (proj1 (appendSlots_sorted_or_unchanged form_dates form_times _ _)).
    + repeat constructor.
    + repeat constructor.
    + exists (mkSlot "2024-03-09" "09:30" "10:30").
      split; [now left|split].
      * vm_compute. reflexivity.
      * intros [H|[]]. discriminate H.
  - apply (proj2 (appendSlots_sorted_or_unchanged form_dates form_times _ _)).
    intros slot [<-|[]] _. now left.
Defined.

(** X19: appending the same candidates a second time changes nothing. *)
Theorem appendSlots_idempotent dates times candidates prev :
  appendSlots dates times candidates
    (appendSlots dates times candidates prev)
  = appendSlots dates times candidates prev.
Proof.
  apply appendSlots_unchanged. intros s Hs Hw.
  apply appendSlots_In. auto.
Qed.

(** ** Adding the drafts of the selected dates *)

Lemma collect_new_slots_inr drafts times isoDates : forall acc res,
  collect_new_slots drafts times isoDates acc = inr res ->
  exists new, res = acc ++ new /\
              map date new = filter (has_draft drafts) isoDates /\
              Forall (accepted drafts times) new.
Proof.
  induction isoDates as [|iso rest IH]; intros acc res; simpl.
  - intros [= <-]. exists []. rewrite app_nil_r. repeat split. constructor.
  - unfold has_draft at 1.
    destruct (map_get iso drafts) as [draft|] eqn:Ed; [|apply IH].
    destruct (js_str_ge _ _) eqn:Ege; [discriminate|].
    destruct (js_lt _ _ || js_gt _ _) eqn:Eout; [discriminate|].
    intros H. apply IH in H as (new & -> & Hdates & Hacc).
    exists ({| date := iso; startTime := draft_startTime draft;
               endTime := draft_endTime draft |} :: new).
    rewrite <- app_assoc. simpl. repeat split.
    + now rewrite Hdates.
    + constructor; [|exact Hacc].
      apply orb_false_iff in Eout as [E1 E2].
      unfold js_str_ge in Ege. apply negb_false_iff in Ege.
      unfold accepted. simpl.
      split; [|split; [exact Ege|split; [exact E1|exact E2]]].
      destruct draft; exact Ed.
Qed.

Lemma accepted_within drafts times slot :
  accepted drafts times slot ->
  isSlotWithinRange slot no_date_bounds times = true.
Proof.
  intros (_ & _ & H1 & H2). unfold isSlotWithinRange. simpl.
  now rewrite H1, H2.
Qed.

(** X20: when [handleAddSlot] hands slots to [appendSlots], there is one
    slot per selected date that has a draft, in the order of the dates, and
    each carries its draft with start time before end time in text order
    and inside the allowed times, so that the time checks of
    [isSlotWithinRange] pass; if the draft of any selected date fails a
    check, no slot at all is handed over. *)
Theorem handleAddSlot_hands_over_checked_slots isoDates drafts times newSlots :
  handleAddSlot isoDates drafts times = inr newSlots ->
  newSlots <> [] /\
  map date newSlots = filter (has_draft drafts) isoDates /\
  Forall (fun slot => accepted drafts times slot /\
                      isSlotWithinRange slot no_date_bounds times = true)
         newSlots.
Proof.
  unfold handleAddSlot. destruct isoDates as [|iso rest]; [discriminate|].
  destruct (collect_new_slots drafts times (iso :: rest) []) as [err|res]
    eqn:E; [discriminate|].
  destruct res as [|s res]; [discriminate|]. intros [= <-].
  apply collect_new_slots_inr in E as (new & Hnew & Hdates & Hacc).
  simpl in Hnew. subst new.
  split; [discriminate|]. split; [exact Hdates|].
  eapply Forall_impl; [|exact Hacc].
  intros slot H. split; [exact H|]. now apply (accepted_within drafts).
Qed.

Lemma handleAddSlot_hands_over_checked_slots_witness :
  [ mkSlot "2024-03-10" "09:00" "10:00";
    mkSlot "2024-03-12" "13:15" "17:45" ] <> [] /\
  map date [ mkSlot "2024-03-10" "09:00" "10:00";
             mkSlot "2024-03-12" "13:15" "17:45" ]
  = filter (has_draft form_drafts)
           [ "2024-03-10"; "2024-03-11"; "2024-03-12" ] /\
  Forall (fun slot => accepted form_drafts form_times slot /\
                      isSlotWithinRange slot no_date_bounds form_times = true)
         [ mkSlot "2024-03-10" "09:00" "10:00";
           mkSlot "2024-03-12" "13:15" "17:45" ].
Proof.
  apply (handleAddSlot_hands_over_checked_slots
           [ "2024-03-10"; "2024-03-11"; "2024-03-12" ]).
  vm_compute. reflexivity.
Defined.

Lemma accepted_canonical_range drafts times slot :
  canonical_drafts drafts -> accepted drafts times slot ->
  exists a b, toMinutes (startTime slot) = Some a /\
              toMinutes (endTime slot) = Some b /\
              slot_range slot = Some (a, b).
Proof.
  intros Hcan (Hd & Hlt & _ & _).
  destruct (Hcan _ _ Hd) as [Hs He]. simpl in Hs, He.
  pose proof (canonical_order (startTime slot) (endTime slot) Hs He) as Hord.
  unfold js_str_ge in Hord. rewrite Hlt in Hord. simpl in Hord.
  destruct (canonical_value _ Hs) as (a & Ea & Ha & _).
  destruct (canonical_value _ He) as (b & Eb & Hb & _).
  exists a, b. repeat split; auto.
  unfold slot_range. rewrite Ea, Eb in *. simpl in Hord.
  symmetry in Hord. apply Z.leb_gt in Hord.
  destruct (Z.ltb_spec a b); [|lia].
  destruct (Z.ltb_spec a 1440); [|lia].
  simpl. f_equal. f_equal. lia.
Qed.

(** X21: when the drafts are clock times [HH:mm] with minutes below 60 and
    at most 24:00, every slot [handleAddSlot] hands over is a valid slot
    for buildTimeline, with exactly the range of its two times: what the
    form accepts is never dropped or clamped by the timeline. *)
Theorem handleAddSlot_slots_are_valid isoDates drafts times newSlots :
  canonical_drafts drafts ->
  handleAddSlot isoDates drafts times = inr newSlots ->
  Forall (fun slot =>
            exists a b, toMinutes (startTime slot) = Some a /\
                        toMinutes (endTime slot) = Some b /\
                        slot_range slot = Some (a, b))
         newSlots.
Proof.
  intros Hcan H. unfold handleAddSlot in H.
  destruct isoDates as [|iso rest]; [discriminate|].
  destruct (collect_new_slots drafts times (iso :: rest) []) as [err|res]
    eqn:E; [discriminate|].
  destruct res as [|s res]; [discriminate|]. injection H as <-.
  apply collect_new_slots_inr in E as (new & Hnew & _ & Hacc).
  simpl in Hnew. subst new.
  eapply Forall_impl; [|exact Hacc].
  intros slot Hs. now apply (accepted_canonical_range drafts times).
Qed.

Lemma canonical_draftsb_sound drafts :
  forallb (fun e => canonical_clock (draft_startTime (snd e)) &&
                    canonical_clock (draft_endTime (snd e))) drafts = true ->
  canonical_drafts drafts.
Proof.
  rewrite forallb_forall. intros H iso draft Hget.
  apply map_get_In in Hget. apply H in Hget. simpl in Hget.
  now apply andb_true_iff in Hget.
Qed.

Lemma handleAddSlot_slots_are_valid_witness :
  Forall (fun slot =>
            exists a b, toMinutes (startTime slot) = Some a /\
                        toMinutes (endTime slot) = Some b /\
                        slot_range slot = Some (a, b))
         [ mkSlot "2024-03-10" "09:00" "10:00";
           mkSlot "2024-03-12" "13:15" "17:45" ].
Proof.
  apply (handleAddSlot_slots_are_valid
           [ "2024-03-10"; "2024-03-11"; "2024-03-12" ]
           form_drafts form_times).
  - apply canonical_draftsb_sound. reflexivity.
  - vm_compute. reflexivity.
Defined.

(** * The range slider *)



(** X23: [clampRange] leaves a range unchanged when it lies within the
    bounds and its ends are at least 15 minutes apart. *)
Theorem clampRange_identity s e lo hi :
  lo <= s -> s + 15 <= e -> e <= hi ->
  clampRange (Some s, Some e) (Some lo) (Some hi) = (Some s, Some e).
Proof.
  intros H1 H2 H3. unfold clampRange. simpl. f_equal; f_equal; lia.
Qed.

Lemma clampRange_identity_witness :
  clampRange (Some 540, Some 600) (Some 480) (Some 1080)
  = (Some 540, Some 600).
Proof. apply clampRange_identity; lia. Defined.

(** * The timeline display *)

Lemma iso_datesb_sound responses :
  iso_datesb responses = true -> iso_dates responses.
Proof.
  unfold iso_datesb, iso_dates. rewrite forallb_forall.
  intros H r slot Hr Hs. specialize (H r Hr).
  rewrite forallb_forall in H. now apply H.
Qed.

Lemma timeline_key_date responses d :
  In d (map_keys (buildTimeline responses)) ->
  exists r slot, In r responses /\ In slot (slots r) /\ date slot = d.
Proof.
  intros Hin.
  pose proof (buildTimeline_get responses d) as Hget.
  pose proof (map_get_None_keys d (buildTimeline responses)) as Hnone.
  destruct (String.eqb d "__proto__");
    [exfalso; now apply Hnone in Hin|].
  destruct (events_on d (entries responses)) as [|x l] eqn:E;
    [exfalso; now apply Hnone in Hin|].
  assert (Hne : events_on d (entries responses) <> [])
    by (rewrite E; discriminate).
  apply events_on_nonempty in Hne as (r & slot & Hr & Hs & Hd & _).
  now exists r, slot.
Qed.

Lemma timeline_keys_iso responses d :
  iso_dates responses -> In d (map_keys (buildTimeline responses)) ->
  is_iso_date d = true.
Proof.
  intros Hiso Hin.
  apply timeline_key_date in Hin as (r & slot & Hr & Hs & <-).
  now apply (Hiso r).
Qed.

Lemma compareEntries_lexicographic a b :
  is_iso_date (fst a) = true -> is_iso_date (fst b) = true ->
  compareEntries a b = lexicographic (fst a) (fst b).
Proof.
  intros Ha Hb. unfold compareEntries.
  apply localeCompare_same_shape. now apply iso_date_same_shape.
Qed.

Lemma compareEntries_le a b :
  is_iso_date (fst a) = true -> is_iso_date (fst b) = true ->
  (cmp_le compareEntries a b <-> str_le (fst a) (fst b)).
Proof.
  intros Ha Hb. unfold cmp_le, cmp_value.
  rewrite (compareEntries_lexicographic a b Ha Hb).
  apply lexicographic_le.
Qed.

Lemma display_entries_perm timeline :
  Permutation (display_entries timeline) timeline.
Proof. apply array_sort_perm. Qed.

Lemma display_entries_sorted timeline :
  (forall d, In d (map_keys timeline) -> is_iso_date d = true) ->
  NoDup (map_keys timeline) ->
  StronglySorted entry_before (display_entries timeline).
Proof.
  intros Hiso Hnd.
  assert (Hdom : Forall (fun e : string * list TimelineSegment =>
                           is_iso_date (fst e) = true) timeline).
  { apply Forall_forall. intros e He. apply Hiso. now apply in_map. }
  assert (Hdom' : forall e, In e (display_entries timeline) ->
                            is_iso_date (fst e) = true).
  { intros e He. rewrite Forall_forall in Hdom. apply Hdom.
    now apply (array_sort_In compareEntries). }
  assert (Hs : StronglySorted (fun a b => str_le (fst a) (fst b))
                 (display_entries timeline)).
  { apply StronglySorted_impl with (R := cmp_le compareEntries).
    - intros x y Hx Hy. apply compareEntries_le; auto.
    - apply array_sort_sorted
        with (dom := fun e : string * list TimelineSegment =>
                       is_iso_date (fst e) = true).
      + intros a b Ha Hb. unfold cmp_le, cmp_value.
        rewrite (compareEntries_lexicographic a b Ha Hb).
        rewrite (compareEntries_lexicographic b a Hb Ha).
        rewrite (lexicographic_antisym (fst a) (fst b)). lia.
      + intros a b c Ha Hb Hc H1 H2. apply compareEntries_le; auto.
        apply compareEntries_le in H1, H2; auto.
        eapply str_le_trans; eauto.
      + exact Hdom. }
  assert (Hnd' : NoDup (map fst (display_entries timeline))).
  { eapply Permutation_NoDup; [|exact Hnd].
    apply Permutation_map, Permutation_sym, display_entries_perm. }
  clear Hdom Hdom'.
  revert Hnd'. induction Hs as [|a l Hs IH Ha]; intros Hnd'; constructor.
  - apply IH. simpl in Hnd'. now apply NoDup_cons_iff in Hnd' as [_ H].
  - simpl in Hnd'. apply NoDup_cons_iff in Hnd' as [Hnotin _].
    rewrite Forall_forall in *. intros x Hx.
    destruct (Ha x Hx) as [E|H]; [|exact H].
    exfalso. apply Hnotin. rewrite E. now apply in_map.
Qed.

(** X24: the display lists the entries of the result, each date once with
    its segments; when every date of the input has the form dddd-dd-dd,
    the dates stand in strictly ascending lexicographic order, whatever
    the order in which they were first met in the input. *)
Theorem display_dates_ascending responses :
  Permutation (display_entries (buildTimeline responses))
              (buildTimeline responses) /\
  (iso_dates responses ->
   StronglySorted entry_before (display_entries (buildTimeline responses))).
Proof.
  split; [apply display_entries_perm|]. intros Hiso.
  apply display_entries_sorted; [|apply buildTimeline_NoDup].
  intros d. now apply timeline_keys_iso.
Qed.

Lemma display_dates_ascending_witness :
  StronglySorted entry_before
    (display_entries (buildTimeline two_dates_input)).
Proof.
  apply (proj2 (display_dates_ascending two_dates_input)).
  apply iso_datesb_sound. reflexivity.
Defined.

(** Dates of other forms are displayed in the order of the collation,
    not of the calendar: October comes before a March written without
    leading zero. *)
Example display_unpadded_dates :
  map fst (display_entries
             (buildTimeline
                [ mkResp "P1" [ mkSlot "2024-3-10" "09:00" "10:00";
                                mkSlot "2024-10-01" "09:00" "10:00" ] ]))
  = [ "2024-10-01"; "2024-3-10" ].
Proof. vm_compute. reflexivity. Qed.












Example display_two_dates :
  buildTimeline two_dates_input
  = [ ("2024-03-12", [ mkSeg 540 600 ["P1"] ]);
      ("2024-03-10", [ mkSeg 840 870 ["P1"]; mkSeg 870 900 ["P1"; "P2"];
                       mkSeg 900 960 ["P2"] ]) ] /\
  map fst (display_entries (buildTimeline two_dates_input))
  = [ "2024-03-10"; "2024-03-12" ].
Proof. split; vm_compute; reflexivity. Qed.

(** * The form's preview *)

Section SingleOwner.
Variable ivs : list Interval.
Variable p : string.
Hypothesis ivs_valid : forall iv, In iv ivs -> iv_start iv < iv_end iv.
Hypothesis ivs_sep : separated ivs.
Hypothesis ivs_owner : forall iv, In iv ivs -> iv_pid iv = p.

Lemma owner_apart a b :
  In a ivs -> In b ivs ->
  (iv_start a = iv_start b /\ iv_end a = iv_end b) \/
  iv_end a < iv_start b \/ iv_end b < iv_start a.
Proof. intros Ha Hb. apply ivs_sep; auto. rewrite !ivs_owner; auto. Qed.

(** With one participant whose intervals are apart, every segment is one of
    the intervals. *)
Lemma single_owner_segment seg :
  In seg (date_segments (interval_events ivs)) ->
  participantIds seg = [p] /\
  exists iv, In iv ivs /\ iv_start iv = startMinutes seg /\
             iv_end iv = endMinutes seg.
Proof.
  intros Hseg.
  pose proof (date_segments_ok (interval_events ivs)) as Hok.
  rewrite Forall_forall in Hok. destruct (Hok seg Hseg) as [Hw Hne].
  pose proof (date_segments_NoDup (interval_events ivs)) as Hnd.
  rewrite Forall_forall in Hnd. specialize (Hnd seg Hseg).
  assert (Hall : forall q t, In q (participantIds seg) ->
                   startMinutes seg <= t < endMinutes seg ->
                   q = p /\ exists iv, In iv ivs /\ covers iv t).
  { intros q t Hq Ht.
    destruct (segment_sound ivs ivs_valid seg q t Hseg Hq Ht)
      as (iv & Hiv & Hp & Hc).
    split; [|eauto]. rewrite <- Hp. now apply ivs_owner. }
  assert (Hcov : forall t, startMinutes seg <= t < endMinutes seg ->
                           exists iv, In iv ivs /\ covers iv t).
  { intros t Ht. destruct (participantIds seg) as [|q l]; [now elim Hne|].
    apply (Hall q t); [now left|exact Ht]. }
  assert (Hp : forall q, In q (participantIds seg) -> q = p).
  { intros q Hq. apply (Hall q (startMinutes seg) Hq). lia. }
  split.
  - destruct (participantIds seg) as [|q l]; [now elim Hne|].
    rewrite (Hp q (or_introl eq_refl)). f_equal.
    destruct l as [|q' l]; [reflexivity|].
    exfalso. apply NoDup_cons_iff in Hnd as [Hnotin _]. apply Hnotin. left.
    rewrite (Hp q'), (Hp q); simpl; auto.
  - destruct (segment_ends_are_events _ seg Hseg)
      as (z & e & Hz & He & Hmz & Hme).
    destruct (Hcov (startMinutes seg)) as (iv & Hiv & Hc); [lia|].
    apply in_flat_map in Hz as (iz & Hiz & Hz).
    apply in_flat_map in He as (ie & Hie & He).
    unfold covers in Hc.
    pose proof (ivs_valid iv Hiv). pose proof (ivs_valid iz Hiz).
    pose proof (ivs_valid ie Hie).
    pose proof (owner_apart iv iz Hiv Hiz).
    pose proof (owner_apart iv ie Hiv Hie).
    assert (Hstart : iv_start iv = startMinutes seg).
    { destruct Hz as [<-|[<-|[]]]; simpl in Hmz; injection Hmz as Hmz; lia. }
    assert (Hge : endMinutes seg <= iv_end iv).
    { destruct (Z_le_gt_dec (endMinutes seg) (iv_end iv)); [auto|].
      destruct (Hcov (iv_end iv)) as (iv' & Hiv' & Hc'); [lia|].
      unfold covers in Hc'. pose proof (owner_apart iv iv' Hiv Hiv'). lia. }
    exists iv. repeat split; auto.
    destruct He as [<-|[<-|[]]]; simpl in Hme; injection Hme as Hme; lia.
Qed.

(** ... and every interval is one of the segments. *)
Lemma single_owner_interval iv :
  In iv ivs ->
  In (mkSeg (iv_start iv) (iv_end iv) [p])
     (date_segments (interval_events ivs)).
Proof.
  intros Hiv. pose proof (ivs_valid iv Hiv) as Hv.
  destruct (segments_cover ivs ivs_valid iv (iv_start iv))
    as (seg & Hseg & Ht).
  { now apply separated_compatible. }
  { exact Hiv. }
  { unfold covers. lia. }
  destruct (single_owner_segment seg Hseg) as (Hp & iv' & Hiv' & Hs & He).
  pose proof (owner_apart iv iv' Hiv Hiv') as Hap.
  assert (iv_start iv = startMinutes seg /\ iv_end iv = endMinutes seg)
    as [E1 E2] by lia.
  rewrite E1, E2, <- Hp. now destruct seg.
Qed.

End SingleOwner.

Lemma in_previewResponses p own r :
  In r (previewResponses p own) -> id r = p /\ slots r = own.
Proof.
  destruct own; simpl; [intros []|]. intros [<-|[]]. now split.
Qed.

Lemma previewResponses_slot p own slot :
  In slot own ->
  exists r, In r (previewResponses p own) /\ id r = p /\ In slot (slots r).
Proof.
  intros H. destruct own as [|s l]; [destruct H|].
  eexists. split; [now left|]. now split.
Qed.

Lemma preview_intervals_owner p own d iv :
  In iv (intervals_on d (entries (previewResponses p own))) ->
  iv_pid iv = p.
Proof.
  intros H. apply in_intervals_on_entries in H as (r & _ & Hr & Hid & _).
  apply in_previewResponses in Hr as [Hr _]. congruence.
Qed.

Lemma preview_segment_is_slot p own d seg :
  digit_times (previewResponses p own) ->
  no_self_touch (previewResponses p own) d ->
  In seg (timeline_segments (previewResponses p own) d) ->
  participantIds seg = [p] /\
  exists slot, In slot own /\ date slot = d /\
               slot_range slot = Some (startMinutes seg, endMinutes seg).
Proof.
  intros Hdig Hsep Hseg.
  apply (timeline_segments_intervals_In _ d seg Hdig) in Hseg as [_ Hseg].
  apply no_self_touch_separated in Hsep.
  pose proof (intervals_on_valid d (entries (previewResponses p own))) as Hv.
  pose proof (preview_intervals_owner p own d) as Hown.
  destruct (single_owner_segment _ p Hv Hsep Hown seg Hseg)
    as (Hp & iv & Hiv & Hs & He).
  split; [exact Hp|].
  apply in_intervals_on_entries in Hiv as (r & slot & Hr & _ & Hin & Hd & Hrg).
  apply in_previewResponses in Hr as [_ Hr]. rewrite Hr in Hin.
  exists slot. rewrite <- Hs, <- He. auto.
Qed.

Lemma preview_slot_is_segment p own d seg :
  digit_times (previewResponses p own) -> d <> "__proto__" ->
  no_self_touch (previewResponses p own) d ->
  participantIds seg = [p] ->
  (exists slot, In slot own /\ date slot = d /\
                slot_range slot = Some (startMinutes seg, endMinutes seg)) ->
  In seg (timeline_segments (previewResponses p own) d).
Proof.
  intros Hdig Hd Hsep Hp (slot & Hin & Hds & Hrg).
  rewrite (timeline_segments_intervals _ d Hdig Hd).
  apply no_self_touch_separated in Hsep.
  pose proof (intervals_on_valid d (entries (previewResponses p own))) as Hv.
  pose proof (preview_intervals_owner p own d) as Hown.
  destruct (previewResponses_slot p own slot Hin) as (r & Hr & Hid & Hsl).
  pose (iv := {| iv_start := startMinutes seg; iv_end := endMinutes seg;
                 iv_pid := p |}).
  assert (Hiv : In iv (intervals_on d (entries (previewResponses p own)))).
  { apply in_intervals_on_entries. exists r, slot. simpl. auto. }
  pose proof (single_owner_interval _ p Hv Hsep Hown iv Hiv) as H.
  simpl in H. rewrite <- Hp in H. now destruct seg.
Qed.

Lemma canonical_slots_digit p own :
  canonical_slots own -> digit_times (previewResponses p own).
Proof.
  intros Hc r slot Hr Hs.
  apply in_previewResponses in Hr as [_ Hr]. rewrite Hr in Hs.
  destruct (Hc slot Hs) as [H1 H2].
  unfold canonical_clock in H1, H2.
  apply andb_true_iff in H1 as [H1 _]. apply andb_true_iff in H2 as [H2 _].
  split; now apply clock_time_digit.
Qed.

Lemma canonical_slot_of_range slot s e :
  canonical_clock (startTime slot) = true ->
  canonical_clock (endTime slot) = true ->
  slot_range slot = Some (s, e) ->
  slot = {| date := date slot; startTime := minutesToTime (Some s);
            endTime := minutesToTime (Some e) |}.
Proof.
  intros H1 H2 Hr.
  apply canonical_value in H1 as (v1 & E1 & B1 & S1).
  apply canonical_value in H2 as (v2 & E2 & B2 & S2).
  unfold slot_range in Hr. rewrite E1, E2 in Hr.
  destruct ((v1 <? v2) && (v1 <? 1440)); [|discriminate].
  injection Hr as <- <-. rewrite Z.min_l by lia.
  rewrite <- S1, <- S2. now destruct slot.
Qed.

Lemma preview_segment_own p own d seg :
  canonical_slots own ->
  no_self_touch (previewResponses p own) d ->
  In seg (timeline_segments (previewResponses p own) d) ->
  In (segment_to_slot d seg) own.
Proof.
  intros Hc Hsep Hseg.
  apply preview_segment_is_slot in Hseg as (_ & slot & Hin & Hd & Hr);
    [|now apply canonical_slots_digit|exact Hsep].
  destruct (Hc slot Hin) as [H1 H2].
  rewrite (canonical_slot_of_range slot _ _ H1 H2 Hr), Hd in Hin.
  exact Hin.
Qed.

Lemma canonical_slotsb_sound l :
  canonical_slotsb l = true -> canonical_slots l.
Proof.
  unfold canonical_slotsb. rewrite forallb_forall. intros H slot Hin.
  now apply andb_true_iff, H.
Qed.

(** X26: in the form's preview, where the participant's own slots are the
    only response, the segments of a date other than [__proto__] are
    exactly the valid ranges of the slots of that date, each listing that
    one participant, provided every clock time is written with decimal
    digits only on each side of the colon and no two different ranges of
    the date overlap or touch. *)
Theorem preview_shows_the_slots p own d seg :
  digit_times (previewResponses p own) -> d <> "__proto__" ->
  no_self_touch (previewResponses p own) d ->
  In seg (timeline_segments (previewResponses p own) d) <->
  participantIds seg = [p] /\
  exists slot, In slot own /\ date slot = d /\
               slot_range slot = Some (startMinutes seg, endMinutes seg).
Proof.
  intros Hdig Hd Hsep. split.
  - now apply preview_segment_is_slot.
  - intros [Hp H]. now apply preview_slot_is_segment.
Qed.

Lemma preview_shows_the_slots_witness :
  In (mkSeg 840 930 ["me"])
     (timeline_segments (previewResponses "me" own_slots) "2024-03-10").
Proof.
  apply (preview_shows_the_slots "me" own_slots "2024-03-10").
  - apply digit_timesb_sound. reflexivity.
  - discriminate.
  - apply no_self_touchb_sound. reflexivity.
  - split; [reflexivity|].
    exists (mkSlot "2024-03-10" "14:00" "15:30").
    split; [right; left; reflexivity|]. split; reflexivity.
Defined.

(** X27: selecting a segment of the preview yields, through
    [minutesToTime], a slot that is literally one of the participant's own
    slots, when these are written as HH:mm times up to 24:00 and no two
    different ranges of the date overlap or touch. *)
Theorem preview_selection_is_own_slot p own d seg :
  canonical_slots own ->
  no_self_touch (previewResponses p own) d ->
  In seg (timeline_segments (previewResponses p own) d) ->
  In (segment_to_slot d seg) own.
Proof. apply preview_segment_own. Qed.

Lemma preview_selection_is_own_slot_witness :
  In (segment_to_slot "2024-03-10" (mkSeg 840 930 ["me"])) own_slots.
Proof.
  apply (preview_selection_is_own_slot "me").
  - apply canonical_slotsb_sound. reflexivity.
  - apply no_self_touchb_sound. reflexivity.
  - vm_compute. right. left. reflexivity.
Defined.

Lemma onSegmentChange_In segment d original prev x :
  In x (onSegmentChange segment d original prev) <->
  (In x prev /\ x <> segment_to_slot d original) \/
  (x = segment_to_slot d segment /\ In (segment_to_slot d original) prev).
Proof.
  unfold onSegmentChange. rewrite array_sort_In, in_map_iff.
  assert (Hm : forall slot,
    String.eqb (date slot) d &&
    String.eqb (startTime slot) (minutesToTime (Some (startMinutes original)))
    && String.eqb (endTime slot) (minutesToTime (Some (endMinutes original)))
    = true <-> slot = segment_to_slot d original).
  { intros slot. rewrite <- same_triple_eq. reflexivity. }
  split.
  - intros (slot & Hx & Hin).
    destruct (String.eqb (date slot) d &&
              String.eqb (startTime slot)
                (minutesToTime (Some (startMinutes original))) &&
              String.eqb (endTime slot)
                (minutesToTime (Some (endMinutes original)))) eqn:E.
    + apply Hm in E. right. subst slot x. split; [reflexivity|exact Hin].
    + left. subst x. split; [exact Hin|].
      intros Heq. apply Hm in Heq. congruence.
  - intros [[Hin Hne]|[-> Hin]].
    + exists x. split; [|exact Hin].
      destruct (String.eqb (date x) d &&
                String.eqb (startTime x)
                  (minutesToTime (Some (startMinutes original))) &&
                String.eqb (endTime x)
                  (minutesToTime (Some (endMinutes original)))) eqn:E;
        [|reflexivity].
      apply Hm in E. contradiction.
    + exists (segment_to_slot d original). split; [|exact Hin].
      rewrite (proj2 (Hm _) eq_refl). reflexivity.
Qed.

Lemma onSegmentChange_padded segment d original prev :
  canonical_slots prev ->
  (forall slot, In slot prev -> is_iso_date (date slot) = true) ->
  Forall (fun slot => padded_slot slot = true)
    (map (fun slot =>
            if String.eqb (date slot) d &&
               String.eqb (startTime slot)
                 (minutesToTime (Some (startMinutes original))) &&
               String.eqb (endTime slot)
                 (minutesToTime (Some (endMinutes original)))
            then {| date := date slot;
                    startTime := minutesToTime (Some (startMinutes segment));
                    endTime := minutesToTime (Some (endMinutes segment)) |}
            else slot) prev).
Proof.
  intros Hc Hiso. apply Forall_forall. intros x Hx.
  apply in_map_iff in Hx as (slot & <- & Hin).
  destruct (Hc slot Hin) as [H1 H2]. unfold canonical_clock in H1, H2.
  apply andb_true_iff in H1 as [H1 _]. apply andb_true_iff in H2 as [H2 _].
  destruct (_ && _); unfold padded_slot; simpl.
  - now rewrite (Hiso slot Hin), !minutesToTime_clock.
  - now rewrite (Hiso slot Hin), H1, H2.
Qed.

(** X28: dragging a segment of the preview replaces exactly the slot it
    shows: afterwards the list holds the slot of the new segment and every
    other slot, and no longer the old one unless the drag changed nothing;
    the list keeps its length and, when the dates of the slots have the
    form dddd-dd-dd, is sorted by date, start and end in lexicographic
    order. *)
Theorem onSegmentChange_replaces_the_slot p own d original segment :
  canonical_slots own ->
  no_self_touch (previewResponses p own) d ->
  In original (timeline_segments (previewResponses p own) d) ->
  (forall x, In x (onSegmentChange segment d original own) <->
             (In x own /\ x <> segment_to_slot d original) \/
             x = segment_to_slot d segment) /\
  List.length (onSegmentChange segment d original own) = List.length own /\
  ((forall slot, In slot own -> is_iso_date (date slot) = true) ->
   StronglySorted slot_le (onSegmentChange segment d original own)).
Proof.
  intros Hc Hsep Hseg.
  pose proof (preview_segment_own p own d original Hc Hsep Hseg) as Hown.
  split; [|split].
  - intros x. rewrite onSegmentChange_In. tauto.
  - unfold onSegmentChange.
    rewrite (Permutation_length (array_sort_perm _ _)). apply length_map.
  - intros Hiso. apply sortSlots_sorted.
    now apply onSegmentChange_padded.
Qed.

Lemma onSegmentChange_replaces_the_slot_witness :
  onSegmentChange (mkSeg 855 945 ["me"]) "2024-03-10"
                  (mkSeg 840 930 ["me"]) own_slots
  = [ mkSlot "2024-03-10" "09:00" "10:00";
      mkSlot "2024-03-10" "14:15" "15:45";
      mkSlot "2024-03-11" "09:30" "11:00" ] /\
  List.length (onSegmentChange (mkSeg 855 945 ["me"]) "2024-03-10"
                          (mkSeg 840 930 ["me"]) own_slots)
  = List.length own_slots /\
  StronglySorted slot_le
    (onSegmentChange (mkSeg 855 945 ["me"]) "2024-03-10"
                     (mkSeg 840 930 ["me"]) own_slots).
Proof.
  split; [vm_compute; reflexivity|].
  destruct (onSegmentChange_replaces_the_slot "me" own_slots "2024-03-10"
              (mkSeg 840 930 ["me"]) (mkSeg 855 945 ["me"]))
    as (_ & Hlen & Hsorted).
  - apply canonical_slotsb_sound. reflexivity.
  - apply no_self_touchb_sound. reflexivity.
  - vm_compute. right. left. reflexivity.
  - split; [exact Hlen|]. apply Hsorted.
    intros slot [<-|[<-|[<-|[]]]]; reflexivity.
Defined.
